(** * The software renderer of LearnC (Renderer/src/renderer.c)

    A shallow embedding of the 2D rasterizer, the BMP decoder and the 3D
    projection code, and the properties of them that the specification
    states.

    Modelling conventions.
    - [int] values are integers of [Z].  The lines, the thick lines, the
      filled circle and the BMP decoder compute with [int] as the compiled
      code does, wrapping around at 32 bits ([iadd], [isub], [imul],
      [ineg], [iabs]); their properties are stated for the arguments that
      keep the arithmetic in range, and examples show what happens beyond.
      The other functions are given in exact integers, which describes
      their runs in which no signed operation overflows.
    - [uint8_t] and [uint32_t] values are integers of [Z] reduced modulo
      [2^8] and [2^32] where the program stores them.
    - [float] is IEEE 754 binary32: the operations of [SpecFloat] at
      precision 24 and maximal exponent 128, rounding to nearest even.
    - The framebuffer and the pixel grid of an image are lists of packed
      [0xAARRGGBB] words, read and written by index.
    - A function that loops, divides or goes through a pointer runs in the
      monad [exec], whose faults are a division by zero, a loop that is cut
      off, and an access outside of an allocated object.
    - [malloc] fails for a size that is negative as an [int], and succeeds
      otherwise: there is no limit on memory. *)

From Stdlib Require Import ZArith Lia Bool String Strings.Byte.
From Stdlib Require Import Floats.SpecFloat.
From stdpp Require Import base option list list_numbers.

Local Open Scope Z_scope.

(** ** Single precision floating point *)

Module F32.

Definition prec : Z := 24.
Definition emax : Z := 128.

Definition float : Type := spec_float.

Definition add : float -> float -> float := SFadd prec emax.
Definition sub : float -> float -> float := SFsub prec emax.
Definition mul : float -> float -> float := SFmul prec emax.
Definition div : float -> float -> float := SFdiv prec emax.
Definition sqrt : float -> float := SFsqrt prec emax.
Definition opp : float -> float := SFopp.
Definition eqb : float -> float -> bool := SFeqb.

(** [(float) z] for an [int] [z]. *)
Definition of_int (z : Z) : float := binary_normalize prec emax z 0 false.

Definition zero : float := S754_zero false.
Definition one : float := of_int 1.
(** The literal [0.5f]. *)
Definition half : float := S754_finite false 8388608 (-24).

Definition INT_MIN : Z := - 2 ^ 31.
Definition INT_MAX : Z := 2 ^ 31 - 1.

(** [(int) f]: the fraction is discarded.  A value that has no [int]
    (a NaN, an infinity, a magnitude out of range) converts to [INT_MIN],
    as the conversion instruction of x86 does. *)
Definition to_int (f : float) : Z :=
  match f with
  | S754_zero _ => 0
  | S754_finite s m e =>
      let mag := Z.shiftl (Zpos m) e in
      let v := if s then - mag else mag in
      if (v <? INT_MIN) || (INT_MAX <? v) then INT_MIN else v
  | S754_infinity _ | S754_nan => INT_MIN
  end.

Definition is_nan (f : float) : bool :=
  match f with S754_nan => true | _ => false end.

End F32.

Abbreviation float := F32.float.

(** ** The type [int] *)

(** An [int] has 32 bits.  Where an operation of the program can leave the
    range of [int] for arguments that the program can be given (the
    coordinates of a line, the squares of a thick line and of a filled
    circle, the sizes of a BMP header), it is written with the operations
    below, which wrap around as the compiled code does. *)
Definition wrap (z : Z) : Z := (z + 2 ^ 31) mod 2 ^ 32 - 2 ^ 31.

Definition iadd (a b : Z) : Z := wrap (a + b).
Definition isub (a b : Z) : Z := wrap (a - b).
Definition imul (a b : Z) : Z := wrap (a * b).
Definition ineg (a : Z) : Z := wrap (- a).
(** [abs]: [abs(INT_MIN)] is [INT_MIN]. *)
Definition iabs (a : Z) : Z := wrap (Z.abs a).

(** The values of [int]. *)
Definition is_int (z : Z) : Prop := - 2 ^ 31 <= z <= 2 ^ 31 - 1.

(** ** Faults and the monad of the drawing code *)

Inductive fault : Type :=
| DivideByZero   (* a division or a remainder whose divisor is zero *)
| OutOfFuel      (* a [while] loop cut off before its [break] *)
| InvalidAccess. (* a read or a write outside of an allocated object *)

Inductive exec (A : Type) : Type :=
| Ret (a : A)
| Fault (f : fault).
Arguments Ret {A} a.
Arguments Fault {A} f.

Definition bind {A B : Type} (m : exec A) (k : A -> exec B) : exec B :=
  match m with
  | Ret a => k a
  | Fault f => Fault f
  end.

Notation "x <- m ;; k" := (bind m (fun x => k))
  (at level 100, m at next level, right associativity).

(** [a / b] on floats, a fault when the divisor is a zero. *)
Definition fdiv_checked (a b : float) : exec float :=
  if F32.eqb b F32.zero then Fault DivideByZero else Ret (F32.div a b).

(** [a % b] on ints, a fault when the divisor is zero. *)
Definition rem_checked (a b : Z) : exec Z :=
  if b =? 0 then Fault DivideByZero else Ret (Z.rem a b).

(** [for (int i = lo; i < hi; i++) body], for a body that changes neither
    [i] nor the bounds: [count] iterations from [i]. *)
Fixpoint for_loop {S : Type} (count : nat) (i : Z) (body : Z -> S -> exec S)
    (s : S) : exec S :=
  match count with
  | O => Ret s
  | Datatypes.S count' => s' <- body i s ;; for_loop count' (i + 1) body s'
  end.

Definition for_range {S : Type} (lo hi : Z) (body : Z -> S -> exec S)
    (s : S) : exec S :=
  for_loop (Z.to_nat (hi - lo)) lo body s.

(** The same loop for a body that cannot fault. *)
Fixpoint iter_loop {S : Type} (count : nat) (i : Z) (body : Z -> S -> S)
    (s : S) : S :=
  match count with
  | O => s
  | Datatypes.S count' => iter_loop count' (i + 1) body (body i s)
  end.

Definition iter_range {S : Type} (lo hi : Z) (body : Z -> S -> S) (s : S) : S :=
  iter_loop (Z.to_nat (hi - lo)) lo body s.

(** ** Colors, pixels and the renderer *)

Record Color : Type := mkColor { r : Z; g : Z; b : Z; a : Z }.

Definition color_make (r g b a : Z) : Color := mkColor r g b a.

(** The part of [Renderer] the drawing code uses; the window handles of
    the platform layer are left out. *)
Record Renderer : Type := mkRenderer {
  framebuffer : list Z;
  width : Z;
  height : Z;
  is_running : bool
}.

(** The framebuffer of a renderer holds [width * height] pixels. *)
Definition renderer_ok (rend : Renderer) : Prop :=
  0 <= width rend /\ 0 <= height rend /\
  Z.of_nat (length (framebuffer rend)) = width rend * height rend.

Definition u8 (z : Z) : Z := z mod 256.
Definition u32 (z : Z) : Z := z mod 2 ^ 32.

(** [(a << 24) | (r << 16) | (g << 8) | b], stored in a [uint32_t]. *)
Definition pack_argb (a r g b : Z) : Z :=
  u32 (Z.lor (Z.lor (Z.lor (Z.shiftl a 24) (Z.shiftl r 16)) (Z.shiftl g 8)) b).

Definition pixel_a (pixel : Z) : Z := Z.land (Z.shiftr pixel 24) 255.
Definition pixel_r (pixel : Z) : Z := Z.land (Z.shiftr pixel 16) 255.
Definition pixel_g (pixel : Z) : Z := Z.land (Z.shiftr pixel 8) 255.
Definition pixel_b (pixel : Z) : Z := Z.land pixel 255.

(** [buf[i]] and [buf[i] = v] on a list of words. *)
Definition load (buf : list Z) (i : Z) : Z := default 0 (buf !! Z.to_nat i).
Definition store (buf : list Z) (i : Z) (v : Z) : list Z := <[Z.to_nat i := v]> buf.

Definition set_framebuffer (rend : Renderer) (fb : list Z) : Renderer :=
  mkRenderer fb (width rend) (height rend) (is_running rend).

(** [(uint8_t)(src * alpha + dst * (1 - alpha))] *)
Definition blend_channel (src dst : Z) (alpha : float) : Z :=
  u8 (F32.to_int
        (F32.add (F32.mul (F32.of_int src) alpha)
                 (F32.mul (F32.of_int dst) (F32.sub (F32.of_int 1) alpha)))).

Definition renderer_draw_pixel (rend : Renderer) (x y : Z) (color : Color)
    : Renderer :=
  if (x <? 0) || (x >=? width rend) || (y <? 0) || (y >=? height rend)
  then rend
  else
    let index := y * width rend + x in
    let pixel := load (framebuffer rend) index in
    if a color =? 255 then
      set_framebuffer rend
        (store (framebuffer rend) index
           (pack_argb (a color) (r color) (g color) (b color)))
    else
      let dst_r := pixel_r pixel in
      let dst_g := pixel_g pixel in
      let dst_b := pixel_b pixel in
      let alpha := F32.div (F32.of_int (a color)) (F32.of_int 255) in
      let r' := blend_channel (r color) dst_r alpha in
      let g' := blend_channel (g color) dst_g alpha in
      let b' := blend_channel (b color) dst_b alpha in
      set_framebuffer rend
        (store (framebuffer rend) index (pack_argb 255 r' g' b')).

(** The word [renderer_draw_pixel] writes over the word [pixel]. *)
Definition drawn_pixel (color : Color) (pixel : Z) : Z :=
  if a color =? 255 then pack_argb (a color) (r color) (g color) (b color)
  else
    let alpha := F32.div (F32.of_int (a color)) (F32.of_int 255) in
    pack_argb 255
      (blend_channel (r color) (pixel_r pixel) alpha)
      (blend_channel (g color) (pixel_g pixel) alpha)
      (blend_channel (b color) (pixel_b pixel) alpha).

(** The pixel the framebuffer holds at [(x, y)]. *)
Definition pixel_at (rend : Renderer) (x y : Z) : Z :=
  load (framebuffer rend) (y * width rend + x).

(** ** Lines *)

(** The [while (1)] loop of [renderer_draw_line], cut off after [fuel]
    iterations; [OutOfFuel] says that the loop has not reached its [break]
    within them. *)
Fixpoint line_loop (fuel : nat) (rend : Renderer)
    (x1 y1 x2 y2 dx dy sx sy err : Z) (color : Color) : exec Renderer :=
  match fuel with
  | O => Fault OutOfFuel
  | S fuel' =>
      let rend := renderer_draw_pixel rend x1 y1 color in
      if (x1 =? x2) && (y1 =? y2) then Ret rend
      else
        let e2 := imul 2 err in
        let '(err, x1) :=
          if e2 >? ineg dy then (isub err dy, iadd x1 sx) else (err, x1) in
        let '(err, y1) :=
          if e2 <? dx then (iadd err dx, iadd y1 sy) else (err, y1) in
        line_loop fuel' rend x1 y1 x2 y2 dx dy sx sy err color
  end.

(** Iterations within which the loop reaches its [break] on a line
    spanning [dx] by [dy], for endpoints in range. *)
Definition line_fuel (dx dy : Z) : nat := Z.to_nat (dx + dy + 1).

Definition renderer_draw_line (rend : Renderer) (x1 y1 x2 y2 : Z)
    (color : Color) : exec Renderer :=
  let dx := iabs (isub x2 x1) in
  let dy := iabs (isub y2 y1) in
  let sx := if x1 <? x2 then 1 else -1 in
  let sy := if y1 <? y2 then 1 else -1 in
  let err := isub dx dy in
  line_loop (line_fuel (Z.abs dx) (Z.abs dy)) rend x1 y1 x2 y2 dx dy sx sy err
    color.

(** The endpoints for which no operation of [renderer_draw_line] leaves the
    range of [int]: they are values of [int], at most [(2^31 - 1) / 3]
    apart on each axis, which keeps [2 * err] in range. *)
Definition line_in_range (x1 y1 x2 y2 : Z) : Prop :=
  is_int x1 /\ is_int y1 /\ is_int x2 /\ is_int y2 /\
  3 * Z.abs (x2 - x1) <= 2 ^ 31 - 1 /\ 3 * Z.abs (y2 - y1) <= 2 ^ 31 - 1.

(** Bresenham's path from [(x1, y1)] to [(x2, y2)] in exact integers, from
    the first pixel to the last: what the loop of [renderer_draw_line]
    passes to [renderer_draw_pixel] for endpoints in range. *)
Fixpoint bresenham_path (fuel : nat) (x1 y1 x2 y2 dx dy sx sy err : Z)
    : exec (list (Z * Z)) :=
  match fuel with
  | O => Fault OutOfFuel
  | S fuel' =>
      if (x1 =? x2) && (y1 =? y2) then Ret [(x1, y1)]
      else
        let e2 := 2 * err in
        let '(err, x1') :=
          if e2 >? - dy then (err - dy, x1 + sx) else (err, x1) in
        let '(err, y1') :=
          if e2 <? dx then (err + dx, y1 + sy) else (err, y1) in
        rest <- bresenham_path fuel' x1' y1' x2 y2 dx dy sx sy err ;;
        Ret ((x1, y1) :: rest)
  end.

Definition bresenham_pixels (x1 y1 x2 y2 : Z) : exec (list (Z * Z)) :=
  let dx := Z.abs (x2 - x1) in
  let dy := Z.abs (y2 - y1) in
  let sx := if x1 <? x2 then 1 else -1 in
  let sy := if y1 <? y2 then 1 else -1 in
  bresenham_path (line_fuel dx dy) x1 y1 x2 y2 dx dy sx sy (dx - dy).

(** [renderer_draw_pixel] on each pixel of a list, first to last. *)
Definition draw_pixels (rend : Renderer) (pixels : list (Z * Z))
    (color : Color) : Renderer :=
  fold_left (fun rend p => renderer_draw_pixel rend (fst p) (snd p) color)
    pixels rend.

(** The exact line has no tie: at no step along its longer axis does it
    pass midway between two pixels. *)
Definition tie_free (x1 y1 x2 y2 : Z) : Prop :=
  let dx := Z.abs (x2 - x1) in
  let dy := Z.abs (y2 - y1) in
  forall k, 0 < k < Z.max dx dy ->
    (2 * k * Z.min dx dy) mod (2 * Z.max dx dy) <> Z.max dx dy.

(** The steps that remain along the shorter axis, of span [m], when [k]
    steps remain along the longer axis, of span [M]. *)
Definition minor_steps (M m k : Z) : Z := (2 * k * m + M) / (2 * M).

(** [n], [n - 1], ..., [0]. *)
Fixpoint countdown (n : nat) : list Z :=
  match n with
  | O => [0]
  | S n' => Z.of_nat n :: countdown n'
  end.

(** The pixel of a line that is wider than high at [k] steps from its
    end. *)
Definition wide_pixel (x2 y2 dx dy sx sy k : Z) : Z * Z :=
  (x2 - sx * k, y2 - sy * minor_steps dx dy k).

Definition transpose (p : Z * Z) : Z * Z := (snd p, fst p).

(** One iteration of the loop of [renderer_draw_thick_line], at offset
    index [t]. *)
Definition thick_line_step (x1 y1 x2 y2 : Z) (color : Color) (t : Z)
    (rend : Renderer) : exec Renderer :=
  let dx := isub y2 y1 in
  let dy := isub x2 x1 in
  let len := F32.sqrt (F32.of_int (iadd (imul dx dx) (imul dy dy))) in
  if F32.eqb len (F32.of_int 0) then Ret rend
  else
    let ox := F32.to_int (F32.div (F32.of_int (imul t dx)) len) in
    let oy := F32.to_int (F32.div (F32.of_int (imul (ineg t) dy)) len) in
    renderer_draw_line rend (iadd x1 ox) (iadd y1 oy) (iadd x2 ox)
      (iadd y2 oy) color.

Definition renderer_draw_thick_line (rend : Renderer) (x1 y1 x2 y2 : Z)
    (thickness : Z) (color : Color) : exec Renderer :=
  for_range (Z.quot (ineg thickness) 2) (Z.quot thickness 2 + 1)
    (thick_line_step x1 y1 x2 y2 color) rend.

(** The arguments [(x1, y1, x2, y2)] of a call of [renderer_draw_line]. *)
Definition line_call : Type := Z * Z * Z * Z.

Definition draw_line_call (rend : Renderer) (c : line_call) (color : Color)
    : exec Renderer :=
  let '(x1, y1, x2, y2) := c in renderer_draw_line rend x1 y1 x2 y2 color.

Definition line_call_in_range (c : line_call) : Prop :=
  let '(x1, y1, x2, y2) := c in line_in_range x1 y1 x2 y2.

(** The calls of [renderer_draw_line] one iteration of the loop of
    [renderer_draw_thick_line] makes: none or one. *)
Definition thick_line_step_calls (x1 y1 x2 y2 : Z) (t : Z) : list line_call :=
  let dx := isub y2 y1 in
  let dy := isub x2 x1 in
  let len := F32.sqrt (F32.of_int (iadd (imul dx dx) (imul dy dy))) in
  if F32.eqb len (F32.of_int 0) then []
  else
    let ox := F32.to_int (F32.div (F32.of_int (imul t dx)) len) in
    let oy := F32.to_int (F32.div (F32.of_int (imul (ineg t) dy)) len) in
    [(iadd x1 ox, iadd y1 oy, iadd x2 ox, iadd y2 oy)].

(** The calls of [renderer_draw_line] that [renderer_draw_thick_line]
    makes, in order. *)
Definition thick_line_calls (x1 y1 x2 y2 thickness : Z) : list line_call :=
  concat (map (thick_line_step_calls x1 y1 x2 y2)
            (seqZ (Z.quot (ineg thickness) 2)
                  (Z.quot thickness 2 + 1 - Z.quot (ineg thickness) 2))).

(** The calls of a list made one after the other. *)
Fixpoint draw_line_calls (rend : Renderer) (calls : list line_call)
    (color : Color) : exec Renderer :=
  match calls with
  | [] => Ret rend
  | c :: calls' =>
      rend' <- draw_line_call rend c color ;;
      draw_line_calls rend' calls' color
  end.

(** The endpoints and thicknesses for which no operation of
    [renderer_draw_thick_line] leaves the range of [int]: the squared
    length of the line and the products of the offset index with the spans
    are values of [int]. *)
Definition thick_line_in_range (x1 y1 x2 y2 thickness : Z) : Prop :=
  is_int x1 /\ is_int y1 /\ is_int x2 /\ is_int y2 /\
  - 2 ^ 31 < thickness <= 2 ^ 31 - 1 /\
  (y2 - y1) * (y2 - y1) + (x2 - x1) * (x2 - x1) <= 2 ^ 31 - 1 /\
  Z.abs (Z.quot thickness 2 * (y2 - y1)) <= 2 ^ 31 - 1 /\
  Z.abs (Z.quot thickness 2 * (x2 - x1)) <= 2 ^ 31 - 1.

(** The line [(x1,y1)-(x2,y2)] moved along the perpendicular
    [(y2 - y1, - (x2 - x1))] of its direction by [t] units, each coordinate
    of the move cut to an integer and added to the endpoints as an
    [int]. *)
Definition offset_line (x1 y1 x2 y2 t : Z) : line_call :=
  let len := F32.sqrt (F32.of_int ((y2 - y1) * (y2 - y1) + (x2 - x1) * (x2 - x1))) in
  let ox := F32.to_int (F32.div (F32.of_int (t * (y2 - y1))) len) in
  let oy := F32.to_int (F32.div (F32.of_int (- t * (x2 - x1))) len) in
  (iadd x1 ox, iadd y1 oy, iadd x2 ox, iadd y2 oy).

(** ** Filled triangles *)

Definition renderer_draw_filled_triangle (rend : Renderer)
    (x1 y1 x2 y2 x3 y3 : Z) (color : Color) : exec Renderer :=
  let '(x1, y1, x2, y2) :=
    if y1 >? y2 then (x2, y2, x1, y1) else (x1, y1, x2, y2) in
  let '(x1, y1, x3, y3) :=
    if y1 >? y3 then (x3, y3, x1, y1) else (x1, y1, x3, y3) in
  let '(x2, y2, x3, y3) :=
    if y2 >? y3 then (x3, y3, x2, y2) else (x2, y2, x3, y3) in
  let total_height := y3 - y1 in
  if total_height =? 0 then Ret rend
  else
    for_range y1 (y3 + 1)
      (fun y rend =>
         let second_half := (y >? y2) || (y2 =? y1) in
         let segment_height := if second_half then y3 - y2 else y2 - y1 in
         if segment_height =? 0 then Ret rend
         else
           alpha <- fdiv_checked (F32.of_int (y - y1))
                      (F32.of_int total_height) ;;
           beta <- fdiv_checked
                     (F32.of_int (y - (if second_half then y2 else y1)))
                     (F32.of_int segment_height) ;;
           let xa :=
             F32.to_int (F32.add (F32.of_int x1)
                           (F32.mul (F32.of_int (x3 - x1)) alpha)) in
           let xb :=
             if second_half
             then F32.to_int (F32.add (F32.of_int x2)
                                (F32.mul (F32.of_int (x3 - x2)) beta))
             else F32.to_int (F32.add (F32.of_int x1)
                                (F32.mul (F32.of_int (x2 - x1)) beta)) in
           let '(xa, xb) := if xa >? xb then (xb, xa) else (xa, xb) in
           Ret (iter_range xa (xb + 1)
                  (fun x rend => renderer_draw_pixel rend x y color) rend))
      rend.

(** ** Vectors, matrices and the projection to the screen *)

Record Vec3 : Type := mkVec3 { x : float; y : float; z : float }.

Record Mat4 : Type := mkMat4 { m : nat -> nat -> float }.

Definition vec3_make (x y z : float) : Vec3 := mkVec3 x y z.

Definition vec3_normalize (v : Vec3) : exec Vec3 :=
  let len :=
    F32.sqrt (F32.add (F32.add (F32.mul (x v) (x v)) (F32.mul (y v) (y v)))
                (F32.mul (z v) (z v))) in
  if F32.eqb len (F32.of_int 0)
  then Ret (vec3_make (F32.of_int 0) (F32.of_int 0) (F32.of_int 0))
  else
    x' <- fdiv_checked (x v) len ;;
    y' <- fdiv_checked (y v) len ;;
    z' <- fdiv_checked (z v) len ;;
    Ret (vec3_make x' y' z').

(** [Mat4 m = {0}] and [m.m[i][j] = v]. *)
Definition mat4_zero : Mat4 := mkMat4 (fun _ _ => F32.zero).

Definition mat4_set (mat : Mat4) (i j : nat) (v : float) : Mat4 :=
  mkMat4 (fun i' j' =>
            if Nat.eqb i' i && Nat.eqb j' j then v else m mat i' j').

Definition mat4_identity : Mat4 :=
  mat4_set (mat4_set (mat4_set (mat4_set mat4_zero 3 3 F32.one) 2 2 F32.one)
              1 1 F32.one) 0 0 F32.one.

Definition mat4_mul_vec3 (mat : Mat4) (v : Vec3) (w : float) : Vec3 :=
  let row (j : nat) : float :=
    F32.add (F32.add (F32.add (F32.mul (m mat 0 j) (x v))
                        (F32.mul (m mat 1 j) (y v)))
               (F32.mul (m mat 2 j) (z v)))
      (F32.mul (m mat 3 j) w) in
  let ww := row 3%nat in
  if negb (F32.eqb ww (F32.of_int 0))
  then mkVec3 (F32.div (row 0%nat) ww) (F32.div (row 1%nat) ww)
         (F32.div (row 2%nat) ww)
  else mkVec3 (row 0%nat) (row 1%nat) (row 2%nat).

(** [renderer_project_point] returns what it writes to [*x], [*y] and
    [*depth]. *)
Definition renderer_project_point (rend : Renderer) (point : Vec3)
    (transform : Mat4) : Z * Z * float :=
  let projected := mat4_mul_vec3 transform point F32.one in
  let sx :=
    F32.to_int
      (F32.mul (F32.mul (F32.add (x projected) F32.one) F32.half)
         (F32.of_int (width rend))) in
  let sy :=
    F32.to_int
      (F32.mul (F32.mul (F32.sub F32.one (y projected)) F32.half)
         (F32.of_int (height rend))) in
  (sx, sy, z projected).

(** ** Images *)

Record Image : Type := mkImage {
  img_width : Z;
  img_height : Z;
  pixels : list Z
}.

Definition pixel_color (pixel : Z) : Color :=
  mkColor (pixel_r pixel) (pixel_g pixel) (pixel_b pixel) (pixel_a pixel).

(** An [Image*] is [None] when it is the null pointer. *)
Definition renderer_draw_image (rend : Renderer) (img : option Image)
    (x y : Z) : Renderer :=
  match img with
  | None => rend
  | Some img =>
      iter_range 0 (img_height img)
        (fun j rend =>
           iter_range 0 (img_width img)
             (fun i rend =>
                let pixel := load (pixels img) (j * img_width img + i) in
                renderer_draw_pixel rend (x + i) (y + j) (pixel_color pixel))
             rend)
        rend
  end.

Definition renderer_draw_textured_triangle (rend : Renderer)
    (x1 y1 x2 y2 x3 y3 : Z) (u1 v1 u2 v2 u3 v3 : float)
    (texture : option Image) : exec Renderer :=
  match texture with
  | None => Ret rend
  | Some texture =>
      let '(x1, y1, u1, v1, x2, y2, u2, v2) :=
        if y1 >? y2 then (x2, y2, u2, v2, x1, y1, u1, v1)
        else (x1, y1, u1, v1, x2, y2, u2, v2) in
      let '(x1, y1, u1, v1, x3, y3, u3, v3) :=
        if y1 >? y3 then (x3, y3, u3, v3, x1, y1, u1, v1)
        else (x1, y1, u1, v1, x3, y3, u3, v3) in
      let '(x2, y2, u2, v2, x3, y3, u3, v3) :=
        if y2 >? y3 then (x3, y3, u3, v3, x2, y2, u2, v2)
        else (x2, y2, u2, v2, x3, y3, u3, v3) in
      let total_height := y3 - y1 in
      if total_height =? 0 then Ret rend
      else
        for_range y1 (y3 + 1)
          (fun y rend =>
             let second_half := (y >? y2) || (y2 =? y1) in
             let segment_height := if second_half then y3 - y2 else y2 - y1 in
             if segment_height =? 0 then Ret rend
             else
               alpha <- fdiv_checked (F32.of_int (y - y1))
                          (F32.of_int total_height) ;;
               beta <- fdiv_checked
                         (F32.of_int (y - (if second_half then y2 else y1)))
                         (F32.of_int segment_height) ;;
               let lerp (p q : float) (t : float) : float :=
                 F32.add p (F32.mul (F32.sub q p) t) in
               let lerp_int (p q : Z) (t : float) : Z :=
                 F32.to_int (F32.add (F32.of_int p)
                               (F32.mul (F32.of_int (q - p)) t)) in
               let xa := lerp_int x1 x3 alpha in
               let xb :=
                 if second_half then lerp_int x2 x3 beta
                 else lerp_int x1 x2 beta in
               let ua := lerp u1 u3 alpha in
               let va := lerp v1 v3 alpha in
               let ub := if second_half then lerp u2 u3 beta
                         else lerp u1 u2 beta in
               let vb := if second_half then lerp v2 v3 beta
                         else lerp v1 v2 beta in
               let '(xa, xb, ua, ub, va, vb) :=
                 if xa >? xb then (xb, xa, ub, ua, vb, va)
                 else (xa, xb, ua, ub, va, vb) in
               for_range xa (xb + 1)
                 (fun x rend =>
                    t <- (if xb - xa >? 0
                          then fdiv_checked (F32.of_int (x - xa))
                                 (F32.of_int (xb - xa))
                          else Ret (F32.of_int 0)) ;;
                    let u := lerp ua ub t in
                    let v := lerp va vb t in
                    tex_x <- rem_checked
                               (F32.to_int
                                  (F32.mul u (F32.of_int (img_width texture))))
                               (img_width texture) ;;
                    tex_y <- rem_checked
                               (F32.to_int
                                  (F32.mul v (F32.of_int (img_height texture))))
                               (img_height texture) ;;
                    let tex_x :=
                      if tex_x <? 0 then tex_x + img_width texture else tex_x in
                    let tex_y :=
                      if tex_y <? 0 then tex_y + img_height texture else tex_y in
                    let pixel :=
                      load (pixels texture)
                        (tex_y * img_width texture + tex_x) in
                    Ret (renderer_draw_pixel rend x y (pixel_color pixel)))
                 rend)
          rend
  end.

(** ** The BMP decoder *)

Definition byte_val (c : byte) : Z := Z.of_N (Byte.to_N c).

(** What [fopen(filename, "rb")] finds: the bytes of the file, [None] when
    the file cannot be opened. *)
Definition filesystem : Type := string -> option (list byte).

(** What storage holds before the program writes to it: the [header] array
    on the stack, the [row] buffer and the pixel grid from [malloc]. *)
Record garbage : Type := mkGarbage {
  stack_header : nat -> byte;
  heap_row : nat -> byte;
  heap_pixels : nat -> Z
}.

Definition uninit {A : Type} (content : nat -> A) (n : nat) : list A :=
  map content (seq 0 n).

(** [fread(buf, 1, n, file)] for a buffer of at least [n] bytes: the next
    bytes of the file, [n] of them or as many as are left, replace the front
    of the buffer.  Returns the buffer and the rest of the file. *)
Definition fread (buf : list byte) (n : nat) (file : list byte)
    : list byte * list byte :=
  let got := take n file in
  (got ++ drop (length got) buf, drop n file).

(** [buf[i]] for a buffer of [uint8_t]. *)
Definition byte_at (buf : list byte) (i : Z) : Z :=
  byte_val (default Byte.x00 (buf !! Z.to_nat i)).

(** [*(int* )&buf[off]] and [*(short* )&buf[off]] on a little endian
    machine. *)
Definition read_int32 (buf : list byte) (off : Z) : Z :=
  let u := byte_at buf off + 2 ^ 8 * byte_at buf (off + 1)
           + 2 ^ 16 * byte_at buf (off + 2) + 2 ^ 24 * byte_at buf (off + 3) in
  if u <? 2 ^ 31 then u else u - 2 ^ 32.

Definition read_int16 (buf : list byte) (off : Z) : Z :=
  let u := byte_at buf off + 2 ^ 8 * byte_at buf (off + 1) in
  if u <? 2 ^ 15 then u else u - 2 ^ 16.

(** The [header] array after [fread(header, 1, 54, file)], and the rest of
    the file. *)
Definition bmp_header (mem : garbage) (content : list byte)
    : list byte * list byte :=
  fread (uninit (stack_header mem) 54) 54 content.

(** [malloc] of [count] elements, [count] an [int]: a negative [int] is, as a
    [size_t], more than any address space and the allocation fails with the
    null pointer, [None]; any other allocation succeeds, the model has no
    memory limit.  The storage holds whatever [content] was there. *)
Definition malloc {A : Type} (content : nat -> A) (count : Z)
    : option (list A) :=
  if count <? 0 then None else Some (uninit content (Z.to_nat count)).

(** [buf[i]] read through a pointer: an access through the null pointer or
    outside the allocation is invalid. *)
Definition read_byte (buf : option (list byte)) (i : Z) : exec Z :=
  match buf with
  | Some b =>
      if (0 <=? i) && (i <? Z.of_nat (length b)) then Ret (byte_at b i)
      else Fault InvalidAccess
  | None => Fault InvalidAccess
  end.

(** [buf[i] = v] through a pointer to [uint32_t]. *)
Definition write_word (buf : option (list Z)) (i v : Z)
    : exec (option (list Z)) :=
  match buf with
  | Some p =>
      if (0 <=? i) && (i <? Z.of_nat (length p)) then Ret (Some (store p i v))
      else Fault InvalidAccess
  | None => Fault InvalidAccess
  end.

(** [fread(row, 1, row_size, file)] through the pointer [row].  The buffer
    holds [row_size] bytes when it was allocated; the null pointer comes
    from a negative [row_size], which as a [size_t] asks for all that is
    left of the file: storing a first byte is then invalid. *)
Definition fread_row (row : option (list byte)) (row_size : Z)
    (file : list byte) : exec (option (list byte) * list byte) :=
  match row with
  | Some buf =>
      let '(buf, file) := fread buf (Z.to_nat row_size) file in
      Ret (Some buf, file)
  | None =>
      match file with
      | [] => Ret (None, [])
      | _ :: _ => Fault InvalidAccess
      end
  end.

(** [((bits_per_pixel * width + 31) / 32) * 4] in [int]. *)
Definition bmp_row_size (bits_per_pixel width : Z) : Z :=
  imul (Z.quot (iadd (imul bits_per_pixel width) 31) 32) 4.

(** The body of the loop over [x] in [image_load_bmp]. *)
Definition bmp_decode_pixel (height img_width img_height bits_per_pixel : Z)
    (row : option (list byte)) (y x : Z) (pixels : option (list Z))
    : exec (option (list Z)) :=
  let pixel_index :=
    if height >? 0
    then iadd (imul (isub (isub img_height 1) y) img_width) x
    else iadd (imul y img_width) x in
  b <- read_byte row (iadd (imul x (Z.quot bits_per_pixel 8)) 0) ;;
  g <- read_byte row (iadd (imul x (Z.quot bits_per_pixel 8)) 1) ;;
  r <- read_byte row (iadd (imul x (Z.quot bits_per_pixel 8)) 2) ;;
  a <- (if bits_per_pixel =? 32 then read_byte row (iadd (imul x 4) 3)
        else Ret 255) ;;
  write_word pixels pixel_index (pack_argb a r g b).

(** The body of the loop over [y]: the state is the rest of the file, the
    [row] buffer and the pixel grid. *)
Definition bmp_decode_row (height img_width img_height bits_per_pixel : Z)
    (row_size : Z) (y : Z)
    (st : list byte * option (list byte) * option (list Z))
    : exec (list byte * option (list byte) * option (list Z)) :=
  let '(file, row, pixels) := st in
  read <- fread_row row row_size file ;;
  let '(row, file) := read in
  pixels <- for_range 0 img_width
              (bmp_decode_pixel height img_width img_height bits_per_pixel
                 row y)
              pixels ;;
  Ret (file, row, pixels).

(** [image_load_bmp]: [Ret None] is the null pointer.  The [Image] that is
    returned holds its grid as a list: the empty list when [pixels] is the
    null pointer.  [abs(height)] is [height] itself at the least [int]. *)
Definition image_load_bmp (fs : filesystem) (mem : garbage)
    (filename : string) : exec (option Image) :=
  match fs filename with
  | None => Ret None
  | Some content =>
      let '(header, file) := bmp_header mem content in
      if negb (byte_at header 0 =? 66) || negb (byte_at header 1 =? 77)
      then Ret None
      else
        let width := read_int32 header 18 in
        let height := read_int32 header 22 in
        let bits_per_pixel := read_int16 header 28 in
        if negb (bits_per_pixel =? 24) && negb (bits_per_pixel =? 32)
        then Ret None
        else
          let img_width := width in
          let img_height := iabs height in
          let pixels := malloc (heap_pixels mem) (imul img_width img_height) in
          let row_size := bmp_row_size bits_per_pixel width in
          let row := malloc (heap_row mem) row_size in
          st <- for_range 0 img_height
                  (bmp_decode_row height img_width img_height bits_per_pixel
                     row_size)
                  (file, row, pixels) ;;
          let '(_, _, pixels) := st in
          Ret (Some (mkImage img_width img_height (default [] pixels)))
  end.

(** The sizes of a header for which the arithmetic of [image_load_bmp]
    stays inside [int]: a width that is not negative, a height other than
    the least [int], and a pixel count and a row size in bits that fit. *)
Definition bmp_sizes_fit (width height bits_per_pixel : Z) : Prop :=
  0 <= width /\ - 2 ^ 31 < height <= 2 ^ 31 - 1 /\
  width * Z.abs height <= 2 ^ 31 - 1 /\
  bits_per_pixel * width + 31 <= 2 ^ 31 - 1.

(** The word decoded from the three bytes of column [x] of a 24 bit row. *)
Definition row_pixel (row : list byte) (x : Z) : Z :=
  pack_argb 255 (byte_at row (x * 3 + 2)) (byte_at row (x * 3 + 1))
    (byte_at row (x * 3 + 0)).

(** The word decoded from column [x] of row [r] of the file. *)
Definition data_pixel (data : list byte) (row_size r x : Z) : Z :=
  pack_argb 255 (byte_at data (r * row_size + x * 3 + 2))
    (byte_at data (r * row_size + x * 3 + 1))
    (byte_at data (r * row_size + x * 3 + 0)).


(** The known 2x2 picture: red and green in the top row, blue and white in
    the bottom row; the file stores the bottom row first and pads each row
    of 6 bytes to 8. *)
Definition bytes_of (l : list Z) : list byte :=
  map (fun v => default Byte.x00 (Byte.of_N (Z.to_N v))) l.

Definition corners_header : list byte :=
  bytes_of [66; 77; 70; 0; 0; 0; 0; 0; 0; 0; 54; 0; 0; 0;
            40; 0; 0; 0; 2; 0; 0; 0; 2; 0; 0; 0; 1; 0; 24; 0;
            0; 0; 0; 0; 16; 0; 0; 0; 19; 11; 0; 0; 19; 11; 0; 0;
            0; 0; 0; 0; 0; 0; 0; 0].

Definition corners_data : list byte :=
  bytes_of [255; 0; 0;  255; 255; 255;  0; 0;
            0; 0; 255;  0; 255; 0;  0; 0].

Definition corners_fs : filesystem :=
  fun name => if String.eqb name "corners.bmp"
              then Some (corners_header ++ corners_data) else None.

Definition no_garbage : garbage :=
  mkGarbage (fun _ => Byte.x00) (fun _ => Byte.x00) (fun _ => 0).

(** A 3x2 renderer cleared to opaque black. *)
Definition sample_renderer : Renderer :=
  mkRenderer (replicate 6 4278190080) 3 2 true.

(** ** The rest of the 2D rasterizer *)

(** A call of [renderer_draw_pixel]: the position and the color. *)
Definition plot : Type := Z * Z * Color.

Definition draw_plot (rend : Renderer) (p : plot) : Renderer :=
  let '(px, py, color) := p in renderer_draw_pixel rend px py color.

(** The calls of a list made one after the other. *)
Definition draw_plots (rend : Renderer) (plots : list plot) : Renderer :=
  fold_left draw_plot plots rend.

Definition renderer_clear (rend : Renderer) (color : Color) : Renderer :=
  let pixel := pack_argb (a color) (r color) (g color) (b color) in
  set_framebuffer rend
    (iter_range 0 (width rend * height rend)
       (fun i fb => store fb i pixel) (framebuffer rend)).

Definition renderer_draw_rect (rend : Renderer) (x y w h : Z) (color : Color)
    : Renderer :=
  let rend :=
    iter_range 0 w
      (fun i rend =>
         let rend := renderer_draw_pixel rend (x + i) y color in
         renderer_draw_pixel rend (x + i) (y + h - 1) color)
      rend in
  iter_range 0 h
    (fun i rend =>
       let rend := renderer_draw_pixel rend x (y + i) color in
       renderer_draw_pixel rend (x + w - 1) (y + i) color)
    rend.

Definition renderer_draw_filled_rect (rend : Renderer) (x y w h : Z)
    (color : Color) : Renderer :=
  iter_range 0 h
    (fun j rend =>
       iter_range 0 w
         (fun i rend => renderer_draw_pixel rend (x + i) (y + j) color) rend)
    rend.

(** The squares and the sums are those of [int].  The loops run while the
    counter is at most [radius]: for a [radius] below the greatest [int]
    that is up to [radius + 1]; at the greatest [int] the loops of the
    program do not end, and the model is not of that radius. *)
Definition renderer_draw_filled_circle (rend : Renderer) (cx cy radius : Z)
    (color : Color) : Renderer :=
  iter_range (ineg radius) (radius + 1)
    (fun y rend =>
       iter_range (ineg radius) (radius + 1)
         (fun x rend =>
            if iadd (imul x x) (imul y y) <=? imul radius radius
            then renderer_draw_pixel rend (iadd cx x) (iadd cy y) color
            else rend)
         rend)
    rend.

(** The circles whose squares fit an [int] and whose bounding square has
    [int] coordinates. *)
Definition filled_circle_in_range (cx cy radius : Z) : Prop :=
  - 2 ^ 31 < radius <= 32767 /\
  is_int (cx - radius) /\ is_int (cx + radius) /\
  is_int (cy - radius) /\ is_int (cy + radius).





Definition renderer_draw_triangle (rend : Renderer) (x1 y1 x2 y2 x3 y3 : Z)
    (color : Color) : exec Renderer :=
  rend <- renderer_draw_line rend x1 y1 x2 y2 color ;;
  rend <- renderer_draw_line rend x2 y2 x3 y3 color ;;
  renderer_draw_line rend x3 y3 x1 y1 color.

(** The pixels [renderer_draw_filled_rect] passes to [renderer_draw_pixel],
    in the order of the calls. *)
Definition filled_rect_pixels (x y w h : Z) : list (Z * Z) :=
  concat (map (fun j => map (fun i => (x + i, y + j)) (seqZ 0 w)) (seqZ 0 h)).

Definition rect_pixels (x y w h : Z) : list (Z * Z) :=
  concat (map (fun i => [(x + i, y); (x + i, y + h - 1)]) (seqZ 0 w)) ++
  concat (map (fun i => [(x, y + i); (x + w - 1, y + i)]) (seqZ 0 h)).

Definition filled_circle_pixels (cx cy radius : Z) : list (Z * Z) :=
  concat
    (map (fun y =>
            concat
              (map (fun x =>
                      if iadd (imul x x) (imul y y) <=? imul radius radius
                      then [(iadd cx x, iadd cy y)] else [])
                 (seqZ (ineg radius) (radius + 1 - ineg radius))))
       (seqZ (ineg radius) (radius + 1 - ineg radius))).


(** What a renderer keeps through every drawing call: its size, its
    running flag and the length of its framebuffer. *)
Definition same_shape (rend rend' : Renderer) : Prop :=
  width rend' = width rend /\ height rend' = height rend /\
  is_running rend' = is_running rend /\
  length (framebuffer rend') = length (framebuffer rend).


(** The positions [renderer_draw_rect] draws: the rows [y] and [y + h - 1]
    over the columns of the first loop, the columns [x] and [x + w - 1]
    over the rows of the second. *)
Definition on_rect_outline (x y w h px py : Z) : Prop :=
  (x <= px < x + w /\ (py = y \/ py = y + h - 1)) \/
  (y <= py < y + h /\ (px = x \/ px = x + w - 1)).


(** Two pixels that touch: different, and at most one apart on each axis. *)
Definition adjacent (p q : Z * Z) : Prop :=
  p <> q /\ Z.abs (fst q - fst p) <= 1 /\ Z.abs (snd q - snd p) <= 1.

(** Each pixel of the list touches the next one. *)
Fixpoint connected (path : list (Z * Z)) : Prop :=
  match path with
  | p :: (q :: _) as rest => adjacent p q /\ connected rest
  | _ => True
  end.

(** ** Colors *)

Definition color_blend (src dst : Color) : Color :=
  let alpha := F32.div (F32.of_int (a src)) (F32.of_int 255) in
  mkColor (blend_channel (r src) (r dst) alpha)
    (blend_channel (g src) (g dst) alpha)
    (blend_channel (b src) (b dst) alpha)
    255.

(** The fields of a [Color] are bytes. *)
Definition color_ok (c : Color) : Prop :=
  0 <= r c < 256 /\ 0 <= g c < 256 /\ 0 <= b c < 256 /\ 0 <= a c < 256.

(** ** More on images *)

(** The pixel grid of an image holds [img_width * img_height] words of 32
    bits. *)
Definition image_ok (img : Image) : Prop :=
  0 <= img_width img /\ 0 <= img_height img /\
  Z.of_nat (length (pixels img)) = img_width img * img_height img /\
  forall i, 0 <= i < img_width img * img_height img ->
    0 <= load (pixels img) i < 2 ^ 32.

(** The word of an image at column [i] of row [j]. *)
Definition image_at (img : Image) (i j : Z) : Z :=
  load (pixels img) (j * img_width img + i).

(** The calls of [renderer_draw_pixel] that [renderer_draw_image] makes. *)
Definition image_plots (img : Image) (x y : Z) : list plot :=
  concat
    (map (fun j =>
            map (fun i => (x + i, y + j, pixel_color (image_at img i j)))
              (seqZ 0 (img_width img)))
       (seqZ 0 (img_height img))).

(** [(uint8_t)(channel * (tint / 255.0f))] *)
Definition tint_channel (channel tint : Z) : Z :=
  u8 (F32.to_int
        (F32.mul (F32.of_int channel)
           (F32.div (F32.of_int tint) (F32.of_int 255)))).

Definition renderer_apply_tint (rend : Renderer) (img : option Image)
    (x y : Z) (tint : Color) : Renderer :=
  match img with
  | None => rend
  | Some img =>
      iter_range 0 (img_height img)
        (fun j rend =>
           iter_range 0 (img_width img)
             (fun i rend =>
                let pixel := load (pixels img) (j * img_width img + i) in
                let color :=
                  mkColor (tint_channel (pixel_r pixel) (r tint))
                    (tint_channel (pixel_g pixel) (g tint))
                    (tint_channel (pixel_b pixel) (b tint))
                    (pixel_a pixel) in
                renderer_draw_pixel rend (x + i) (y + j) color)
             rend)
        rend
  end.

(** The known 2x2 picture, decoded. *)
Definition corners_image : Image :=
  mkImage 2 2 [4294901760; 4278255360; 4278190335; 4294967295].

(** ** More on the BMP decoder *)

(** Where [image_load_bmp] stores column [x] of row [y] of the file: rows
    are flipped when the height of the header is positive. *)
Definition bmp_index (height img_width img_height y x : Z) : Z :=
  if height >? 0 then (img_height - 1 - y) * img_width + x
  else y * img_width + x.

(** The word decoded from column [x] of a row buffer. *)
Definition bmp_word (bits_per_pixel : Z) (row : list byte) (x : Z) : Z :=
  pack_argb (if bits_per_pixel =? 32 then byte_at row (x * 4 + 3) else 255)
    (byte_at row (x * Z.quot bits_per_pixel 8 + 2))
    (byte_at row (x * Z.quot bits_per_pixel 8 + 1))
    (byte_at row (x * Z.quot bits_per_pixel 8 + 0)).

(** A BMP of 24 or 32 bits per pixel: the 54 bytes of the two headers,
    then the rows of [data]; the height of the header may be negative, and
    the sizes stay inside [int]. *)
Definition bmp_file (header data : list byte) (width height bpp : Z) : Prop :=
  length header = 54%nat /\
  byte_at header 0 = 66 /\ byte_at header 1 = 77 /\
  read_int32 header 18 = width /\ read_int32 header 22 = height /\
  read_int16 header 28 = bpp /\
  (bpp = 24 \/ bpp = 32) /\
  0 < width /\
  bmp_sizes_fit width height bpp /\
  bmp_row_size bpp width * Z.abs height <= Z.of_nat (length data).

(** A 2x2 picture of 32 bits per pixel stored top row first (header height
    -2): half transparent red and green, then blue and transparent white. *)
Definition flipped_header : list byte :=
  bytes_of [66; 77; 70; 0; 0; 0; 0; 0; 0; 0; 54; 0; 0; 0;
            40; 0; 0; 0; 2; 0; 0; 0; 254; 255; 255; 255; 1; 0; 32; 0;
            0; 0; 0; 0; 16; 0; 0; 0; 19; 11; 0; 0; 19; 11; 0; 0;
            0; 0; 0; 0; 0; 0; 0; 0].

Definition flipped_data : list byte :=
  bytes_of [0; 0; 255; 128;  0; 255; 0; 255;
            255; 0; 0; 255;  255; 255; 255; 0].

Definition flipped_fs : filesystem :=
  fun name => if String.eqb name "flipped.bmp"
              then Some (flipped_header ++ flipped_data) else None.


(** Two headers of 24 bits per pixel without any row after them: one of
    65536 by 65536 pixels, whose pixel count is [2 ^ 32], and one of width 1
    whose height is the least [int]. *)
Definition huge_header : list byte :=
  bytes_of [66; 77; 54; 0; 0; 0; 0; 0; 0; 0; 54; 0; 0; 0;
            40; 0; 0; 0; 0; 0; 1; 0; 0; 0; 1; 0; 1; 0; 24; 0;
            0; 0; 0; 0; 0; 0; 0; 0; 19; 11; 0; 0; 19; 11; 0; 0;
            0; 0; 0; 0; 0; 0; 0; 0].

Definition least_height_header : list byte :=
  bytes_of [66; 77; 54; 0; 0; 0; 0; 0; 0; 0; 54; 0; 0; 0;
            40; 0; 0; 0; 1; 0; 0; 0; 0; 0; 0; 128; 1; 0; 24; 0;
            0; 0; 0; 0; 0; 0; 0; 0; 19; 11; 0; 0; 19; 11; 0; 0;
            0; 0; 0; 0; 0; 0; 0; 0].
(** ** Gradients *)

(** [(uint8_t)(c1 + (c2 - c1) * t)] *)
Definition gradient_channel (c1 c2 : Z) (t : float) : Z :=
  u8 (F32.to_int
        (F32.add (F32.of_int c1) (F32.mul (F32.of_int (c2 - c1)) t))).

Definition gradient_color (c1 c2 : Color) (t : float) : Color :=
  mkColor (gradient_channel (r c1) (r c2) t)
    (gradient_channel (g c1) (g c2) t)
    (gradient_channel (b c1) (b c2) t)
    255.

Definition renderer_draw_gradient_rect (rend : Renderer) (x y w h : Z)
    (c1 c2 : Color) (vertical : bool) : exec Renderer :=
  for_range 0 h
    (fun j rend =>
       for_range 0 w
         (fun i rend =>
            t <- (if vertical
                  then fdiv_checked (F32.of_int j) (F32.of_int h)
                  else fdiv_checked (F32.of_int i) (F32.of_int w)) ;;
            Ret (renderer_draw_pixel rend (x + i) (y + j)
                   (gradient_color c1 c2 t)))
         rend)
    rend.

(** The calls of [renderer_draw_pixel] that [renderer_draw_gradient_rect]
    makes. *)
Definition gradient_plots (x y w h : Z) (c1 c2 : Color) (vertical : bool)
    : list plot :=
  concat
    (map (fun j =>
            map (fun i =>
                   (x + i, y + j,
                    gradient_color c1 c2
                      (if vertical
                       then F32.div (F32.of_int j) (F32.of_int h)
                       else F32.div (F32.of_int i) (F32.of_int w))))
              (seqZ 0 w))
       (seqZ 0 h)).

(** ** Text *)

(** The table [font_data]: for each of the 128 characters the 8 rows of its
    glyph, top row first; bit [col] of a row is the pixel of column [col]. *)
Definition font_data : list (list Z) :=
  [[0; 0; 0; 0; 0; 0; 0; 0];
   [0; 0; 0; 0; 0; 0; 0; 0];
   [0; 0; 0; 0; 0; 0; 0; 0];
   [0; 0; 0; 0; 0; 0; 0; 0];
   [0; 0; 0; 0; 0; 0; 0; 0];
   [0; 0; 0; 0; 0; 0; 0; 0];
   [0; 0; 0; 0; 0; 0; 0; 0];
   [0; 0; 0; 0; 0; 0; 0; 0];
   [0; 0; 0; 0; 0; 0; 0; 0];
   [0; 0; 0; 0; 0; 0; 0; 0];
   [0; 0; 0; 0; 0; 0; 0; 0];
   [0; 0; 0; 0; 0; 0; 0; 0];
   [0; 0; 0; 0; 0; 0; 0; 0];
   [0; 0; 0; 0; 0; 0; 0; 0];
   [0; 0; 0; 0; 0; 0; 0; 0];
   [0; 0; 0; 0; 0; 0; 0; 0];
   [0; 0; 0; 0; 0; 0; 0; 0];
   [0; 0; 0; 0; 0; 0; 0; 0];
   [0; 0; 0; 0; 0; 0; 0; 0];
   [0; 0; 0; 0; 0; 0; 0; 0];
   [0; 0; 0; 0; 0; 0; 0; 0];
   [0; 0; 0; 0; 0; 0; 0; 0];
   [0; 0; 0; 0; 0; 0; 0; 0];
   [0; 0; 0; 0; 0; 0; 0; 0];
   [0; 0; 0; 0; 0; 0; 0; 0];
   [0; 0; 0; 0; 0; 0; 0; 0];
   [0; 0; 0; 0; 0; 0; 0; 0];
   [0; 0; 0; 0; 0; 0; 0; 0];
   [0; 0; 0; 0; 0; 0; 0; 0];
   [0; 0; 0; 0; 0; 0; 0; 0];
   [0; 0; 0; 0; 0; 0; 0; 0];
   [0; 0; 0; 0; 0; 0; 0; 0];
   [0; 0; 0; 0; 0; 0; 0; 0];
   [24; 60; 60; 24; 24; 0; 24; 0];
   [54; 54; 0; 0; 0; 0; 0; 0];
   [54; 54; 127; 54; 127; 54; 54; 0];
   [12; 62; 3; 30; 48; 31; 12; 0];
   [0; 99; 51; 24; 12; 102; 99; 0];
   [28; 54; 28; 110; 59; 51; 110; 0];
   [6; 6; 3; 0; 0; 0; 0; 0];
   [24; 12; 6; 6; 6; 12; 24; 0];
   [6; 12; 24; 24; 24; 12; 6; 0];
   [0; 102; 60; 255; 60; 102; 0; 0];
   [0; 12; 12; 63; 12; 12; 0; 0];
   [0; 0; 0; 0; 0; 12; 12; 6];
   [0; 0; 0; 63; 0; 0; 0; 0];
   [0; 0; 0; 0; 0; 12; 12; 0];
   [96; 48; 24; 12; 6; 3; 1; 0];
   [62; 99; 115; 123; 111; 103; 62; 0];
   [12; 14; 12; 12; 12; 12; 63; 0];
   [30; 51; 48; 28; 6; 51; 63; 0];
   [30; 51; 48; 28; 48; 51; 30; 0];
   [56; 60; 54; 51; 127; 48; 120; 0];
   [63; 3; 31; 48; 48; 51; 30; 0];
   [28; 6; 3; 31; 51; 51; 30; 0];
   [63; 51; 48; 24; 12; 12; 12; 0];
   [30; 51; 51; 30; 51; 51; 30; 0];
   [30; 51; 51; 62; 48; 24; 14; 0];
   [0; 12; 12; 0; 0; 12; 12; 0];
   [0; 12; 12; 0; 0; 12; 12; 6];
   [24; 12; 6; 3; 6; 12; 24; 0];
   [0; 0; 63; 0; 0; 63; 0; 0];
   [6; 12; 24; 48; 24; 12; 6; 0];
   [30; 51; 48; 24; 12; 0; 12; 0];
   [62; 99; 123; 123; 123; 3; 30; 0];
   [12; 30; 51; 51; 63; 51; 51; 0];
   [63; 102; 102; 62; 102; 102; 63; 0];
   [60; 102; 3; 3; 3; 102; 60; 0];
   [31; 54; 102; 102; 102; 54; 31; 0];
   [127; 70; 22; 30; 22; 70; 127; 0];
   [127; 70; 22; 30; 22; 6; 15; 0];
   [60; 102; 3; 3; 115; 102; 124; 0];
   [51; 51; 51; 63; 51; 51; 51; 0];
   [30; 12; 12; 12; 12; 12; 30; 0];
   [120; 48; 48; 48; 51; 51; 30; 0];
   [103; 102; 54; 30; 54; 102; 103; 0];
   [15; 6; 6; 6; 70; 102; 127; 0];
   [99; 119; 127; 127; 107; 99; 99; 0];
   [99; 103; 111; 123; 115; 99; 99; 0];
   [28; 54; 99; 99; 99; 54; 28; 0];
   [63; 102; 102; 62; 6; 6; 15; 0];
   [30; 51; 51; 51; 59; 30; 56; 0];
   [63; 102; 102; 62; 54; 102; 103; 0];
   [30; 51; 7; 14; 56; 51; 30; 0];
   [63; 45; 12; 12; 12; 12; 30; 0];
   [51; 51; 51; 51; 51; 51; 63; 0];
   [51; 51; 51; 51; 51; 30; 12; 0];
   [99; 99; 99; 107; 127; 119; 99; 0];
   [99; 99; 54; 28; 28; 54; 99; 0];
   [51; 51; 51; 30; 12; 12; 30; 0];
   [127; 99; 49; 24; 76; 102; 127; 0];
   [30; 6; 6; 6; 6; 6; 30; 0];
   [3; 6; 12; 24; 48; 96; 64; 0];
   [30; 24; 24; 24; 24; 24; 30; 0];
   [8; 28; 54; 99; 0; 0; 0; 0];
   [0; 0; 0; 0; 0; 0; 0; 255];
   [12; 12; 24; 0; 0; 0; 0; 0];
   [0; 0; 30; 48; 62; 51; 110; 0];
   [7; 6; 6; 62; 102; 102; 59; 0];
   [0; 0; 30; 51; 3; 51; 30; 0];
   [56; 48; 48; 62; 51; 51; 110; 0];
   [0; 0; 30; 51; 63; 3; 30; 0];
   [28; 54; 6; 15; 6; 6; 15; 0];
   [0; 0; 110; 51; 51; 62; 48; 31];
   [7; 6; 54; 110; 102; 102; 103; 0];
   [12; 0; 14; 12; 12; 12; 30; 0];
   [48; 0; 48; 48; 48; 51; 51; 30];
   [7; 6; 102; 54; 30; 54; 103; 0];
   [14; 12; 12; 12; 12; 12; 30; 0];
   [0; 0; 51; 127; 127; 107; 99; 0];
   [0; 0; 31; 51; 51; 51; 51; 0];
   [0; 0; 30; 51; 51; 51; 30; 0];
   [0; 0; 59; 102; 102; 62; 6; 15];
   [0; 0; 110; 51; 51; 62; 48; 120];
   [0; 0; 59; 110; 102; 6; 15; 0];
   [0; 0; 62; 3; 30; 48; 31; 0];
   [8; 12; 62; 12; 12; 44; 24; 0];
   [0; 0; 51; 51; 51; 51; 110; 0];
   [0; 0; 51; 51; 51; 30; 12; 0];
   [0; 0; 99; 107; 127; 127; 54; 0];
   [0; 0; 99; 54; 28; 54; 99; 0];
   [0; 0; 51; 51; 51; 62; 48; 31];
   [0; 0; 63; 25; 12; 38; 63; 0];
   [56; 12; 12; 7; 12; 12; 56; 0];
   [24; 24; 24; 0; 24; 24; 24; 0];
   [7; 12; 12; 56; 12; 12; 7; 0];
   [110; 59; 0; 0; 0; 0; 0; 0];
   [0; 0; 0; 0; 0; 0; 0; 0]].

(** [font_data[ch][row]] *)
Definition glyph_byte (ch row : Z) : Z :=
  nth (Z.to_nat row) (nth (Z.to_nat ch) font_data []) 0.

(** The loops over [row] and [col] of [renderer_draw_text]: the glyph of
    [ch] with its top left corner at [(x, y)], each bit a square of [scale]
    by [scale] pixels. *)
Definition draw_glyph (rend : Renderer) (ch x y : Z) (color : Color)
    (scale : Z) : Renderer :=
  iter_range 0 8
    (fun row rend =>
       let byte := glyph_byte ch row in
       iter_range 0 8
         (fun col rend =>
            if negb (Z.land byte (Z.shiftl 1 col) =? 0)
            then
              iter_range 0 scale
                (fun sy rend =>
                   iter_range 0 scale
                     (fun sx rend =>
                        renderer_draw_pixel rend (x + col * scale + sx)
                          (y + row * scale + sy) color)
                     rend)
                rend
            else rend)
         rend)
    rend.

(** [text[i]] as an [unsigned char]. *)
Definition char_code (c : Ascii.ascii) : Z := Z.of_N (Ascii.N_of_ascii c).

(** The loop over [i] of [renderer_draw_text], from the character at hand:
    a string ends at its first character of code 0. *)
Fixpoint text_loop (rend : Renderer) (text : string) (start_x x y : Z)
    (color : Color) (scale : Z) : Renderer :=
  match text with
  | EmptyString => rend
  | String c rest =>
      if char_code c =? 0 then rend
      else if char_code c =? 10
      then text_loop rend rest start_x start_x (y + 8 * scale) color scale
      else
        let ch := if char_code c >=? 128 then 0 else char_code c in
        text_loop (draw_glyph rend ch x y color scale) rest start_x
          (x + 8 * scale) y color scale
  end.

Definition renderer_draw_text (rend : Renderer) (text : string) (x y : Z)
    (color : Color) (scale : Z) : Renderer :=
  text_loop rend text x x y color scale.

(** The pixels of the glyph of [ch] at [(x, y)], in the order of the
    calls. *)
Definition glyph_pixels (ch x y scale : Z) : list (Z * Z) :=
  concat
    (map (fun row =>
            concat
              (map (fun col =>
                      if negb (Z.land (glyph_byte ch row) (Z.shiftl 1 col) =? 0)
                      then
                        concat
                          (map (fun sy =>
                                  map (fun sx => (x + col * scale + sx,
                                                  y + row * scale + sy))
                                    (seqZ 0 scale))
                             (seqZ 0 scale))
                      else [])
                 (seqZ 0 8)))
       (seqZ 0 8)).

(** The pixel [(px, py)] is in the square of a bit that is set in the glyph
    of [ch] drawn at [(x, y)]. *)
Definition glyph_covers (ch x y scale px py : Z) : Prop :=
  exists row col,
    0 <= row < 8 /\ 0 <= col < 8 /\
    Z.testbit (glyph_byte ch row) col = true /\
    x + col * scale <= px < x + (col + 1) * scale /\
    y + row * scale <= py < y + (row + 1) * scale.

(** The pixels of a text, in the order of the calls. *)
Fixpoint text_pixels (text : string) (start_x x y scale : Z)
    : list (Z * Z) :=
  match text with
  | EmptyString => []
  | String c rest =>
      if char_code c =? 0 then []
      else if char_code c =? 10
      then text_pixels rest start_x start_x (y + 8 * scale) scale
      else
        glyph_pixels (if char_code c >=? 128 then 0 else char_code c)
          x y scale
        ++ text_pixels rest start_x (x + 8 * scale) y scale
  end.

(** The number of line feeds of a text, up to its end. *)
Fixpoint text_newlines (text : string) : Z :=
  match text with
  | EmptyString => 0
  | String c rest =>
      if char_code c =? 0 then 0
      else if char_code c =? 10 then 1 + text_newlines rest
      else text_newlines rest
  end.

(** No character of the text has code 0. *)
Fixpoint no_nul (text : string) : Prop :=
  match text with
  | EmptyString => True
  | String c rest => char_code c <> 0 /\ no_nul rest
  end.

(** ** Scaled images *)

Definition renderer_draw_image_ex (rend : Renderer) (img : option Image)
    (x y : Z) (scale : float) (alpha : Z) : exec Renderer :=
  match img with
  | None => Ret rend
  | Some img =>
      let scaled_w :=
        F32.to_int (F32.mul (F32.of_int (img_width img)) scale) in
      let scaled_h :=
        F32.to_int (F32.mul (F32.of_int (img_height img)) scale) in
      for_range 0 scaled_h
        (fun j rend =>
           for_range 0 scaled_w
             (fun i rend =>
                qx <- fdiv_checked (F32.of_int i) scale ;;
                qy <- fdiv_checked (F32.of_int j) scale ;;
                let src_x := F32.to_int qx in
                let src_y := F32.to_int qy in
                if (src_x >=? img_width img) || (src_y >=? img_height img)
                then Ret rend
                else
                  let pixel :=
                    load (pixels img) (src_y * img_width img + src_x) in
                  let color :=
                    mkColor (pixel_r pixel) (pixel_g pixel) (pixel_b pixel)
                      (tint_channel (pixel_a pixel) alpha) in
                  Ret (renderer_draw_pixel rend (x + i) (y + j) color))
             rend)
        rend
  end.

(** ** More on vectors and matrices *)

Definition vec3_add (a b : Vec3) : Vec3 :=
  vec3_make (F32.add (x a) (x b)) (F32.add (y a) (y b)) (F32.add (z a) (z b)).

Definition vec3_sub (a b : Vec3) : Vec3 :=
  vec3_make (F32.sub (x a) (x b)) (F32.sub (y a) (y b)) (F32.sub (z a) (z b)).

Definition vec3_cross (a b : Vec3) : Vec3 :=
  vec3_make
    (F32.sub (F32.mul (y a) (z b)) (F32.mul (z a) (y b)))
    (F32.sub (F32.mul (z a) (x b)) (F32.mul (x a) (z b)))
    (F32.sub (F32.mul (x a) (y b)) (F32.mul (y a) (x b))).

Definition vec3_dot (a b : Vec3) : float :=
  F32.add (F32.add (F32.mul (x a) (x b)) (F32.mul (y a) (y b)))
    (F32.mul (z a) (z b)).

Definition mat4_look_at (eye target up : Vec3) : exec Mat4 :=
  f <- vec3_normalize (vec3_sub target eye) ;;
  s <- vec3_normalize (vec3_cross f up) ;;
  let u := vec3_cross s f in
  let mat := mat4_identity in
  let mat := mat4_set mat 0 0 (x s) in
  let mat := mat4_set mat 1 0 (y s) in
  let mat := mat4_set mat 2 0 (z s) in
  let mat := mat4_set mat 0 1 (x u) in
  let mat := mat4_set mat 1 1 (y u) in
  let mat := mat4_set mat 2 1 (z u) in
  let mat := mat4_set mat 0 2 (F32.opp (x f)) in
  let mat := mat4_set mat 1 2 (F32.opp (y f)) in
  let mat := mat4_set mat 2 2 (F32.opp (z f)) in
  let mat := mat4_set mat 3 0 (F32.opp (vec3_dot s eye)) in
  let mat := mat4_set mat 3 1 (F32.opp (vec3_dot u eye)) in
  let mat := mat4_set mat 3 2 (vec3_dot f eye) in
  Ret mat.

(** A float that is a number: no NaN and no infinity. *)
Definition is_finite (f : float) : bool :=
  match f with
  | S754_zero _ | S754_finite _ _ _ => true
  | S754_infinity _ | S754_nan => false
  end.

Definition is_zero (f : float) : bool :=
  match f with S754_zero _ => true | _ => false end.

Definition vec3_finite (v : Vec3) : Prop :=
  is_finite (x v) = true /\ is_finite (y v) = true /\ is_finite (z v) = true.

(** A vector none of whose components is a NaN. *)
Definition vec3_no_nan (v : Vec3) : Prop :=
  F32.is_nan (x v) = false /\ F32.is_nan (y v) = false /\
  F32.is_nan (z v) = false.

(** * Properties *)

(** ** Properties of [renderer_draw_pixel] *)

(** C1: a call of [renderer_draw_pixel] at coordinates outside
    [[0,width) x [0,height)] returns the renderer as it was: no pixel of
    the framebuffer changes, for every renderer state and every color. *)
Theorem draw_pixel_out_of_bounds (rend : Renderer) (x y : Z) (color : Color) :
  x < 0 \/ width rend <= x \/ y < 0 \/ height rend <= y ->
  renderer_draw_pixel rend x y color = rend.
Proof.
  intros Hout. unfold renderer_draw_pixel.
  destruct (x <? 0) eqn:Hx0; [reflexivity|].
  destruct (x >=? width rend) eqn:Hxw; [reflexivity|].
  destruct (y <? 0) eqn:Hy0; [reflexivity|].
  destruct (y >=? height rend) eqn:Hyh; [reflexivity|].
  lia.
Qed.

Lemma draw_pixel_out_of_bounds_witness :
  renderer_draw_pixel sample_renderer 3 1 (color_make 255 0 0 255)
  = sample_renderer.
Proof.
  apply (draw_pixel_out_of_bounds sample_renderer 3 1 (color_make 255 0 0 255)).
  right; left. simpl. lia.
Defined.

Lemma index_in_range (w h x y : Z) :
  0 <= x < w -> 0 <= y < h -> 0 <= y * w + x < w * h.
Proof. intros Hx Hy. nia. Qed.

Lemma load_store_same (buf : list Z) (i v : Z) :
  (Z.to_nat i < length buf)%nat -> load (store buf i v) i = v.
Proof.
  intros Hi. unfold load, store.
  rewrite list_lookup_insert_eq by exact Hi. reflexivity.
Qed.

Lemma load_store_other (buf : list Z) (i j v : Z) :
  Z.to_nat i <> Z.to_nat j -> load (store buf i v) j = load buf j.
Proof.
  intros Hij. unfold load, store.
  rewrite list_lookup_insert_ne by exact Hij. reflexivity.
Qed.

Lemma draw_pixel_in_bounds (rend : Renderer) (x y : Z) :
  0 <= x < width rend -> 0 <= y < height rend ->
  (x <? 0) || (x >=? width rend) || (y <? 0) || (y >=? height rend) = false.
Proof.
  intros Hx Hy.
  destruct (Z.ltb_spec x 0), (Z.geb_spec x (width rend)),
    (Z.ltb_spec y 0), (Z.geb_spec y (height rend)); simpl; try lia; reflexivity.
Qed.

(** C4: drawing the half transparent red [{255,0,0,128}] at an in-bounds
    [(x,y)] whose stored color is [{0,0,0}] leaves a pixel whose red channel
    is 128 (so within one unit of 128), whose green and blue channels are 0
    and whose alpha byte is 255. *)
Theorem draw_pixel_blend_red_over_black (rend : Renderer) (x y : Z) :
  renderer_ok rend ->
  0 <= x < width rend -> 0 <= y < height rend ->
  pixel_r (pixel_at rend x y) = 0 ->
  pixel_g (pixel_at rend x y) = 0 ->
  pixel_b (pixel_at rend x y) = 0 ->
  let rend' := renderer_draw_pixel rend x y (color_make 255 0 0 128) in
  pixel_r (pixel_at rend' x y) = 128 /\
  Z.abs (pixel_r (pixel_at rend' x y) - 128) <= 1 /\
  pixel_g (pixel_at rend' x y) = 0 /\
  pixel_b (pixel_at rend' x y) = 0 /\
  pixel_a (pixel_at rend' x y) = 255.
Proof.
  intros (Hw & Hh & Hlen) Hx Hy Hr Hg Hb rend'.
  assert (Hpix : pixel_at rend' x y = 4286578688).
  { subst rend'. unfold renderer_draw_pixel.
    rewrite (draw_pixel_in_bounds rend x y Hx Hy).
    unfold pixel_at in Hr, Hg, Hb.
    cbn [a r g b color_make]. rewrite Hr, Hg, Hb.
    change (128 =? 255) with false. cbv iota.
    unfold pixel_at, set_framebuffer. cbn [framebuffer width].
    rewrite load_store_same.
    - vm_compute. reflexivity.
    - pose proof (index_in_range _ _ _ _ Hx Hy). lia. }
  rewrite Hpix. vm_compute. repeat split; congruence.
Qed.

Lemma draw_pixel_blend_red_over_black_witness :
  let rend' := renderer_draw_pixel sample_renderer 1 1 (color_make 255 0 0 128) in
  pixel_r (pixel_at rend' 1 1) = 128 /\
  Z.abs (pixel_r (pixel_at rend' 1 1) - 128) <= 1 /\
  pixel_g (pixel_at rend' 1 1) = 0 /\
  pixel_b (pixel_at rend' 1 1) = 0 /\
  pixel_a (pixel_at rend' 1 1) = 255.
Proof.
  apply (draw_pixel_blend_red_over_black sample_renderer 1 1).
  - repeat split; simpl; lia.
  - simpl; lia.
  - simpl; lia.
  - reflexivity.
  - reflexivity.
  - reflexivity.
Defined.

(** ** Bresenham lines *)

Lemma bind_ret {A B : Type} (m : exec A) (k : A -> exec B) (b : B) :
  bind m k = Ret b -> exists a, m = Ret a /\ k a = Ret b.
Proof. destruct m as [a0|f]; simpl; intros H; [eauto | discriminate]. Qed.

(** An operation whose exact result is a value of [int] gives that
    result. *)
Lemma wrap_id (z : Z) : is_int z -> wrap z = z.
Proof.
  unfold is_int, wrap. intros Hz. rewrite Z.mod_small by lia. lia.
Qed.

Lemma wrap_is_int (z : Z) : is_int (wrap z).
Proof.
  unfold is_int, wrap.
  pose proof (Z.mod_pos_bound (z + 2 ^ 31) (2 ^ 32) ltac:(lia)). lia.
Qed.

(** For endpoints in range the loop of [renderer_draw_line] draws the
    pixels of [bresenham_path]: [err] stays within [3/2] of the spans. *)
Lemma line_loop_path (color : Color) (fuel : nat) :
  forall rend x1 y1 x2 y2 dx dy sx sy err,
    (sx = 1 \/ sx = -1) -> (sy = 1 \/ sy = -1) ->
    0 <= sx * (x2 - x1) <= dx ->
    0 <= sy * (y2 - y1) <= dy ->
    err = dx - dy + sx * (x2 - x1) * dy - sy * (y2 - y1) * dx ->
    is_int x1 -> is_int y1 -> is_int x2 -> is_int y2 ->
    3 * dx <= 2 ^ 31 - 1 -> 3 * dy <= 2 ^ 31 - 1 ->
    - 3 * dy <= 2 * err <= 3 * dx ->
    line_loop fuel rend x1 y1 x2 y2 dx dy sx sy err color =
    (path <- bresenham_path fuel x1 y1 x2 y2 dx dy sx sy err ;;
     Ret (draw_pixels rend path color)).
Proof.
  induction fuel as [|fuel IH];
    intros rend x1 y1 x2 y2 dx dy sx sy err Hsx Hsy Hrx Hry Herr
      Hx1 Hy1 Hx2 Hy2 Hdx Hdy Hbound; [reflexivity|].
  cbn [line_loop bresenham_path].
  destruct (Z.eqb_spec x1 x2) as [Hx|Hx]; destruct (Z.eqb_spec y1 y2) as [Hy|Hy];
    cbn [andb]; [reflexivity| | |].
  all: unfold imul, ineg; rewrite !wrap_id by (unfold is_int in *; lia).
  all: destruct (Z.gtb_spec (2 * err) (- dy)) as [Hxs|Hxs];
       destruct (Z.ltb_spec (2 * err) dx) as [Hys|Hys].
  all: try (exfalso; subst err; nia).
  all: unfold isub, iadd;
    repeat match goal with
           | |- context [wrap ?z] =>
               lazymatch z with
               | context [wrap _] => fail
               | _ => rewrite (wrap_id z) by (unfold is_int in *; nia)
               end
           end.
  all: rewrite IH by (first [assumption | unfold is_int in *; nia | subst err; nia]).
  all: match goal with
       | |- context [bresenham_path ?f ?a ?b ?c ?d ?e ?g ?h ?i ?j] =>
           destruct (bresenham_path f a b c d e g h i j); reflexivity
       end.
Qed.

(** The invariant of the loop: [rx] and [ry] steps remain on each axis. *)
Lemma line_path_total (fuel : nat) :
  forall x1 y1 x2 y2 dx dy sx sy err,
    (sx = 1 \/ sx = -1) -> (sy = 1 \/ sy = -1) ->
    0 <= sx * (x2 - x1) <= dx ->
    0 <= sy * (y2 - y1) <= dy ->
    err = dx - dy + sx * (x2 - x1) * dy - sy * (y2 - y1) * dx ->
    (Z.to_nat (sx * (x2 - x1) + sy * (y2 - y1)) < fuel)%nat ->
    exists path, bresenham_path fuel x1 y1 x2 y2 dx dy sx sy err = Ret path.
Proof.
  induction fuel as [|fuel IH]; intros x1 y1 x2 y2 dx dy sx sy err Hsx Hsy Hrx Hry Herr Hfuel;
    [lia|].
  simpl.
  destruct (Z.eqb_spec x1 x2) as [Hx|Hx]; destruct (Z.eqb_spec y1 y2) as [Hy|Hy];
    simpl; [eauto| | |].
  all: destruct (Z.gtb_spec (2 * err) (- dy)) as [Hxs|Hxs];
       destruct (Z.ltb_spec (2 * err) dx) as [Hys|Hys].
  all: try (exfalso; subst err; nia).
  all: match goal with
       | |- context [bresenham_path _ ?a ?b _ _ _ _ _ _ ?e] =>
           destruct (IH a b x2 y2 dx dy sx sy e) as [p Hp];
             [assumption | assumption | nia | nia | subst err; nia | nia |
              rewrite Hp; simpl; eauto]
       end.
Qed.

Lemma line_pixels_total (x1 y1 x2 y2 : Z) :
  exists path, bresenham_pixels x1 y1 x2 y2 = Ret path.
Proof.
  unfold bresenham_pixels, line_fuel.
  apply line_path_total.
  - destruct (x1 <? x2); auto.
  - destruct (y1 <? y2); auto.
  - destruct (Z.ltb_spec x1 x2); lia.
  - destruct (Z.ltb_spec y1 y2); lia.
  - destruct (Z.ltb_spec x1 x2); destruct (Z.ltb_spec y1 y2); nia.
  - destruct (Z.ltb_spec x1 x2); destruct (Z.ltb_spec y1 y2); lia.
Qed.

(** For endpoints in range [renderer_draw_line] draws Bresenham's path. *)
Lemma draw_line_pixels (rend : Renderer) (x1 y1 x2 y2 : Z) (color : Color) :
  line_in_range x1 y1 x2 y2 ->
  renderer_draw_line rend x1 y1 x2 y2 color =
  (path <- bresenham_pixels x1 y1 x2 y2 ;; Ret (draw_pixels rend path color)).
Proof.
  intros (Hx1 & Hy1 & Hx2 & Hy2 & Hdx & Hdy).
  unfold renderer_draw_line, bresenham_pixels, iabs, isub.
  rewrite (wrap_id (x2 - x1)), (wrap_id (y2 - y1)) by (unfold is_int in *; lia).
  rewrite (wrap_id (Z.abs (x2 - x1))), (wrap_id (Z.abs (y2 - y1)))
    by (unfold is_int in *; lia).
  rewrite (wrap_id (Z.abs (x2 - x1) - Z.abs (y2 - y1)))
    by (unfold is_int in *; lia).
  rewrite !Z.abs_idemp.
  apply line_loop_path; try assumption.
  - destruct (x1 <? x2); auto.
  - destruct (y1 <? y2); auto.
  - destruct (Z.ltb_spec x1 x2); lia.
  - destruct (Z.ltb_spec y1 y2); lia.
  - destruct (Z.ltb_spec x1 x2); destruct (Z.ltb_spec y1 y2); nia.
  - lia.
Qed.

(** For endpoints in range [renderer_draw_line] reaches its [break]. *)
Lemma renderer_draw_line_total (rend : Renderer) (x1 y1 x2 y2 : Z) (color : Color) :
  line_in_range x1 y1 x2 y2 ->
  exists rend', renderer_draw_line rend x1 y1 x2 y2 color = Ret rend'.
Proof.
  intros Hrange. rewrite draw_line_pixels by exact Hrange.
  destruct (line_pixels_total x1 y1 x2 y2) as [path ->]. simpl. eauto.
Qed.

Lemma draw_pixel_width (rend : Renderer) (x y : Z) (color : Color) :
  width (renderer_draw_pixel rend x y color) = width rend.
Proof.
  unfold renderer_draw_pixel.
  destruct (_ || _); [reflexivity|]. destruct (a color =? 255); reflexivity.
Qed.

Lemma draw_pixel_height (rend : Renderer) (x y : Z) (color : Color) :
  height (renderer_draw_pixel rend x y color) = height rend.
Proof.
  unfold renderer_draw_pixel.
  destruct (_ || _); [reflexivity|]. destruct (a color =? 255); reflexivity.
Qed.

Lemma draw_pixel_inside (rend : Renderer) (x y : Z) (color : Color) :
  0 <= x < width rend -> 0 <= y < height rend ->
  renderer_draw_pixel rend x y color =
  set_framebuffer rend
    (store (framebuffer rend) (y * width rend + x)
       (drawn_pixel color (load (framebuffer rend) (y * width rend + x)))).
Proof.
  intros Hx Hy. unfold renderer_draw_pixel, drawn_pixel.
  rewrite (draw_pixel_in_bounds rend x y Hx Hy).
  destruct (a color =? 255); reflexivity.
Qed.

Lemma draw_pixel_outside (rend : Renderer) (x y : Z) (color : Color) :
  ~ (0 <= x < width rend /\ 0 <= y < height rend) ->
  renderer_draw_pixel rend x y color = rend.
Proof.
  intros Hout. unfold renderer_draw_pixel.
  destruct (Z.ltb_spec x 0), (Z.geb_spec x (width rend)),
    (Z.ltb_spec y 0), (Z.geb_spec y (height rend)); simpl; try reflexivity; lia.
Qed.

(** Two calls of [renderer_draw_pixel] with one color commute. *)
Lemma draw_pixel_comm (rend : Renderer) (x y x' y' : Z) (color : Color) :
  renderer_draw_pixel (renderer_draw_pixel rend x y color) x' y' color =
  renderer_draw_pixel (renderer_draw_pixel rend x' y' color) x y color.
Proof.
  destruct (decide (0 <= x < width rend /\ 0 <= y < height rend)) as [[Hx Hy]|Hout];
    [|rewrite (draw_pixel_outside rend x y color Hout);
      rewrite (draw_pixel_outside _ x y color); [reflexivity|];
      rewrite draw_pixel_width, draw_pixel_height; exact Hout].
  destruct (decide (0 <= x' < width rend /\ 0 <= y' < height rend)) as [[Hx' Hy']|Hout];
    [|rewrite (draw_pixel_outside rend x' y' color Hout);
      rewrite (draw_pixel_outside _ x' y' color); [reflexivity|];
      rewrite draw_pixel_width, draw_pixel_height; exact Hout].
  destruct (decide (x = x' /\ y = y')) as [[-> ->]|Hne]; [reflexivity|].
  rewrite (draw_pixel_inside rend x y color Hx Hy).
  rewrite (draw_pixel_inside rend x' y' color Hx' Hy').
  rewrite !draw_pixel_inside by (simpl; assumption).
  unfold set_framebuffer; cbn [framebuffer width height is_running].
  assert (Hidx : Z.to_nat (y * width rend + x) <> Z.to_nat (y' * width rend + x')).
  { intros Heq.
    assert (Hz : y * width rend + x = y' * width rend + x') by nia.
    assert (Hyy : y = y') by nia.
    subst y'. apply Hne. split; [lia | reflexivity]. }
  rewrite !load_store_other by (auto using not_eq_sym).
  f_equal. unfold store. apply list_insert_insert_ne. auto using not_eq_sym.
Qed.

Lemma draw_pixels_comm (color : Color) (path : list (Z * Z)) :
  forall rend x y,
    draw_pixels (renderer_draw_pixel rend x y color) path color =
    renderer_draw_pixel (draw_pixels rend path color) x y color.
Proof.
  induction path as [|p path IH]; intros rend x y; [reflexivity|].
  unfold draw_pixels in *. simpl. rewrite <- IH. f_equal. apply draw_pixel_comm.
Qed.

Lemma draw_pixels_rev (color : Color) (path : list (Z * Z)) (rend : Renderer) :
  draw_pixels rend (rev path) color = draw_pixels rend path color.
Proof.
  revert rend. induction path as [|p path IH]; intros rend; [reflexivity|].
  simpl rev. unfold draw_pixels at 1. rewrite fold_left_app. simpl.
  fold (draw_pixels rend (rev path) color). rewrite IH.
  rewrite <- draw_pixels_comm. reflexivity.
Qed.

(** *** The closed form of the path *)

Lemma minor_steps_spec (M m k : Z) :
  0 < M ->
  2 * M * minor_steps M m k <= 2 * k * m + M
  < 2 * M * (minor_steps M m k + 1).
Proof.
  intros HM. unfold minor_steps.
  pose proof (Z.div_mod (2 * k * m + M) (2 * M) ltac:(lia)) as Hdm.
  pose proof (Z.mod_pos_bound (2 * k * m + M) (2 * M) ltac:(lia)) as Hmod.
  lia.
Qed.

Lemma minor_steps_unique (M m k q : Z) :
  0 < M -> 2 * M * q <= 2 * k * m + M < 2 * M * (q + 1) ->
  minor_steps M m k = q.
Proof.
  intros HM Hq. pose proof (minor_steps_spec M m k HM) as Hs.
  set (g := minor_steps M m k) in *. nia.
Qed.

Lemma minor_steps_0 (M m : Z) : 0 < M -> minor_steps M m 0 = 0.
Proof. intros HM. apply minor_steps_unique; lia. Qed.

Lemma minor_steps_full (M m : Z) : 0 < M -> minor_steps M m M = m.
Proof. intros HM. apply minor_steps_unique; nia. Qed.

Lemma minor_steps_flat (M k : Z) : 0 < M -> minor_steps M 0 k = 0.
Proof. intros HM. apply minor_steps_unique; lia. Qed.

Lemma minor_steps_diagonal (M k : Z) : 0 < M -> minor_steps M M k = k.
Proof. intros HM. apply minor_steps_unique; nia. Qed.

(** Without a tie at [k], the steps from the two ends add up. *)
Lemma minor_steps_sym (M m k : Z) :
  0 < M -> 0 <= k <= M ->
  (2 * k * m + M) mod (2 * M) <> 0 ->
  minor_steps M m k + minor_steps M m (M - k) = m.
Proof.
  intros HM Hk Htie.
  pose proof (Z.div_mod (2 * k * m + M) (2 * M) ltac:(lia)) as Hdm.
  pose proof (Z.mod_pos_bound (2 * k * m + M) (2 * M) ltac:(lia)) as Hmod.
  fold (minor_steps M m k) in Hdm.
  set (g := minor_steps M m k) in *.
  set (r := (2 * k * m + M) mod (2 * M)) in *.
  rewrite (minor_steps_unique M m (M - k) (m - g)); [lia | exact HM | nia].
Qed.

(** With a tie at [k] they add up to one more. *)
Lemma minor_steps_tie (M m k : Z) :
  0 < M -> 0 <= k <= M ->
  (2 * k * m + M) mod (2 * M) = 0 ->
  minor_steps M m k + minor_steps M m (M - k) = m + 1.
Proof.
  intros HM Hk Htie.
  pose proof (Z.div_mod (2 * k * m + M) (2 * M) ltac:(lia)) as Hdm.
  fold (minor_steps M m k) in Hdm. rewrite Htie in Hdm.
  set (g := minor_steps M m k) in *.
  rewrite (minor_steps_unique M m (M - k) (m + 1 - g)); [lia | exact HM | nia].
Qed.

(** A line that is wider than high: [n] steps from the end the path is at
    [wide_pixel n], and it takes a step along x at every iteration. *)
Lemma bresenham_path_wide (n : nat) :
  forall fuel x1 y1 x2 y2 dx dy sx sy err,
    (n < fuel)%nat ->
    (sx = 1 \/ sx = -1) -> (sy = 1 \/ sy = -1) ->
    0 < dx -> 0 <= dy <= dx ->
    x1 = x2 - sx * Z.of_nat n ->
    y1 = y2 - sy * minor_steps dx dy (Z.of_nat n) ->
    err = dx - dy + Z.of_nat n * dy - minor_steps dx dy (Z.of_nat n) * dx ->
    bresenham_path fuel x1 y1 x2 y2 dx dy sx sy err
    = Ret (map (wide_pixel x2 y2 dx dy sx sy) (countdown n)).
Proof.
  induction n as [|n IH];
    intros fuel x1 y1 x2 y2 dx dy sx sy err Hfuel Hsx Hsy Hdx Hdy Hx Hy Herr;
    (destruct fuel as [|fuel]; [lia|]); cbn [bresenham_path].
  - change (Z.of_nat 0) with 0 in *. rewrite minor_steps_0 in * by exact Hdx.
    replace x1 with x2 by lia. replace y1 with y2 by lia.
    rewrite !Z.eqb_refl. cbn [andb countdown map]. unfold wide_pixel.
    rewrite minor_steps_0 by exact Hdx. do 3 f_equal; lia.
  - pose proof (minor_steps_spec dx dy (Z.of_nat (S n)) Hdx) as Hq.
    pose proof (minor_steps_spec dx dy (Z.of_nat n) Hdx) as Hq'.
    set (q := minor_steps dx dy (Z.of_nat (S n))) in *.
    set (q' := minor_steps dx dy (Z.of_nat n)) in *.
    rewrite Nat2Z.inj_succ in *.
    assert (Hqq : q' <= q <= q' + 1) by nia.
    assert (Hne : (x1 =? x2) = false) by (apply Z.eqb_neq; nia).
    rewrite Hne. cbn [andb].
    assert (Hxs : 2 * err > - dy).
    { destruct (Z.eq_dec dx dy) as [Heq|Hneq]; [|nia].
      subst dy. subst q. rewrite <- Nat2Z.inj_succ in Herr.
      rewrite minor_steps_diagonal in Herr by exact Hdx. nia. }
    destruct (Z.gtb_spec (2 * err) (- dy)) as [_|Hc]; [|lia].
    cbn [countdown map].
    destruct (Z.ltb_spec (2 * err) dx) as [Hys|Hys].
    + assert (q = q' + 1) by nia.
      rewrite (IH fuel (x1 + sx) (y1 + sy) x2 y2 dx dy sx sy (err - dy + dx));
        [ | lia | assumption | assumption | lia | lia | nia | fold q'; nia
          | fold q'; nia ].
      cbn [bind]. do 2 f_equal. unfold wide_pixel. fold q.
      rewrite Nat2Z.inj_succ. f_equal; nia.
    + assert (q = q') by nia.
      rewrite (IH fuel (x1 + sx) y1 x2 y2 dx dy sx sy (err - dy));
        [ | lia | assumption | assumption | lia | lia | nia | fold q'; nia
          | fold q'; nia ].
      cbn [bind]. do 2 f_equal. unfold wide_pixel. fold q.
      rewrite Nat2Z.inj_succ. f_equal; nia.
Qed.

(** Exchanging the axes exchanges the coordinates of the path. *)
Lemma bresenham_path_transpose (fuel : nat) :
  forall x1 y1 x2 y2 dx dy sx sy err,
    bresenham_path fuel x1 y1 x2 y2 dx dy sx sy err
    = (path <- bresenham_path fuel y1 x1 y2 x2 dy dx sy sx (- err) ;;
       Ret (map transpose path)).
Proof.
  induction fuel as [|fuel IH]; intros x1 y1 x2 y2 dx dy sx sy err;
    [reflexivity|].
  cbn [bresenham_path]. rewrite (andb_comm (y1 =? y2)).
  destruct ((x1 =? x2) && (y1 =? y2)); [reflexivity|].
  destruct (Z.gtb_spec (2 * err) (- dy)) as [Hxs|Hxs];
    destruct (Z.ltb_spec (2 * err) dx) as [Hys|Hys];
    destruct (Z.gtb_spec (2 * - err) (- dx)) as [Hxs'|Hxs']; try lia;
    destruct (Z.ltb_spec (2 * - err) dy) as [Hys'|Hys']; try lia;
    rewrite IH;
    match goal with
    | |- context [bresenham_path ?f ?a ?b ?c ?d ?e ?g ?h ?i ?j] =>
        match goal with
        | |- context [bresenham_path f a b c d e g h i ?j'] =>
            replace j' with j by lia
        end;
        destruct (bresenham_path f a b c d e g h i j); reflexivity
    end.
Qed.

Lemma countdown_rev (n : nat) : rev (countdown n) = seqZ 0 (Z.of_nat (S n)).
Proof.
  induction n as [|n IH]; [reflexivity|].
  cbn [countdown rev]. rewrite IH, (seqZ_S 0 (S n)). reflexivity.
Qed.

Lemma map_countdown {A : Type} (n : nat) :
  forall g f : Z -> A,
    (forall k, 0 <= k <= Z.of_nat n -> g k = f (Z.of_nat n - k)) ->
    map g (countdown n) = map f (seqZ 0 (Z.of_nat (S n))).
Proof.
  induction n as [|n IH]; intros g f Hgf.
  - cbn [countdown map]. change (seqZ 0 (Z.of_nat 1)) with [0]. cbn [map].
    f_equal. apply (Hgf 0). lia.
  - cbn [countdown map]. rewrite (seqZ_cons 0) by lia. cbn [map].
    f_equal.
    + rewrite (Hgf (Z.of_nat (S n))) by lia. f_equal. lia.
    + replace (Z.pred (Z.of_nat (S (S n)))) with (Z.of_nat (S n)) by lia.
      change (Z.succ 0) with (1 + 0).
      rewrite <- (fmap_add_seqZ 1 0 (Z.of_nat (S n))).
      change (map f (Z.add 1 <$> seqZ 0 (Z.of_nat (S n))))
        with (map f (map (Z.add 1) (seqZ 0 (Z.of_nat (S n))))).
      rewrite map_map. apply IH.
      intros k Hk. rewrite (Hgf k) by lia. f_equal. lia.
Qed.

(** Two closed forms that mirror each other give reversed lists. *)
Lemma map_countdown_rev {A : Type} (n : nat) (g f : Z -> A) :
  (forall k, 0 <= k <= Z.of_nat n -> g k = f (Z.of_nat n - k)) ->
  map g (countdown n) = rev (map f (countdown n)).
Proof.
  intros Hgf. rewrite <- map_rev, countdown_rev. apply map_countdown. exact Hgf.
Qed.

Lemma tie_at (M m k : Z) :
  0 < M ->
  (2 * k * m + M) mod (2 * M) = 0 <-> (2 * k * m) mod (2 * M) = M.
Proof.
  intros HM.
  pose proof (Z.div_mod (2 * k * m) (2 * M) ltac:(lia)) as Hdm.
  pose proof (Z.mod_pos_bound (2 * k * m) (2 * M) ltac:(lia)) as Hmod.
  set (q := 2 * k * m / (2 * M)) in *.
  set (r := (2 * k * m) mod (2 * M)) in *.
  destruct (Z.lt_ge_cases r M) as [Hlt|Hge].
  - rewrite <- (Z.mod_unique (2 * k * m + M) (2 * M) q (r + M)) by lia. lia.
  - rewrite <- (Z.mod_unique (2 * k * m + M) (2 * M) (q + 1) (r - M)) by lia.
    lia.
Qed.

Lemma bresenham_pixels_wide (x1 y1 x2 y2 : Z) :
  let dx := Z.abs (x2 - x1) in
  let dy := Z.abs (y2 - y1) in
  0 < dx -> dy <= dx ->
  bresenham_pixels x1 y1 x2 y2
  = Ret (map (wide_pixel x2 y2 dx dy (if x1 <? x2 then 1 else -1)
                (if y1 <? y2 then 1 else -1))
           (countdown (Z.to_nat dx))).
Proof.
  intros dx dy Hdx Hdy. unfold bresenham_pixels, line_fuel. fold dx dy.
  apply bresenham_path_wide.
  - lia.
  - destruct (x1 <? x2); auto.
  - destruct (y1 <? y2); auto.
  - exact Hdx.
  - lia.
  - rewrite Z2Nat.id by lia. destruct (Z.ltb_spec x1 x2); lia.
  - rewrite Z2Nat.id, minor_steps_full by lia.
    destruct (Z.ltb_spec y1 y2); lia.
  - rewrite Z2Nat.id, minor_steps_full by lia. lia.
Qed.

Lemma bresenham_pixels_transpose (x1 y1 x2 y2 : Z) :
  bresenham_pixels x1 y1 x2 y2
  = (path <- bresenham_pixels y1 x1 y2 x2 ;; Ret (map transpose path)).
Proof.
  unfold bresenham_pixels, line_fuel.
  rewrite bresenham_path_transpose.
  replace (- (Z.abs (x2 - x1) - Z.abs (y2 - y1)))
    with (Z.abs (y2 - y1) - Z.abs (x2 - x1)) by lia.
  replace (Z.abs (y2 - y1) + Z.abs (x2 - x1) + 1)
    with (Z.abs (x2 - x1) + Z.abs (y2 - y1) + 1) by lia.
  reflexivity.
Qed.

(** Without a tie the path of a line that is wider than high, taken from
    the other end, is the same path backwards. *)
Lemma bresenham_pixels_rev_wide (x1 y1 x2 y2 : Z) :
  0 < Z.abs (x2 - x1) -> Z.abs (y2 - y1) <= Z.abs (x2 - x1) ->
  tie_free x1 y1 x2 y2 ->
  exists path,
    bresenham_pixels x1 y1 x2 y2 = Ret path /\
    bresenham_pixels x2 y2 x1 y1 = Ret (rev path).
Proof.
  intros Hdx Hdy Htie.
  rewrite (bresenham_pixels_wide x1 y1 x2 y2) by assumption.
  rewrite (bresenham_pixels_wide x2 y2 x1 y1) by lia.
  eexists. split; [reflexivity|]. f_equal.
  replace (Z.abs (x1 - x2)) with (Z.abs (x2 - x1)) by lia.
  replace (Z.abs (y1 - y2)) with (Z.abs (y2 - y1)) by lia.
  set (dx := Z.abs (x2 - x1)) in *. set (dy := Z.abs (y2 - y1)) in *.
  apply map_countdown_rev. rewrite Z2Nat.id by lia.
  intros k Hk. unfold wide_pixel.
  assert (Hsum : minor_steps dx dy k + minor_steps dx dy (dx - k) = dy).
  { apply minor_steps_sym; [lia | lia |].
    rewrite tie_at by lia.
    destruct (Z.eq_dec k 0) as [->|Hk0].
    - rewrite Z.mul_0_r, Z.mul_0_l, Z.mod_0_l by lia. lia.
    - destruct (Z.eq_dec k dx) as [->|Hkd].
      + replace (2 * dx * dy) with (dy * (2 * dx)) by lia.
        rewrite Z.mod_mul by lia. lia.
      + pose proof (Htie k) as Hk'. cbv zeta in Hk'. fold dx dy in Hk'.
        rewrite Z.max_l, Z.min_r in Hk' by lia. apply Hk'. lia. }
  destruct (Z.eq_dec dy 0) as [Hflat|Hsteep].
  - rewrite Hflat, !minor_steps_flat by lia.
    f_equal; destruct (Z.ltb_spec x1 x2), (Z.ltb_spec x2 x1); nia.
  - f_equal;
      destruct (Z.ltb_spec x1 x2), (Z.ltb_spec x2 x1),
        (Z.ltb_spec y1 y2), (Z.ltb_spec y2 y1); nia.
Qed.

Lemma tie_free_transpose (x1 y1 x2 y2 : Z) :
  tie_free x1 y1 x2 y2 -> tie_free y1 x1 y2 x2.
Proof.
  unfold tie_free. intros H k.
  rewrite (Z.max_comm (Z.abs (y2 - y1))), (Z.min_comm (Z.abs (y2 - y1))).
  apply H.
Qed.

(** Without a tie the path from the other end is the same path
    backwards. *)
Lemma bresenham_pixels_rev (x1 y1 x2 y2 : Z) :
  tie_free x1 y1 x2 y2 ->
  exists path,
    bresenham_pixels x1 y1 x2 y2 = Ret path /\
    bresenham_pixels x2 y2 x1 y1 = Ret (rev path).
Proof.
  intros Htie.
  destruct (Z.le_gt_cases (Z.abs (y2 - y1)) (Z.abs (x2 - x1))) as [Hwide|Hhigh].
  - destruct (Z.eq_dec (Z.abs (x2 - x1)) 0) as [Hpoint|Hline].
    + assert (x1 = x2) by lia. assert (y1 = y2) by lia. subst x2 y2.
      exists [(x1, y1)]. unfold bresenham_pixels, line_fuel.
      rewrite !Z.sub_diag. change (Z.to_nat (Z.abs 0 + Z.abs 0 + 1)) with 1%nat.
      cbn [bresenham_path]. rewrite !Z.eqb_refl. split; reflexivity.
    + apply bresenham_pixels_rev_wide; [lia | exact Hwide | exact Htie].
  - destruct (bresenham_pixels_rev_wide y1 x1 y2 x2)
      as (path & Hfwd & Hbwd); [lia | lia | apply tie_free_transpose, Htie |].
    exists (map transpose path). split.
    + rewrite bresenham_pixels_transpose, Hfwd. reflexivity.
    + rewrite bresenham_pixels_transpose, Hbwd. cbn [bind].
      rewrite map_rev. reflexivity.
Qed.

(** Horizontal, vertical and diagonal lines have no tie, and so has every
    line whose longer span divided by the greatest common divisor of the
    spans is odd. *)
Lemma tie_free_odd_ratio (x1 y1 x2 y2 : Z) :
  let dx := Z.abs (x2 - x1) in
  let dy := Z.abs (y2 - y1) in
  Z.odd (Z.max dx dy / Z.gcd dx dy) = true ->
  tie_free x1 y1 x2 y2.
Proof.
  intros dx dy Hodd. unfold tie_free. fold dx dy.
  set (M := Z.max dx dy) in *. set (m := Z.min dx dy) in *.
  intros k Hk Htie.
  assert (Hg : Z.gcd dx dy = Z.gcd M m).
  { subst M m. destruct (Z.le_ge_cases dx dy).
    - rewrite Z.max_r, Z.min_l by lia. apply Z.gcd_comm.
    - rewrite Z.max_l, Z.min_r by lia. reflexivity. }
  rewrite Hg in Hodd.
  destruct (Z.gcd_divide_l M m) as [a Ha].
  destruct (Z.gcd_divide_r M m) as [b Hb].
  pose proof (Z.gcd_nonneg M m) as Hgpos.
  set (g := Z.gcd M m) in *.
  assert (Hg0 : 0 < g).
  { destruct (Z.eq_dec g 0) as [Hz|Hz]; [|lia].
    rewrite Hz, Z.mul_0_r in Ha. lia. }
  assert (Hquot : M / g = a)
    by (rewrite Ha at 1; apply Z.div_mul; lia).
  rewrite Hquot in Hodd.
  pose proof (Z.div_mod (2 * k * m) (2 * M) ltac:(lia)) as Hdm.
  rewrite Htie in Hdm.
  set (q := 2 * k * m / (2 * M)) in *.
  assert (Heq : 2 * (k * b) = a * (2 * q + 1)) by nia.
  apply (f_equal Z.odd) in Heq.
  rewrite Z.odd_mul, Z.odd_2 in Heq. cbn [andb] in Heq.
  rewrite Z.odd_mul, Hodd in Heq.
  rewrite Z.add_comm, Z.odd_add_mul_2 in Heq. discriminate Heq.
Qed.

Lemma tie_free_straight (x1 y1 x2 y2 : Z) :
  x1 = x2 \/ y1 = y2 \/ Z.abs (x2 - x1) = Z.abs (y2 - y1) ->
  tie_free x1 y1 x2 y2.
Proof.
  intros Hst.
  destruct (decide (x1 = x2 /\ y1 = y2)) as [[-> ->]|Hne].
  - unfold tie_free. rewrite !Z.sub_diag. cbn. intros k Hk. lia.
  - apply tie_free_odd_ratio. cbv zeta.
    set (dx := Z.abs (x2 - x1)) in *. set (dy := Z.abs (y2 - y1)) in *.
    assert (Hmax : 0 < Z.max dx dy) by lia.
    replace (Z.gcd dx dy) with (Z.max dx dy).
    + rewrite Z.div_same by lia. reflexivity.
    + destruct Hst as [Hx|[Hy|Hd]].
      * assert (dx = 0) by lia. replace dx with 0 by lia.
        rewrite Z.max_r, Z.gcd_0_l by lia. lia.
      * assert (dy = 0) by lia. replace dy with 0 by lia.
        rewrite Z.max_l, Z.gcd_0_r by lia. lia.
      * rewrite <- Hd. rewrite Z.max_id, Z.gcd_diag. lia.
Qed.

Lemma line_in_range_sym (x1 y1 x2 y2 : Z) :
  line_in_range x1 y1 x2 y2 -> line_in_range x2 y2 x1 y1.
Proof.
  unfold line_in_range, is_int. intros (? & ? & ? & ? & ? & ?).
  repeat split; lia.
Qed.

(** C6, as the code has it: for endpoints in the range of the [int]
    arithmetic of the loop, and a line without a tie,
    [renderer_draw_line] from [(x1,y1)] to [(x2,y2)] and from [(x2,y2)] to
    [(x1,y1)] both return, with the same framebuffer, for every color and
    every renderer state: the path from one end is the path from the other
    end backwards.  The lines without a tie are those whose longer span
    divided by the greatest common divisor of the two spans is odd
    ([tie_free_odd_ratio]), the horizontal, vertical and diagonal lines
    among them ([tie_free_straight]). *)
Theorem draw_line_symmetric_without_tie (rend : Renderer) (x1 y1 x2 y2 : Z)
    (color : Color) :
  line_in_range x1 y1 x2 y2 ->
  tie_free x1 y1 x2 y2 ->
  exists rend',
    renderer_draw_line rend x1 y1 x2 y2 color = Ret rend' /\
    renderer_draw_line rend x2 y2 x1 y1 color = Ret rend'.
Proof.
  intros Hrange Htie.
  rewrite (draw_line_pixels rend x1 y1 x2 y2) by exact Hrange.
  rewrite (draw_line_pixels rend x2 y2 x1 y1)
    by (apply line_in_range_sym; exact Hrange).
  destruct (bresenham_pixels_rev x1 y1 x2 y2 Htie) as (path & -> & ->).
  cbn [bind]. eexists. split; [reflexivity|].
  rewrite draw_pixels_rev. reflexivity.
Qed.

Lemma draw_line_symmetric_without_tie_witness :
  exists rend',
    renderer_draw_line sample_renderer 0 0 3 1 (color_make 255 0 0 128) = Ret rend' /\
    renderer_draw_line sample_renderer 3 1 0 0 (color_make 255 0 0 128) = Ret rend'.
Proof.
  apply (draw_line_symmetric_without_tie sample_renderer 0 0 3 1).
  - unfold line_in_range, is_int. simpl. lia.
  - apply tie_free_odd_ratio. vm_compute. reflexivity.
Defined.

(** C6 as stated fails: on a 3x2 black framebuffer the opaque white line
    from [(0,0)] to [(2,1)] passes through [(1,0)], the line from [(2,1)] to
    [(0,0)] through [(1,1)]. *)
Lemma draw_line_not_symmetric :
  renderer_draw_line sample_renderer 0 0 2 1 (color_make 255 255 255 255)
  <> renderer_draw_line sample_renderer 2 1 0 0 (color_make 255 255 255 255).
Proof. vm_compute. discriminate. Qed.

(** ** Single precision: rounding never loses a value of normal size *)

Module F32Facts.

Lemma digits2_size (p : positive) : digits2_pos p = Pos.size p.
Proof. induction p; simpl; congruence. Qed.

Lemma Zdigits2_log2 (m : Z) : 0 < m -> Zdigits2 m = Z.log2 m + 1.
Proof.
  destruct m as [|p|p]; try lia. intros _. simpl Zdigits2.
  rewrite digits2_size. destruct p; simpl; lia.
Qed.

Lemma iter_pos_nat {A : Type} (f : A -> A) (n : positive) (x : A) :
  SpecFloat.iter_pos f n x = Nat.iter (Pos.to_nat n) f x.
Proof.
  revert x. induction n as [n IH|n IH|]; intros x; simpl SpecFloat.iter_pos.
  - rewrite !IH, Pos2Nat.inj_xI.
    replace (S (2 * Pos.to_nat n)) with (Pos.to_nat n + (Pos.to_nat n + 1))%nat by lia.
    rewrite !Nat.iter_add. reflexivity.
  - rewrite !IH, Pos2Nat.inj_xO.
    replace (2 * Pos.to_nat n)%nat with (Pos.to_nat n + Pos.to_nat n)%nat by lia.
    rewrite Nat.iter_add. reflexivity.
  - reflexivity.
Qed.

Lemma shr_1_m (mrs : shr_record) :
  0 <= shr_m mrs -> shr_m (shr_1 mrs) = Z.div2 (shr_m mrs).
Proof.
  destruct mrs as [m r s]. simpl. intros Hm.
  destruct m as [|[p|p|]|p]; try reflexivity; lia.
Qed.

Lemma shr_iter_m (k : nat) (mrs : shr_record) :
  0 <= shr_m mrs ->
  shr_m (Nat.iter k shr_1 mrs) = Z.shiftr (shr_m mrs) (Z.of_nat k).
Proof.
  intros Hm. induction k as [|k IH].
  - simpl. rewrite Z.shiftr_0_r. reflexivity.
  - change (Nat.iter (S k) shr_1 mrs) with (shr_1 (Nat.iter k shr_1 mrs)).
    rewrite shr_1_m.
    + rewrite IH, Nat2Z.inj_succ, Z.div2_spec, Z.shiftr_shiftr by lia.
      reflexivity.
    + rewrite IH. apply Z.shiftr_nonneg. exact Hm.
Qed.

Lemma shr_record_of_loc_m (m : Z) (l : location) :
  shr_m (shr_record_of_loc m l) = m.
Proof. destruct l as [|[]]; reflexivity. Qed.

(** One normalizing shift keeps a mantissa of normal size positive. *)
Lemma shr_fexp_normal (m e : Z) (l : location) :
  0 < m -> Zdigits2 m + e >= emin F32.prec F32.emax + F32.prec ->
  let '(mrs, e') := shr_fexp F32.prec F32.emax m e l in
  0 < shr_m mrs /\ e <= e' /\ Zdigits2 (shr_m mrs) + e' = Zdigits2 m + e.
Proof.
  intros Hm Hd. unfold shr_fexp, shr, fexp.
  rewrite Z.max_l by lia.
  destruct (Zdigits2 m + e - F32.prec - e) as [|n|n] eqn:Hn;
    rewrite ?shr_record_of_loc_m; try (repeat split; lia).
  rewrite iter_pos_nat, shr_iter_m by (rewrite shr_record_of_loc_m; lia).
  rewrite shr_record_of_loc_m, positive_nat_Z.
  rewrite (Zdigits2_log2 m Hm) in *.
  assert (Hlog : Z.pos n <= Z.log2 m) by (unfold F32.prec in *; lia).
  assert (Hpos : 0 < Z.shiftr m (Z.pos n)).
  { rewrite Z.shiftr_div_pow2 by lia. apply Z.div_str_pos. split; [lia|].
    transitivity (2 ^ Z.log2 m); [apply Z.pow_le_mono_r; lia|].
    apply Z.log2_spec. exact Hm. }
  repeat split; [exact Hpos | lia |].
  rewrite (Zdigits2_log2 _ Hpos), Z.log2_shiftr by lia. lia.
Qed.

Lemma round_nearest_even_ge (m : Z) (l : location) :
  m <= round_nearest_even m l.
Proof. unfold round_nearest_even. destruct l as [|[]]; try lia. destruct (Z.even m); lia. Qed.

Lemma Zdigits2_mono (m n : Z) : 0 < m -> m <= n -> Zdigits2 m <= Zdigits2 n.
Proof.
  intros Hm Hmn. rewrite !Zdigits2_log2 by lia.
  pose proof (Z.log2_le_mono m n Hmn). lia.
Qed.

(** Rounding a positive mantissa of normal size gives a finite float or
    an infinity, never a zero. *)
Lemma binary_round_aux_normal (s : bool) (m e : Z) (l : location) :
  0 < m -> Zdigits2 m + e >= emin F32.prec F32.emax + F32.prec ->
  (exists m' e', binary_round_aux F32.prec F32.emax s m e l = S754_finite s m' e' /\ e <= e')
  \/ binary_round_aux F32.prec F32.emax s m e l = S754_infinity s.
Proof.
  intros Hm Hd. unfold binary_round_aux.
  pose proof (shr_fexp_normal m e l Hm Hd) as H1.
  destruct (shr_fexp F32.prec F32.emax m e l) as [mrs1 e1].
  destruct H1 as (Hm1 & He1 & Hd1).
  pose proof (round_nearest_even_ge (shr_m mrs1) (loc_of_shr_record mrs1)) as Hr.
  set (m1 := round_nearest_even (shr_m mrs1) (loc_of_shr_record mrs1)) in *.
  assert (Hm1' : 0 < m1) by lia.
  pose proof (Zdigits2_mono _ _ Hm1 Hr) as Hmono.
  pose proof (shr_fexp_normal m1 e1 loc_Exact Hm1' ltac:(lia)) as H2.
  destruct (shr_fexp F32.prec F32.emax m1 e1 loc_Exact) as [mrs2 e2].
  destruct H2 as (Hm2 & He2 & Hd2).
  destruct (shr_m mrs2) as [|m2|m2]; try lia.
  destruct (e2 <=? F32.emax - F32.prec); [left|right; reflexivity].
  exists m2, e2. split; [reflexivity | lia].
Qed.

Lemma shl_align_digits (m : positive) (e e' : Z) :
  let '(mz, ez) := shl_align m e e' in
  Zdigits2 (Zpos mz) + ez = Zdigits2 (Zpos m) + e /\ ez <= e.
Proof.
  unfold shl_align. destruct (e' - e) as [|d|d] eqn:Hd; try (split; lia).
  split; [|lia].
  simpl Zdigits2.
  assert (Hiter : forall k p, digits2_pos (Pos.iter xO p k) = (digits2_pos p + k)%positive).
  { intros k. induction k using Pos.peano_ind; intros p.
    - simpl. lia.
    - rewrite Pos.iter_succ. simpl. rewrite IHk. lia. }
  rewrite Hiter. lia.
Qed.

(** [(float) z] of a non-zero [int] is not a zero. *)
Lemma of_int_shape (z : Z) :
  z <> 0 ->
  (exists m e, F32.of_int z = S754_finite (z <? 0) m e /\ -149 <= e)
  \/ F32.of_int z = S754_infinity (z <? 0).
Proof.
  intros Hz.
  assert (Hround : forall s p,
    (exists m e, binary_round F32.prec F32.emax s p 0 = S754_finite s m e /\ -149 <= e)
    \/ binary_round F32.prec F32.emax s p 0 = S754_infinity s).
  { intros s p. unfold binary_round.
    pose proof (shl_align_digits p 0 (fexp F32.prec F32.emax (Z.pos (digits2_pos p) + 0))) as Hal.
    destruct (shl_align p 0 _) as [mz ez] eqn:Heq.
    destruct Hal as [Hdig Hez].
    assert (Hez' : -149 <= ez).
    { unfold shl_align in Heq.
      destruct (fexp F32.prec F32.emax (Z.pos (digits2_pos p) + 0) - 0) eqn:Hf;
        inversion Heq; subst; try lia.
      unfold fexp, emin, F32.prec, F32.emax in *. lia. }
    destruct (binary_round_aux_normal s (Zpos mz) ez loc_Exact) as [(m' & e' & -> & He)| ->].
    - lia.
    - simpl Zdigits2 in *. unfold emin, F32.prec, F32.emax. lia.
    - left. exists m', e'. split; [reflexivity|lia].
    - right. reflexivity. }
  destruct z as [|p|p]; [congruence| |]; apply Hround.
Qed.

Lemma of_int_nonzero (z : Z) :
  z <> 0 -> F32.eqb (F32.of_int z) F32.zero = false.
Proof.
  intros Hz.
  destruct (of_int_shape z Hz) as [(m & e & -> & _)| ->];
    destruct (z <? 0); reflexivity.
Qed.

(** The square root of a positive [int] is not a zero. *)
Lemma sqrt_of_int_nonzero (z : Z) :
  0 < z -> F32.eqb (F32.sqrt (F32.of_int z)) (F32.of_int 0) = false.
Proof.
  intros Hz.
  destruct (of_int_shape z ltac:(lia)) as [(m & e & -> & He)| ->];
    (replace (z <? 0) with false by lia); [|reflexivity].
  unfold F32.sqrt, SFsqrt, SFsqrt_core_binary.
  set (e' := Z.min _ _).
  assert (He' : -126 <= e' /\ 2 * e' <= e).
  { subst e'. unfold fexp, emin, F32.prec, F32.emax.
    rewrite !Z.div2_div. simpl Zdigits2.
    pose proof (Z.div_mod e 2 ltac:(lia)).
    pose proof (Z.mod_pos_bound e 2 ltac:(lia)).
    pose proof (Z.div_mod (Z.pos (digits2_pos m) + e + 1) 2 ltac:(lia)).
    pose proof (Z.mod_pos_bound (Z.pos (digits2_pos m) + e + 1) 2 ltac:(lia)).
    lia. }
  set (m' := match e - 2 * e' with Z0 => Z.pos m | Zpos _ => Z.shiftl (Z.pos m) (e - 2 * e') | Zneg _ => 0 end).
  assert (Hm' : 0 < m').
  { subst m'. destruct (e - 2 * e') eqn:Hs; try lia.
    rewrite Z.shiftl_mul_pow2 by lia. apply Z.mul_pos_pos; lia. }
  destruct (Z.sqrtrem m') as [q r0] eqn:Hq.
  assert (Hqpos : 0 < q).
  { pose proof (Z.sqrtrem_sqrt m') as Hs. rewrite Hq in Hs. simpl in Hs. subst q.
    apply Z.sqrt_pos. exact Hm'. }
  match goal with
  | |- F32.eqb (binary_round_aux _ _ _ _ _ ?l) _ = false =>
      destruct (binary_round_aux_normal false q e' l) as [(m2 & e2 & -> & _)| ->]
  end; try reflexivity; try lia.
  pose proof (Zdigits2_log2 q Hqpos). pose proof (Z.log2_nonneg q).
  unfold emin, F32.prec, F32.emax. lia.
Qed.

End F32Facts.

(** ** Filled triangles *)

Lemma for_loop_total {S : Type} (body : Z -> S -> exec S) :
  (forall i s, exists s', body i s = Ret s') ->
  forall n i s, exists s', for_loop n i body s = Ret s'.
Proof.
  intros Hbody n. induction n as [|n IH]; intros i s; simpl; [eauto|].
  destruct (Hbody i s) as [s' ->]. simpl. apply IH.
Qed.

Lemma fdiv_checked_of_int (num : float) (d : Z) :
  d <> 0 -> fdiv_checked num (F32.of_int d) = Ret (F32.div num (F32.of_int d)).
Proof.
  intros Hd. unfold fdiv_checked. rewrite F32Facts.of_int_nonzero by exact Hd.
  reflexivity.
Qed.

(** C2: [renderer_draw_filled_triangle] returns for every triple of
    vertices and every color without a division by zero, each of its
    divisions having a non-zero divisor, and when the three vertices are one
    point it returns the renderer unchanged. *)
Theorem filled_triangle_no_division_by_zero (rend : Renderer)
    (x1 y1 x2 y2 x3 y3 : Z) (color : Color) :
  (exists rend',
     renderer_draw_filled_triangle rend x1 y1 x2 y2 x3 y3 color = Ret rend') /\
  renderer_draw_filled_triangle rend x1 y1 x2 y2 x3 y3 color
    <> Fault DivideByZero /\
  renderer_draw_filled_triangle rend x1 y1 x1 y1 x1 y1 color = Ret rend.
Proof.
  assert (Hret : exists rend',
     renderer_draw_filled_triangle rend x1 y1 x2 y2 x3 y3 color = Ret rend').
  { unfold renderer_draw_filled_triangle.
    destruct (y1 >? y2);
      match goal with
      | |- context [if ?a >? ?b then _ else _] => destruct (a >? b)
      end;
      match goal with
      | |- context [if ?a >? ?b then _ else _] => destruct (a >? b)
      end;
      match goal with
      | |- context [if ?t =? 0 then Ret rend else _] =>
          destruct (Z.eqb_spec t 0) as [Hth|Hth]; [eauto|]
      end;
      unfold for_range; apply for_loop_total; intros y s;
      match goal with
      | |- context [if ?t =? 0 then Ret s else _] =>
          destruct (Z.eqb_spec t 0) as [Hseg|Hseg]; [eauto|]
      end;
      rewrite !fdiv_checked_of_int by assumption; simpl bind;
      match goal with
      | |- context [if ?a >? ?b then (?b, ?a) else (?a, ?b)] =>
          destruct (a >? b)
      end; eauto. }
  split; [exact Hret|]. split.
  - destruct Hret as [rend' ->]. discriminate.
  - unfold renderer_draw_filled_triangle.
    do 3 (destruct (y1 >? y1); cbv beta iota zeta).
    all: rewrite Z.sub_diag; reflexivity.
Qed.

(** ** Thick lines *)

Lemma draw_line_calls_app (color : Color) (l1 l2 : list line_call) :
  forall rend,
    draw_line_calls rend (l1 ++ l2) color =
    (rend' <- draw_line_calls rend l1 color ;; draw_line_calls rend' l2 color).
Proof.
  induction l1 as [|c l1 IH]; intros rend; simpl; [reflexivity|].
  destruct (draw_line_call rend c color) as [rend'|f]; simpl; [apply IH|reflexivity].
Qed.

Lemma thick_line_step_as_calls (x1 y1 x2 y2 t : Z) (color : Color) (rend : Renderer) :
  thick_line_step x1 y1 x2 y2 color t rend =
  draw_line_calls rend (thick_line_step_calls x1 y1 x2 y2 t) color.
Proof.
  unfold thick_line_step, thick_line_step_calls.
  destruct (F32.eqb _ _); simpl; [reflexivity|].
  destruct (renderer_draw_line _ _ _ _ _ _); reflexivity.
Qed.

Lemma seqZ_succ (i : Z) (n : nat) :
  seqZ i (Z.of_nat (S n)) = i :: seqZ (i + 1) (Z.of_nat n).
Proof.
  rewrite seqZ_cons by lia. f_equal. f_equal; lia.
Qed.

Lemma thick_line_loop_calls (x1 y1 x2 y2 : Z) (color : Color) (n : nat) :
  forall i rend,
    for_loop n i (thick_line_step x1 y1 x2 y2 color) rend =
    draw_line_calls rend
      (concat (map (thick_line_step_calls x1 y1 x2 y2) (seqZ i (Z.of_nat n))))
      color.
Proof.
  induction n as [|n IH]; intros i rend; [reflexivity|].
  rewrite seqZ_succ. cbn [for_loop map concat].
  rewrite draw_line_calls_app, thick_line_step_as_calls.
  destruct (draw_line_calls rend _ color) as [rend'|f]; simpl; [apply IH|reflexivity].
Qed.

Lemma seqZ_to_nat (m n : Z) : seqZ m (Z.of_nat (Z.to_nat n)) = seqZ m n.
Proof. unfold seqZ. rewrite Nat2Z.id. reflexivity. Qed.

(** [renderer_draw_thick_line] makes the calls of [thick_line_calls]. *)
Lemma draw_thick_line_calls (rend : Renderer) (x1 y1 x2 y2 thickness : Z)
    (color : Color) :
  renderer_draw_thick_line rend x1 y1 x2 y2 thickness color =
  draw_line_calls rend (thick_line_calls x1 y1 x2 y2 thickness) color.
Proof.
  unfold renderer_draw_thick_line, for_range, thick_line_calls.
  rewrite thick_line_loop_calls, seqZ_to_nat. reflexivity.
Qed.

Lemma thick_line_step_calls_distinct (x1 y1 x2 y2 thickness t : Z) :
  thick_line_in_range x1 y1 x2 y2 thickness ->
  Z.abs t <= Z.abs (Z.quot thickness 2) ->
  (x1, y1) <> (x2, y2) ->
  thick_line_step_calls x1 y1 x2 y2 t = [offset_line x1 y1 x2 y2 t].
Proof.
  intros (Hx1 & Hy1 & Hx2 & Hy2 & Hth & Hsq & Hqy & Hqx) Ht Hne.
  unfold thick_line_step_calls, offset_line.
  pose proof (Z.square_nonneg (y2 - y1)). pose proof (Z.square_nonneg (x2 - x1)).
  assert (Hdy : Z.abs (y2 - y1) <= 46340) by nia.
  assert (Hdx : Z.abs (x2 - x1) <= 46340) by nia.
  assert (Htq : Z.abs (Z.quot thickness 2) <= 2 ^ 30).
  { rewrite <- Z.quot_abs by lia. apply Z.quot_le_upper_bound; lia. }
  unfold isub, ineg.
  rewrite (wrap_id (y2 - y1)), (wrap_id (x2 - x1)), (wrap_id (- t))
    by (unfold is_int; lia).
  unfold imul.
  rewrite (wrap_id ((y2 - y1) * (y2 - y1))), (wrap_id ((x2 - x1) * (x2 - x1)))
    by (unfold is_int; nia).
  rewrite (wrap_id (t * (y2 - y1))), (wrap_id (- t * (x2 - x1)))
    by (unfold is_int; nia).
  change (iadd ((y2 - y1) * (y2 - y1)) ((x2 - x1) * (x2 - x1)))
    with (wrap ((y2 - y1) * (y2 - y1) + (x2 - x1) * (x2 - x1))).
  rewrite (wrap_id ((y2 - y1) * (y2 - y1) + (x2 - x1) * (x2 - x1)))
    by (unfold is_int; nia).
  rewrite F32Facts.sqrt_of_int_nonzero; [reflexivity|].
  destruct (decide (x1 = x2)) as [Hx|Hx].
  - assert (Hy : y2 - y1 <> 0) by (intros Hy; apply Hne; f_equal; lia).
    assert (0 < (y2 - y1) * (y2 - y1)) by nia. lia.
  - assert (0 < (x2 - x1) * (x2 - x1)) by nia. lia.
Qed.

Lemma thick_line_step_calls_point (x y t : Z) :
  thick_line_step_calls x y x y t = [].
Proof. unfold thick_line_step_calls, isub. rewrite !Z.sub_diag. reflexivity. Qed.

Lemma concat_map_singleton {A B : Type} (f : A -> B) (l : list A) :
  concat (map (fun x => [f x]) l) = map f l.
Proof. induction l as [|x l IH]; simpl; congruence. Qed.

Lemma concat_map_nil {A B : Type} (l : list A) :
  concat (map (fun _ : A => @nil B) l) = [].
Proof. induction l as [|x l IH]; simpl; congruence. Qed.

Lemma draw_line_calls_total (color : Color) (calls : list line_call) :
  Forall line_call_in_range calls ->
  forall rend, exists rend', draw_line_calls rend calls color = Ret rend'.
Proof.
  induction calls as [|[[[cx1 cy1] cx2] cy2] calls IH]; intros Hall rend;
    simpl; [eauto|].
  apply Forall_cons in Hall as [Hc Hall].
  destruct (renderer_draw_line_total rend cx1 cy1 cx2 cy2 color Hc) as [rend1 ->].
  simpl. apply IH. exact Hall.
Qed.

(** C5, as the code has it: between distinct endpoints, with a squared
    length and offsets that fit an [int], [renderer_draw_thick_line] calls
    [renderer_draw_line] once for each [k] from [-(thickness/2)] to
    [thickness/2] (the division of C), on the base line moved by [k] units
    along the perpendicular of its direction, each coordinate of the move
    cut to an integer: [2*(thickness/2)+1] calls, which is [thickness] when
    [thickness] is positive and odd and [thickness + 1] when it is even and
    not negative.  It returns when these calls are in the range of
    [renderer_draw_line].  For a line of length zero it draws nothing. *)
Theorem thick_line_offset_copies (rend : Renderer) (x1 y1 x2 y2 thickness : Z)
    (color : Color) :
  thick_line_in_range x1 y1 x2 y2 thickness ->
  (x1, y1) <> (x2, y2) ->
  let q := Z.quot thickness 2 in
  let calls := map (offset_line x1 y1 x2 y2) (seqZ (- q) (2 * q + 1)) in
  thick_line_calls x1 y1 x2 y2 thickness = calls /\
  renderer_draw_thick_line rend x1 y1 x2 y2 thickness color
    = draw_line_calls rend calls color /\
  (Forall line_call_in_range calls ->
   exists rend',
     renderer_draw_thick_line rend x1 y1 x2 y2 thickness color = Ret rend') /\
  length calls = Z.to_nat (2 * q + 1) /\
  (0 < thickness -> Z.odd thickness = true -> length calls = Z.to_nat thickness) /\
  (0 <= thickness -> Z.even thickness = true ->
   length calls = Z.to_nat (thickness + 1)) /\
  thick_line_calls x1 y1 x1 y1 thickness = [] /\
  renderer_draw_thick_line rend x1 y1 x1 y1 thickness color = Ret rend.
Proof.
  intros Hrange Hne q calls.
  assert (Hneg : ineg thickness = - thickness).
  { destruct Hrange as (_ & _ & _ & _ & Hth & _).
    unfold ineg. apply wrap_id. unfold is_int. lia. }
  assert (Hcalls : thick_line_calls x1 y1 x2 y2 thickness = calls).
  { unfold thick_line_calls. rewrite Hneg.
    rewrite Z.quot_opp_l by lia. fold q.
    replace (q + 1 - - q) with (2 * q + 1) by lia.
    subst calls.
    rewrite <- (concat_map_singleton (offset_line x1 y1 x2 y2)).
    f_equal. apply map_ext_in. intros t Ht.
    apply list_elem_of_In, elem_of_seqZ in Ht.
    apply (thick_line_step_calls_distinct x1 y1 x2 y2 thickness);
      [exact Hrange | fold q; lia | exact Hne]. }
  assert (Hlen : length calls = Z.to_nat (2 * q + 1)).
  { subst calls. rewrite length_map, length_seqZ. reflexivity. }
  assert (Hpoint : thick_line_calls x1 y1 x1 y1 thickness = []).
  { unfold thick_line_calls.
    rewrite (map_ext _ (fun _ => [])) by (intros t; apply thick_line_step_calls_point).
    apply concat_map_nil. }
  repeat split.
  - exact Hcalls.
  - rewrite draw_thick_line_calls, Hcalls. reflexivity.
  - intros Hall. rewrite draw_thick_line_calls, Hcalls.
    apply draw_line_calls_total. exact Hall.
  - exact Hlen.
  - intros Hpos Hodd. rewrite Hlen. f_equal. subst q.
    rewrite Z.quot_div_nonneg by lia.
    pose proof (Zmod_odd thickness) as Hm. rewrite Hodd in Hm.
    pose proof (Z.div_mod thickness 2 ltac:(lia)). lia.
  - intros Hpos Heven. rewrite Hlen. f_equal. subst q.
    rewrite Z.quot_div_nonneg by lia.
    pose proof (Zmod_even thickness) as Hm. rewrite Heven in Hm.
    pose proof (Z.div_mod thickness 2 ltac:(lia)). lia.
  - exact Hpoint.
  - rewrite draw_thick_line_calls, Hpoint. reflexivity.
Qed.

Lemma thick_line_offset_copies_witness :
  thick_line_calls 0 0 3 0 3 = [(0, 1, 3, 1); (0, 0, 3, 0); (0, -1, 3, -1)] /\
  renderer_draw_thick_line sample_renderer 0 0 3 0 3 (color_make 255 255 255 255)
  = draw_line_calls sample_renderer
      [(0, 1, 3, 1); (0, 0, 3, 0); (0, -1, 3, -1)] (color_make 255 255 255 255).
Proof.
  destruct (thick_line_offset_copies sample_renderer 0 0 3 0 3
              (color_make 255 255 255 255)) as (Hcalls & Hdraw & _).
  - unfold thick_line_in_range, is_int.
    repeat split; vm_compute; first [discriminate | reflexivity].
  - discriminate.
  - split; [exact Hcalls | exact Hdraw].
Defined.

(** C5 as stated fails: with thickness 2 the line from [(0,0)] to [(3,0)]
    is drawn three times, at the offsets 1, 0 and -1. *)
Lemma thick_line_even_thickness_counterexample :
  thick_line_calls 0 0 3 0 2 = [(0, 1, 3, 1); (0, 0, 3, 0); (0, -1, 3, -1)] /\
  length (thick_line_calls 0 0 3 0 2) <> Z.to_nat 2.
Proof. split; [vm_compute; reflexivity | vm_compute; lia]. Qed.

(** Beyond the range the [int] arithmetic of the code wraps around: the
    squared length of the line from [(0,0)] to [(50000,0)] is negative, its
    root is not a number, and the call is made at [INT_MIN]; the squared
    length of the line to [(65536,0)] is 0, and the line is skipped. *)
Example thick_line_long_line_wraps :
  thick_line_calls 0 0 50000 0 1
  = [(-2147483648, -2147483648, -2147433648, -2147483648)] /\
  thick_line_calls 0 0 65536 0 1 = [].
Proof. split; vm_compute; reflexivity. Qed.

(** ** Vectors *)

(** C8: [vec3_normalize] of the zero vector returns the zero vector, no
    component of which is a NaN; for every input the function returns, and
    never divides by zero. *)
Theorem vec3_normalize_zero_vector :
  vec3_normalize (vec3_make F32.zero F32.zero F32.zero)
  = Ret (vec3_make F32.zero F32.zero F32.zero) /\
  (forall sx sy sz,
     vec3_normalize (vec3_make (S754_zero sx) (S754_zero sy) (S754_zero sz))
     = Ret (vec3_make F32.zero F32.zero F32.zero)) /\
  F32.is_nan F32.zero = false /\
  (forall v, exists n, vec3_normalize v = Ret n) /\
  (forall v, vec3_normalize v <> Fault DivideByZero).
Proof.
  assert (Htotal : forall v, exists n, vec3_normalize v = Ret n).
  { intros v. unfold vec3_normalize.
    change (F32.of_int 0) with F32.zero.
    destruct (F32.eqb _ F32.zero) eqn:Hlen; [eauto|].
    unfold fdiv_checked. rewrite Hlen. simpl. eauto. }
  repeat split.
  - intros sx sy sz. destruct sx, sy, sz; reflexivity.
  - exact Htotal.
  - intros v. destruct (Htotal v) as [n ->]. discriminate.
Qed.

(** ** Drawing an image that failed to load *)

(** C10: with a null [Image] pointer, which is what [image_load_bmp]
    returns when it fails, [renderer_draw_image] and
    [renderer_draw_textured_triangle] return the renderer as it was, the
    framebuffer and every other field, for every renderer state and all
    coordinates and texture coordinates. *)
Theorem draw_null_image_is_noop (rend : Renderer) (x y : Z)
    (x1 y1 x2 y2 x3 y3 : Z) (u1 v1 u2 v2 u3 v3 : float) :
  renderer_draw_image rend None x y = rend /\
  renderer_draw_textured_triangle rend x1 y1 x2 y2 x3 y3 u1 v1 u2 v2 u3 v3 None
  = Ret rend.
Proof. split; reflexivity. Qed.

(** ** Projection to the screen *)

(** Rounding leaves a mantissa of 24 bits as it is. *)
Lemma binary_round_aux_canonical (s : bool) (M : positive) (e : Z) :
  digits2_pos M = 24%positive -> -149 <= e <= 104 ->
  binary_round_aux F32.prec F32.emax s (Zpos M) e loc_Exact = S754_finite s M e.
Proof.
  intros Hd He. unfold binary_round_aux.
  assert (Hshr : forall l, l = loc_Exact ->
            shr_fexp F32.prec F32.emax (Z.pos M) e l
            = (Build_shr_record (Z.pos M) false false, e)).
  { intros l ->. unfold shr_fexp, shr, fexp, emin. simpl Zdigits2. rewrite Hd.
    unfold F32.prec, F32.emax.
    replace (Z.max (24 + e - 24) (3 - 128 - 24) - e) with 0 by lia.
    reflexivity. }
  rewrite (Hshr loc_Exact eq_refl). cbn [shr_m loc_of_shr_record round_nearest_even].
  rewrite (Hshr loc_Exact eq_refl). cbn [shr_m].
  replace (e <=? F32.emax - F32.prec) with true
    by (unfold F32.prec, F32.emax; lia).
  reflexivity.
Qed.

Lemma digits2_iter_xO (k p : positive) :
  digits2_pos (Pos.iter xO p k) = (digits2_pos p + k)%positive.
Proof.
  revert p. induction k using Pos.peano_ind; intros p.
  - simpl. lia.
  - rewrite Pos.iter_succ. simpl. rewrite IHk. lia.
Qed.

Lemma iter_xO_val (k p : positive) :
  Zpos (Pos.iter xO p k) = Zpos p * 2 ^ Zpos k.
Proof.
  revert p. induction k using Pos.peano_ind; intros p.
  - simpl. lia.
  - rewrite Pos.iter_succ, Pos2Z.inj_xO, IHk, Pos2Z.inj_succ, Z.pow_succ_r by lia.
    ring.
Qed.

(** An [int] below [2^24] converts to a float exactly. *)
Lemma of_int_exact (w : Z) :
  0 < w < 2 ^ 24 ->
  exists M e,
    F32.of_int w = S754_finite false M e /\ digits2_pos M = 24%positive /\
    -23 <= e <= 0 /\ Zpos M = w * 2 ^ (- e).
Proof.
  intros Hw. destruct w as [|p|p]; try lia.
  unfold F32.of_int, binary_normalize, binary_round.
  assert (Hdig : 1 <= Zpos (digits2_pos p) <= 24).
  { split; [lia|].
    pose proof (F32Facts.Zdigits2_log2 (Z.pos p) ltac:(lia)) as Hl.
    simpl Zdigits2 in Hl. rewrite Hl.
    assert (Z.log2 (Z.pos p) < 24) by (apply Z.log2_lt_pow2; lia). lia. }
  unfold shl_align.
  set (ez := fexp F32.prec F32.emax (Z.pos (digits2_pos p) + 0)).
  assert (Hez : ez = Z.pos (digits2_pos p) - 24).
  { subst ez. unfold fexp, emin, F32.prec, F32.emax. lia. }
  replace (ez - 0) with ez by lia.
  destruct ez as [|k|k] eqn:Hk; try lia.
  - rewrite binary_round_aux_canonical by lia.
    exists p, 0. repeat split; try lia.
  - rewrite binary_round_aux_canonical
      by (rewrite ?digits2_iter_xO; lia).
    exists (Pos.iter xO p k), (Z.neg k). repeat split; try lia.
    + rewrite digits2_iter_xO. lia.
    + rewrite iter_xO_val. reflexivity.
Qed.

(** Halving a float of 24 bits lowers its exponent by one. *)
Lemma mul_half_exact (s : bool) (M : positive) (e : Z) :
  digits2_pos M = 24%positive -> -148 <= e <= 104 ->
  F32.mul F32.half (S754_finite s M e) = S754_finite s M (e - 1).
Proof.
  intros Hd He. unfold F32.mul, F32.half, SFmul.
  cbn [xorb].
  change (8388608 * M)%positive
    with (M~0~0~0~0~0~0~0~0~0~0~0~0~0~0~0~0~0~0~0~0~0~0~0)%positive.
  unfold binary_round_aux.
  assert (Hshr : shr_fexp F32.prec F32.emax
                   (Z.pos M~0~0~0~0~0~0~0~0~0~0~0~0~0~0~0~0~0~0~0~0~0~0~0)
                   (-24 + e) loc_Exact
                 = (Build_shr_record (Z.pos M) false false, -24 + e + 23)).
  { unfold shr_fexp, fexp, emin. cbn [Zdigits2 digits2_pos]. rewrite Hd.
    unfold F32.prec, F32.emax.
    match goal with
    | |- shr _ _ ?n = _ => replace n with 23 by lia
    end.
    reflexivity. }
  rewrite Hshr. cbn [shr_m loc_of_shr_record round_nearest_even].
  assert (Hshr2 : shr_fexp F32.prec F32.emax (Z.pos M) (-24 + e + 23) loc_Exact
                  = (Build_shr_record (Z.pos M) false false, -24 + e + 23)).
  { unfold shr_fexp, shr, fexp, emin. simpl Zdigits2. rewrite Hd.
    unfold F32.prec, F32.emax.
    match goal with
    | |- match ?n with _ => _ end = _ => replace n with 0 by lia
    end.
    reflexivity. }
  rewrite Hshr2. cbn [shr_m].
  replace (-24 + e + 23 <=? F32.emax - F32.prec) with true
    by (unfold F32.prec, F32.emax; lia).
  f_equal. lia.
Qed.

(** Half of a screen dimension that a float holds exactly: the quotient
    of the division of C by 2. *)
Lemma half_of_int (w : Z) :
  0 <= w <= 2 ^ 24 ->
  F32.to_int (F32.mul F32.half (F32.of_int w)) = Z.quot w 2.
Proof.
  intros Hw.
  destruct (Z.eq_dec w 0) as [->|Hw0]; [reflexivity|].
  destruct (Z.eq_dec w (2 ^ 24)) as [->|Hw24]; [vm_compute; reflexivity|].
  destruct (of_int_exact w ltac:(lia)) as (M & e & -> & Hd & He & HM).
  rewrite mul_half_exact by (assumption || lia).
  unfold F32.to_int.
  assert (Hmag : Z.shiftl (Z.pos M) (e - 1) = w / 2).
  { replace (e - 1) with (- (1 - e)) by lia.
    rewrite Z.shiftl_opp_r, Z.shiftr_div_pow2 by lia.
    rewrite HM. replace (1 - e) with (- e + 1) by lia.
    rewrite Z.pow_add_r by lia. change (2 ^ 1) with 2.
    rewrite (Z.mul_comm w), Z.div_mul_cancel_l by lia. reflexivity. }
  rewrite Hmag. rewrite Z.quot_div_nonneg by lia.
  assert (Hrange : 0 <= w / 2 < 2 ^ 23).
  { split; [apply Z.div_pos; lia|].
    apply Z.div_lt_upper_bound; [lia|]. change (2 * 2 ^ 23) with (2 ^ 24). lia. }
  unfold F32.INT_MIN, F32.INT_MAX.
  destruct (Z.ltb_spec (w / 2) (- 2 ^ 31)); [lia|].
  destruct (Z.ltb_spec (2 ^ 31 - 1) (w / 2)); [lia|].
  reflexivity.
Qed.

(** C9, as the code has it: [renderer_project_point] maps the normalized
    device coordinates of the transformed point to the screen by
    [(int)((ndcX + 1) * 0.5 * width)] and [(int)((1 - ndcY) * 0.5 * height)],
    in single precision; and on a renderer whose width and height are at
    most [2^24], so that a float holds them exactly, the origin under
    [mat4_identity ()] goes to [(width / 2, height / 2)], the divisions
    being those of C. *)
Theorem project_point_screen_mapping (rend : Renderer) (point : Vec3)
    (transform : Mat4) :
  0 <= width rend <= 2 ^ 24 -> 0 <= height rend <= 2 ^ 24 ->
  (let ndc := mat4_mul_vec3 transform point F32.one in
   renderer_project_point rend point transform =
   (F32.to_int (F32.mul (F32.mul (F32.add (x ndc) F32.one) F32.half)
                  (F32.of_int (width rend))),
    F32.to_int (F32.mul (F32.mul (F32.sub F32.one (y ndc)) F32.half)
                  (F32.of_int (height rend))),
    z ndc)) /\
  renderer_project_point rend (vec3_make F32.zero F32.zero F32.zero)
    mat4_identity
  = (Z.quot (width rend) 2, Z.quot (height rend) 2, F32.zero).
Proof.
  intros Hw Hh. split; [reflexivity|].
  unfold renderer_project_point.
  set (ndc := mat4_mul_vec3 mat4_identity (vec3_make F32.zero F32.zero F32.zero) F32.one).
  assert (Hndc : ndc = mkVec3 F32.zero F32.zero F32.zero) by (vm_compute; reflexivity).
  rewrite Hndc. cbn [x y z].
  replace (F32.mul (F32.add F32.zero F32.one) F32.half) with F32.half
    by (vm_compute; reflexivity).
  replace (F32.mul (F32.sub F32.one F32.zero) F32.half) with F32.half
    by (vm_compute; reflexivity).
  rewrite !half_of_int by assumption. reflexivity.
Qed.

Lemma project_point_screen_mapping_witness :
  renderer_project_point sample_renderer
    (vec3_make F32.zero F32.zero F32.zero) mat4_identity
  = (1, 1, F32.zero).
Proof.
  apply (project_point_screen_mapping sample_renderer
           (vec3_make F32.zero F32.zero F32.zero) mat4_identity);
    simpl; lia.
Defined.

(** C9 as stated fails for a width that a float does not hold: at width
    [2^24 + 3] the origin goes to column 8388610, not to
    [(2^24 + 3) / 2 = 8388609]. *)
Lemma project_point_center_counterexample :
  let rend := mkRenderer (replicate (Z.to_nat 16777219) 0) 16777219 1 true in
  fst (fst (renderer_project_point rend
              (vec3_make F32.zero F32.zero F32.zero) mat4_identity))
  = 8388610 /\
  Z.quot (width rend) 2 = 8388609 /\
  renderer_project_point rend (vec3_make F32.zero F32.zero F32.zero)
    mat4_identity
  <> (Z.quot (width rend) 2, Z.quot (height rend) 2, F32.zero).
Proof.
  split; [lazy; reflexivity|]. split; [lazy; reflexivity|].
  lazy. discriminate.
Qed.

(** ** The BMP decoder *)

Lemma bmp_header_whole (mem : garbage) (content : list byte) :
  (54 <= length content)%nat ->
  bmp_header mem content = (take 54 content, drop 54 content).
Proof.
  intros Hlen. unfold bmp_header, fread. f_equal.
  rewrite length_take, Nat.min_l by exact Hlen.
  rewrite drop_ge; [apply app_nil_r|].
  unfold uninit. rewrite length_map, length_seq. lia.
Qed.

Lemma iter_loop_invariant {St : Type} (P : Z -> St -> Prop) (body : Z -> St -> St)
    (n : nat) :
  forall i s,
    P i s ->
    (forall j t, i <= j < i + Z.of_nat n -> P j t -> P (j + 1) (body j t)) ->
    P (i + Z.of_nat n) (iter_loop n i body s).
Proof.
  induction n as [|n IH]; intros i s Hs Hstep.
  - simpl. rewrite Z.add_0_r. exact Hs.
  - cbn [iter_loop]. replace (i + Z.of_nat (S n)) with (i + 1 + Z.of_nat n) by lia.
    apply IH.
    + apply Hstep; [lia | exact Hs].
    + intros j t Hj. apply Hstep. lia.
Qed.

Lemma iter_range_invariant {St : Type} (P : Z -> St -> Prop) (body : Z -> St -> St)
    (lo hi : Z) (s : St) :
  lo <= hi -> P lo s ->
  (forall j t, lo <= j < hi -> P j t -> P (j + 1) (body j t)) ->
  P hi (iter_range lo hi body s).
Proof.
  intros Hle Hs Hstep. unfold iter_range.
  replace hi with (lo + Z.of_nat (Z.to_nat (hi - lo))) at 1 by lia.
  apply iter_loop_invariant; [exact Hs|].
  intros j t Hj. apply Hstep. lia.
Qed.

Lemma load_store (buf : list Z) (i j v : Z) :
  0 <= i -> 0 <= j -> (Z.to_nat i < length buf)%nat ->
  load (store buf i v) j = if j =? i then v else load buf j.
Proof.
  intros Hi Hj Hlen. destruct (Z.eqb_spec j i) as [->|Hne].
  - apply load_store_same. exact Hlen.
  - apply load_store_other. lia.
Qed.

Lemma length_store (buf : list Z) (i v : Z) : length (store buf i v) = length buf.
Proof. apply length_insert. Qed.

Lemma for_loop_invariant {St : Type} (P : Z -> St -> Prop)
    (body : Z -> St -> exec St) (n : nat) :
  forall i s,
    P i s ->
    (forall j t, i <= j < i + Z.of_nat n -> P j t ->
       exists t', body j t = Ret t' /\ P (j + 1) t') ->
    exists s', for_loop n i body s = Ret s' /\ P (i + Z.of_nat n) s'.
Proof.
  induction n as [|n IH]; intros i s Hs Hstep.
  - exists s. simpl. rewrite Z.add_0_r. split; [reflexivity | exact Hs].
  - cbn [for_loop].
    destruct (Hstep i s ltac:(lia) Hs) as (t & Ht & HP).
    rewrite Ht. cbn [bind].
    replace (i + Z.of_nat (S n)) with (i + 1 + Z.of_nat n) by lia.
    apply IH; [exact HP|]. intros j u Hj. apply Hstep. lia.
Qed.

(** A [for] loop whose body keeps an invariant, and returns where the
    invariant holds, returns. *)
Lemma for_range_invariant {St : Type} (P : Z -> St -> Prop)
    (body : Z -> St -> exec St) (lo hi : Z) (s : St) :
  lo <= hi -> P lo s ->
  (forall j t, lo <= j < hi -> P j t ->
     exists t', body j t = Ret t' /\ P (j + 1) t') ->
  exists s', for_range lo hi body s = Ret s' /\ P hi s'.
Proof.
  intros Hle Hs Hstep. unfold for_range.
  destruct (for_loop_invariant P body (Z.to_nat (hi - lo)) lo s Hs)
    as (s' & Hrun & HP).
  - intros j t Hj. apply Hstep. lia.
  - exists s'. split; [exact Hrun|].
    replace hi with (lo + Z.of_nat (Z.to_nat (hi - lo))) by lia. exact HP.
Qed.

Lemma length_uninit {A : Type} (content : nat -> A) (n : nat) :
  length (uninit content n) = n.
Proof. unfold uninit. rewrite length_map, length_seq. reflexivity. Qed.

Lemma fread_whole (buf : list byte) (n : nat) (file : list byte) :
  length buf = n -> (n <= length file)%nat ->
  fread buf n file = (take n file, drop n file).
Proof.
  intros Hbuf Hfile. unfold fread. f_equal.
  rewrite length_take_le by exact Hfile.
  rewrite drop_ge by lia. apply app_nil_r.
Qed.

Lemma byte_at_take_drop (data : list byte) (k n : nat) (j : Z) :
  0 <= j < Z.of_nat n ->
  byte_at (take n (drop k data)) j = byte_at data (Z.of_nat k + j).
Proof.
  intros Hj. unfold byte_at.
  rewrite lookup_take_lt by lia. rewrite lookup_drop.
  replace (Z.to_nat (Z.of_nat k + j)) with (k + Z.to_nat j)%nat by lia.
  reflexivity.
Qed.

Lemma bmp_index_range (height w h y x : Z) :
  0 <= y < h -> 0 <= x < w -> 0 <= bmp_index height w h y x < w * h.
Proof. intros Hy Hx. unfold bmp_index. destruct (height >? 0); nia. Qed.

Lemma bmp_index_inj (height w h y x y' x' : Z) :
  0 <= y < h -> 0 <= x < w -> 0 <= y' < h -> 0 <= x' < w ->
  bmp_index height w h y x = bmp_index height w h y' x' -> y = y' /\ x = x'.
Proof.
  intros Hy Hx Hy' Hx'. unfold bmp_index.
  destruct (height >? 0); intros Heq.
  - assert (y = y') by nia. subst. split; [reflexivity|lia].
  - assert (y = y') by nia. subst. split; [reflexivity|lia].
Qed.

(** Removes the wrap-around of the [int] operations of a goal whose
    operands are in range, innermost operation first. *)
Ltac unwrap_ints :=
  unfold iadd, isub, imul, ineg, iabs;
  repeat match goal with
  | |- context [wrap ?z] =>
      lazymatch z with
      | context [wrap _] => fail
      | _ => rewrite (wrap_id z) by (unfold is_int in *; nia)
      end
  end.

Lemma read_byte_in (buf : list byte) (i : Z) :
  0 <= i < Z.of_nat (length buf) ->
  read_byte (Some buf) i = Ret (byte_at buf i).
Proof.
  intros Hi. unfold read_byte.
  replace ((0 <=? i) && (i <? Z.of_nat (length buf))) with true; [reflexivity|].
  symmetry. apply andb_true_iff. split; [apply Z.leb_le | apply Z.ltb_lt]; lia.
Qed.

Lemma write_word_in (buf : list Z) (i v : Z) :
  0 <= i < Z.of_nat (length buf) ->
  write_word (Some buf) i v = Ret (Some (store buf i v)).
Proof.
  intros Hi. unfold write_word.
  replace ((0 <=? i) && (i <? Z.of_nat (length buf))) with true; [reflexivity|].
  symmetry. apply andb_true_iff. split; [apply Z.leb_le | apply Z.ltb_lt]; lia.
Qed.

(** Inside [int], the row size is the row in bytes rounded up to a multiple
    of 4. *)
Lemma bmp_row_size_exact (bpp w : Z) :
  0 <= bpp -> 0 <= w -> bpp * w + 31 <= 2 ^ 31 - 1 ->
  bmp_row_size bpp w = (bpp * w + 31) / 32 * 4.
Proof.
  intros Hbpp Hw Hfit. unfold bmp_row_size.
  assert (Hprod : 0 <= bpp * w) by nia.
  pose proof (Z.div_mod (bpp * w + 31) 32 ltac:(lia)) as Hdm.
  pose proof (Z.mod_pos_bound (bpp * w + 31) 32 ltac:(lia)) as Hmod.
  unfold imul at 2. rewrite (wrap_id (bpp * w)) by (unfold is_int; lia).
  unfold iadd. rewrite (wrap_id (bpp * w + 31)) by (unfold is_int; lia).
  rewrite Z.quot_div_nonneg by lia.
  unfold imul. apply wrap_id. unfold is_int. lia.
Qed.

Lemma bmp_row_size_fits (bpp w x : Z) :
  bpp = 24 \/ bpp = 32 -> 0 <= x < w -> bpp * w + 31 <= 2 ^ 31 - 1 ->
  0 <= bmp_row_size bpp w <= 2 ^ 31 - 1 /\
  (x * Z.quot bpp 8 + 3 < bmp_row_size bpp w \/
   (bpp = 24 /\ x * Z.quot bpp 8 + 2 < bmp_row_size bpp w)).
Proof.
  intros Hbpp Hx Hfit.
  rewrite bmp_row_size_exact by (destruct Hbpp; lia).
  pose proof (Z.div_mod (bpp * w + 31) 32 ltac:(lia)) as Hdm.
  pose proof (Z.mod_pos_bound (bpp * w + 31) 32 ltac:(lia)) as Hmod.
  destruct Hbpp as [-> | ->].
  - change (Z.quot 24 8) with 3. split; [lia|]. right. split; [reflexivity | lia].
  - change (Z.quot 32 8) with 4. split; [lia|]. left. lia.
Qed.

(** Inside [int] and inside the two buffers, the body of the loop over [x]
    stores the word of column [x] at its place in the grid. *)
Lemma bmp_decode_pixel_in_range (height w h bpp : Z) (row : list byte)
    (y x : Z) (pixels : list Z) :
  bpp = 24 \/ bpp = 32 -> bmp_sizes_fit w height bpp -> h = Z.abs height ->
  0 <= y < h -> 0 <= x < w ->
  length row = Z.to_nat (bmp_row_size bpp w) ->
  length pixels = Z.to_nat (w * h) ->
  bmp_decode_pixel height w h bpp (Some row) y x (Some pixels)
  = Ret (Some (store pixels (bmp_index height w h y x) (bmp_word bpp row x))).
Proof.
  intros Hbpp (Hw & Hheight & Hcount & Hbits) Hh Hy Hx Hrow Hpix.
  pose proof (bmp_row_size_fits bpp w x Hbpp Hx Hbits) as [Hrs Hfit].
  pose proof (bmp_index_range height w h y x Hy Hx) as Hidx.
  unfold bmp_decode_pixel.
  assert (Hindex :
    (if height >? 0 then iadd (imul (isub (isub h 1) y) w) x
     else iadd (imul y w) x) = bmp_index height w h y x).
  { unfold bmp_index in *. destruct (height >? 0); unwrap_ints; reflexivity. }
  rewrite Hindex. clear Hindex.
  assert (Hq : Z.quot bpp 8 = 3 \/ Z.quot bpp 8 = 4)
    by (destruct Hbpp as [-> | ->]; [left | right]; reflexivity).
  assert (Hoff : forall j, 0 <= j <= 3 ->
            iadd (imul x (Z.quot bpp 8)) j = x * Z.quot bpp 8 + j).
  { intros j Hj. destruct Hq as [-> | ->]; unwrap_ints; reflexivity. }
  rewrite !Hoff by lia.
  assert (Hlow : forall j, 0 <= j <= 2 ->
            0 <= x * Z.quot bpp 8 + j < Z.of_nat (length row)).
  { intros j Hj. rewrite Hrow. destruct Hq as [Hq | Hq]; rewrite Hq in *; lia. }
  rewrite !read_byte_in by (apply Hlow; lia). cbn [bind].
  assert (Halpha :
    (if bpp =? 32 then read_byte (Some row) (iadd (imul x 4) 3) else Ret 255)
    = Ret (if bpp =? 32 then byte_at row (x * 4 + 3) else 255)).
  { destruct (Z.eqb_spec bpp 32) as [Heq|]; [|reflexivity].
    assert (H4 : Z.quot bpp 8 = 4) by (rewrite Heq; reflexivity).
    specialize (Hoff 3 ltac:(lia)). rewrite H4 in Hoff. rewrite Hoff.
    apply read_byte_in. rewrite Hrow. rewrite H4 in Hfit.
    destruct Hfit as [Hfit | [Hfit _]]; [lia | congruence]. }
  rewrite Halpha. cbn [bind].
  rewrite write_word_in by (rewrite Hpix; lia).
  reflexivity.
Qed.

(** The loop over [x] writes the words of one row of the file and nothing
    else. *)
Lemma bmp_decode_columns (height w h bpp : Z) (row : list byte) (y : Z)
    (pixels0 : list Z) :
  bpp = 24 \/ bpp = 32 -> bmp_sizes_fit w height bpp -> h = Z.abs height ->
  0 <= y < h ->
  length row = Z.to_nat (bmp_row_size bpp w) ->
  length pixels0 = Z.to_nat (w * h) ->
  exists pixels,
    for_range 0 w (bmp_decode_pixel height w h bpp (Some row) y) (Some pixels0)
    = Ret (Some pixels) /\
    length pixels = length pixels0 /\
    (forall x, 0 <= x < w ->
       load pixels (bmp_index height w h y x) = bmp_word bpp row x) /\
    (forall y' x', 0 <= y' < h -> 0 <= x' < w -> y' <> y ->
       load pixels (bmp_index height w h y' x')
       = load pixels0 (bmp_index height w h y' x')).
Proof.
  intros Hbpp Hfit Hh Hy Hrow Hlen.
  destruct (for_range_invariant
    (fun k st =>
       exists pixels, st = Some pixels /\
         length pixels = length pixels0 /\
         (forall x, 0 <= x < k ->
            load pixels (bmp_index height w h y x) = bmp_word bpp row x) /\
         (forall y' x', 0 <= y' < h -> 0 <= x' < w -> y' <> y ->
            load pixels (bmp_index height w h y' x')
            = load pixels0 (bmp_index height w h y' x')))
    (bmp_decode_pixel height w h bpp (Some row) y) 0 w (Some pixels0))
    as (st & Hrun & pixels & -> & Hend).
  - destruct Hfit as (Hw & _). exact Hw.
  - exists pixels0. split; [reflexivity|]. split; [reflexivity|].
    split; [intros; lia | reflexivity].
  - intros k st Hk (pixels & -> & Hl & Hdone & Hother).
    rewrite (bmp_decode_pixel_in_range height w h bpp row y k pixels)
      by (assumption || congruence).
    eexists. split; [reflexivity|]. eexists. split; [reflexivity|].
    pose proof (bmp_index_range height w h y k Hy Hk) as Hik.
    split; [rewrite length_store; exact Hl|]. split.
    + intros x Hx.
      pose proof (bmp_index_range height w h y x Hy ltac:(lia)).
      rewrite load_store by lia.
      destruct (Z.eqb_spec (bmp_index height w h y x) (bmp_index height w h y k))
        as [Heq|Hne].
      * apply bmp_index_inj in Heq as [_ ->]; lia.
      * apply Hdone. destruct (Z.eq_dec x k); [subst; congruence | lia].
    + intros y' x' Hy' Hx' Hne.
      pose proof (bmp_index_range height w h y' x' Hy' Hx').
      rewrite load_store by lia.
      destruct (Z.eqb_spec (bmp_index height w h y' x') (bmp_index height w h y k))
        as [Heq|Hneq].
      * apply bmp_index_inj in Heq as [Hy'' _]; try lia.
      * apply Hother; assumption.
  - exists pixels. split; [exact Hrun | exact Hend].
Qed.

(** The loop over [y]: [J] is what the loop keeps of the file and the row
    buffer, [Q] what it knows of the row buffer at each row. *)
Lemma bmp_decode_rows (J : Z -> list byte -> list byte -> Prop)
    (Q : Z -> list byte -> Prop) (height w h bpp : Z)
    (file0 row0 : list byte) (pixels0 : list Z) :
  bpp = 24 \/ bpp = 32 -> bmp_sizes_fit w height bpp -> h = Z.abs height ->
  length row0 = Z.to_nat (bmp_row_size bpp w) ->
  length pixels0 = Z.to_nat (w * h) ->
  J 0 file0 row0 ->
  (forall y file row, 0 <= y < h -> J y file row ->
     length row = Z.to_nat (bmp_row_size bpp w) ->
     Q y (fst (fread row (Z.to_nat (bmp_row_size bpp w)) file)) /\
     J (y + 1) (snd (fread row (Z.to_nat (bmp_row_size bpp w)) file))
       (fst (fread row (Z.to_nat (bmp_row_size bpp w)) file))) ->
  exists file row pixels,
    for_range 0 h (bmp_decode_row height w h bpp (bmp_row_size bpp w))
      (file0, Some row0, Some pixels0)
    = Ret (file, Some row, Some pixels) /\
    length pixels = Z.to_nat (w * h) /\
    forall y x, 0 <= y < h -> 0 <= x < w ->
      exists row', Q y row' /\
        load pixels (bmp_index height w h y x) = bmp_word bpp row' x.
Proof.
  intros Hbpp Hfit Hh Hrow0 Hlen HJ0 Hstep.
  set (rs := bmp_row_size bpp w) in *.
  destruct (for_range_invariant
    (fun k (st : list byte * option (list byte) * option (list Z)) =>
       exists file row pixels,
         st = (file, Some row, Some pixels) /\
         J k file row /\ length row = Z.to_nat rs /\
         length pixels = Z.to_nat (w * h) /\
         forall y x, 0 <= y < k -> 0 <= x < w ->
           exists row', Q y row' /\
             load pixels (bmp_index height w h y x) = bmp_word bpp row' x)
    (bmp_decode_row height w h bpp rs) 0 h (file0, Some row0, Some pixels0))
    as (st & Hrun & file & row & pixels & -> & _ & _ & Hlen_end & Hall).
  - subst h. lia.
  - exists file0, row0, pixels0. split; [reflexivity|].
    split; [exact HJ0|]. split; [exact Hrow0|]. split; [exact Hlen|].
    intros y x Hy. lia.
  - intros y st Hy (file & row & pixels & -> & HJ & Hrow & Hl & Hdone).
    unfold bmp_decode_row, fread_row.
    destruct (Hstep y file row Hy HJ Hrow) as [HQ HJ'].
    assert (Hrow' : length (fst (fread row (Z.to_nat rs) file)) = Z.to_nat rs).
    { unfold fread. cbn [fst]. rewrite length_app, length_drop, length_take. lia. }
    destruct (fread row (Z.to_nat rs) file) as [row' file'] eqn:Hread.
    cbn [fst snd] in HQ, HJ', Hrow'. cbn [bind].
    destruct (bmp_decode_columns height w h bpp row' y pixels Hbpp Hfit Hh Hy
                Hrow' Hl) as (pixels' & Hcols & Hl' & Hthis & Hother).
    rewrite Hcols. cbn [bind].
    eexists. split; [reflexivity|]. exists file', row', pixels'.
    split; [reflexivity|]. split; [exact HJ'|]. split; [exact Hrow'|].
    split; [rewrite Hl'; exact Hl|].
    intros r x Hr Hx.
    destruct (Z.eq_dec r y) as [->|Hne].
    + exists row'. split; [exact HQ|]. apply Hthis. exact Hx.
    + destruct (Hdone r x ltac:(lia) Hx) as (row'' & HQ'' & Hload).
      exists row''. split; [exact HQ''|].
      rewrite Hother by (assumption || lia). exact Hload.
  - exists file, row, pixels. split; [exact Hrun|].
    split; [exact Hlen_end | exact Hall].
Qed.

Lemma malloc_some {A : Type} (content : nat -> A) (count : Z) :
  0 <= count -> malloc content count = Some (uninit content (Z.to_nat count)).
Proof.
  intros Hc. unfold malloc. replace (count <? 0) with false by lia. reflexivity.
Qed.

(** A header that passes the checks and whose sizes fit: the image that is
    returned, for any rest of the file. *)
Lemma image_load_bmp_decodes (J : Z -> list byte -> list byte -> Prop)
    (Q : Z -> list byte -> Prop) (fs : filesystem) (mem : garbage)
    (filename : string) (content header file : list byte) (w height bpp : Z) :
  fs filename = Some content ->
  bmp_header mem content = (header, file) ->
  byte_at header 0 = 66 -> byte_at header 1 = 77 ->
  read_int32 header 18 = w -> read_int32 header 22 = height ->
  read_int16 header 28 = bpp ->
  bpp = 24 \/ bpp = 32 -> bmp_sizes_fit w height bpp ->
  J 0 file (uninit (heap_row mem) (Z.to_nat (bmp_row_size bpp w))) ->
  (forall y file row, 0 <= y < Z.abs height -> J y file row ->
     length row = Z.to_nat (bmp_row_size bpp w) ->
     Q y (fst (fread row (Z.to_nat (bmp_row_size bpp w)) file)) /\
     J (y + 1) (snd (fread row (Z.to_nat (bmp_row_size bpp w)) file))
       (fst (fread row (Z.to_nat (bmp_row_size bpp w)) file))) ->
  exists pix,
    image_load_bmp fs mem filename = Ret (Some (mkImage w (Z.abs height) pix)) /\
    length pix = Z.to_nat (w * Z.abs height) /\
    forall y x, 0 <= y < Z.abs height -> 0 <= x < w ->
      exists row, Q y row /\
        load pix (bmp_index height w (Z.abs height) y x) = bmp_word bpp row x.
Proof.
  intros Hfs Hhdr HB HM Hwidth Hheight Hbits Hbpp Hfit HJ0 Hstep.
  unfold image_load_bmp. rewrite Hfs, Hhdr.
  rewrite HB, HM, Hwidth, Hheight, Hbits. cbn [Z.eqb Pos.eqb negb orb].
  replace (negb (bpp =? 24) && negb (bpp =? 32)) with false
    by (destruct Hbpp as [-> | ->]; reflexivity).
  pose proof Hfit as (Hw & Hh & Hcount & Hrowbits).
  assert (Habs : iabs height = Z.abs height)
    by (unfold iabs; apply wrap_id; unfold is_int; lia).
  rewrite Habs.
  assert (Hmul : imul w (Z.abs height) = w * Z.abs height)
    by (unfold imul; apply wrap_id; unfold is_int; nia).
  rewrite Hmul.
  assert (Hrs : 0 <= bmp_row_size bpp w).
  { rewrite bmp_row_size_exact by (destruct Hbpp; lia).
    pose proof (Z.div_mod (bpp * w + 31) 32 ltac:(lia)).
    pose proof (Z.mod_pos_bound (bpp * w + 31) 32 ltac:(lia)).
    destruct Hbpp; nia. }
  rewrite !malloc_some by nia.
  destruct (bmp_decode_rows J Q height w (Z.abs height) bpp file
              (uninit (heap_row mem) (Z.to_nat (bmp_row_size bpp w)))
              (uninit (heap_pixels mem) (Z.to_nat (w * Z.abs height)))
              Hbpp Hfit eq_refl (length_uninit _ _) (length_uninit _ _) HJ0 Hstep)
    as (file' & row' & pix & Hrun & Hlen & Hpix).
  rewrite Hrun. cbn [bind default].
  exists pix. split; [reflexivity|]. split; [exact Hlen | exact Hpix].
Qed.

(** The word decoded from a row buffer that holds row [r] of the data is
    packed from the bytes of the data. *)
Lemma bmp_word_of_data (data : list byte) (bpp w r x : Z) :
  bpp = 24 \/ bpp = 32 -> 0 <= r -> 0 <= x < w ->
  bpp * w + 31 <= 2 ^ 31 - 1 ->
  let rs := bmp_row_size bpp w in
  let off := r * rs + x * Z.quot bpp 8 in
  bmp_word bpp (take (Z.to_nat rs) (drop (Z.to_nat (r * rs)) data)) x
  = pack_argb (if bpp =? 32 then byte_at data (off + 3) else 255)
      (byte_at data (off + 2)) (byte_at data (off + 1)) (byte_at data (off + 0)).
Proof.
  intros Hbpp Hr Hx Hbits rs off.
  pose proof (bmp_row_size_fits bpp w x Hbpp Hx Hbits) as [Hrs Hfit].
  fold rs in Hrs, Hfit.
  assert (Hq : 0 <= x * Z.quot bpp 8).
  { assert (0 <= Z.quot bpp 8) by (apply Z.quot_pos; destruct Hbpp; lia). nia. }
  assert (Hoff : forall j, 0 <= j -> x * Z.quot bpp 8 + j < rs ->
            byte_at (take (Z.to_nat rs) (drop (Z.to_nat (r * rs)) data))
              (x * Z.quot bpp 8 + j) = byte_at data (off + j)).
  { intros j Hj Hlt. rewrite byte_at_take_drop by lia.
    f_equal. subst off. nia. }
  unfold bmp_word.
  assert (Halpha :
    (if bpp =? 32
     then byte_at (take (Z.to_nat rs) (drop (Z.to_nat (r * rs)) data))
            (x * 4 + 3)
     else 255) = if bpp =? 32 then byte_at data (off + 3) else 255).
  { destruct (Z.eqb_spec bpp 32) as [Heq|]; [|reflexivity].
    replace (x * 4 + 3) with (x * Z.quot bpp 8 + 3)
      by (rewrite Heq; reflexivity).
    apply Hoff; [lia|]. destruct Hfit as [Hfit | [Hfit _]]; [exact Hfit|].
    congruence. }
  rewrite Halpha.
  rewrite !Hoff by (destruct Hfit as [Hfit | [_ Hfit]]; lia).
  reflexivity.
Qed.

(** A file that holds all its rows: the pixel at [(x, y)] of the image is
    packed from the bytes of its row of the file. *)
Lemma image_load_bmp_of_file (fs : filesystem) (mem : garbage)
    (filename : string) (header data : list byte) (w height bpp : Z) :
  fs filename = Some (header ++ data) ->
  bmp_file header data w height bpp ->
  exists pix,
    image_load_bmp fs mem filename = Ret (Some (mkImage w (Z.abs height) pix)) /\
    length pix = Z.to_nat (w * Z.abs height) /\
    forall x y, 0 <= x < w -> 0 <= y < Z.abs height ->
      let file_row := if height >? 0 then Z.abs height - 1 - y else y in
      let off := file_row * bmp_row_size bpp w + x * Z.quot bpp 8 in
      load pix (y * w + x)
      = pack_argb (if bpp =? 32 then byte_at data (off + 3) else 255)
          (byte_at data (off + 2)) (byte_at data (off + 1))
          (byte_at data (off + 0)).
Proof.
  intros Hfs (Hlen & HB & HM & Hwidth & Hheight & Hbpp & Hbits & Hw & Hfit & Hdata).
  pose proof Hfit as (_ & _ & _ & Hrowbits).
  set (rs := bmp_row_size bpp w) in *.
  set (h := Z.abs height) in *.
  assert (Hrs : 0 <= rs).
  { pose proof (bmp_row_size_fits bpp w 0 Hbits ltac:(lia) Hrowbits) as [Hrs _].
    fold rs in Hrs. lia. }
  destruct (image_load_bmp_decodes
    (fun y file row => file = drop (Z.to_nat (y * rs)) data)
    (fun y row => row = take (Z.to_nat rs) (drop (Z.to_nat (y * rs)) data))
    fs mem filename (header ++ data) header data w height bpp)
    as (pix & Hload & Hpixlen & Hpix); try assumption.
  - rewrite bmp_header_whole by (rewrite length_app; lia).
    rewrite take_app_length', drop_app_length' by (symmetry; exact Hlen).
    reflexivity.
  - reflexivity.
  - intros y file row Hy -> Hrow. fold rs in Hrow |- *. fold h in Hy.
    rewrite fread_whole.
    + cbn [fst snd]. split; [reflexivity|].
      rewrite drop_drop. f_equal. nia.
    + exact Hrow.
    + rewrite length_drop. nia.
  - exists pix. split; [exact Hload|]. split; [exact Hpixlen|].
    intros x y Hx Hy file_row off.
    assert (Hfr : 0 <= file_row < h)
      by (subst file_row; destruct (height >? 0); lia).
    destruct (Hpix file_row x Hfr Hx) as (row & -> & Hword).
    fold h in Hword.
    replace (bmp_index height w h file_row x) with (y * w + x) in Hword
      by (unfold bmp_index; subst file_row; destruct (height >? 0); lia).
    rewrite Hword. apply bmp_word_of_data; [assumption | lia | assumption | assumption].
Qed.

Lemma bmp_header_length (mem : garbage) (content : list byte) :
  length (fst (bmp_header mem content)) = 54%nat.
Proof.
  unfold bmp_header, fread. cbn [fst].
  rewrite length_app, length_drop, length_take, length_uninit. lia.
Qed.

(** C3, with the sizes of the header inside [int]: [image_load_bmp]
    returns the null pointer exactly when the file cannot be opened, or the
    first two bytes of the header it read are not ['B'] and ['M'], or the
    bits per pixel field is neither 24 nor 32.  In every other case in which
    the width of the header is not negative, its height is not the least
    [int], and the pixel count and the bits of a row fit an [int], it
    returns an image of the width and the absolute height of the header,
    with a grid of that many words; when the file holds all the rows after
    its 54 header bytes, the word at [(x, y)] is packed from the bytes of
    column [x] of its row of the file: blue, green, red and, at 32 bits,
    alpha, and alpha 255 at 24 bits; the rows of the file are taken bottom
    up when the height of the header is positive.  The header is the first
    54 bytes of a file that has them. *)
Theorem image_load_bmp_failure (fs : filesystem) (mem : garbage)
    (filename : string) :
  (image_load_bmp fs mem filename = Ret None <->
   fs filename = None \/
   exists content,
     fs filename = Some content /\
     let header := fst (bmp_header mem content) in
     byte_at header 0 <> 66 \/ byte_at header 1 <> 77 \/
     (read_int16 header 28 <> 24 /\ read_int16 header 28 <> 32)) /\
  (forall content,
     fs filename = Some content ->
     let header := fst (bmp_header mem content) in
     let w := read_int32 header 18 in
     let height := read_int32 header 22 in
     let bpp := read_int16 header 28 in
     byte_at header 0 = 66 -> byte_at header 1 = 77 ->
     bpp = 24 \/ bpp = 32 ->
     bmp_sizes_fit w height bpp ->
     exists img,
       image_load_bmp fs mem filename = Ret (Some img) /\
       img_width img = w /\
       img_height img = Z.abs height /\
       length (pixels img) = Z.to_nat (w * Z.abs height) /\
       forall data,
         content = header ++ data ->
         bmp_row_size bpp w * Z.abs height <= Z.of_nat (length data) ->
         forall x y, 0 <= x < w -> 0 <= y < Z.abs height ->
           let file_row := if height >? 0 then Z.abs height - 1 - y else y in
           let off := file_row * bmp_row_size bpp w + x * Z.quot bpp 8 in
           image_at img x y
           = pack_argb (if bpp =? 32 then byte_at data (off + 3) else 255)
               (byte_at data (off + 2)) (byte_at data (off + 1))
               (byte_at data (off + 0))) /\
  (forall content,
     (54 <= length content)%nat ->
     fst (bmp_header mem content) = take 54 content).
Proof.
  split; [|split].
  - unfold image_load_bmp.
    destruct (fs filename) as [content|]; [|split; auto].
    destruct (bmp_header mem content) as [header file] eqn:Hhdr.
    assert (Hiff : forall (res : exec (option Image)) (bad : bool),
              (bad = true <->
               byte_at header 0 <> 66 \/ byte_at header 1 <> 77 \/
               (read_int16 header 28 <> 24 /\ read_int16 header 28 <> 32)) ->
              (bad = true -> res = Ret None) ->
              (bad = false -> res <> Ret None) ->
              res = Ret None <->
              None = Some content \/
              exists content' : list byte,
                Some content = Some content' /\
                let header := fst (bmp_header mem content') in
                byte_at header 0 <> 66 \/ byte_at header 1 <> 77 \/
                (read_int16 header 28 <> 24 /\ read_int16 header 28 <> 32)).
    { intros res bad Hbad Hnone Hsome. split.
      - intros Hres. right. exists content. split; [reflexivity|].
        rewrite Hhdr. cbn [fst]. apply Hbad.
        destruct bad; [reflexivity|]. exfalso. apply Hsome; auto.
      - intros [Hc|(content' & Hc & Hb)]; [discriminate|].
        injection Hc as <-. rewrite Hhdr in Hb. cbn [fst] in Hb.
        apply Hnone, Hbad, Hb. }
    rewrite (Hiff _ (negb (byte_at header 0 =? 66) || negb (byte_at header 1 =? 77)
                     || negb (read_int16 header 28 =? 24)
                        && negb (read_int16 header 28 =? 32))).
    + split; intros [H|H]; auto; discriminate.
    + destruct (Z.eqb_spec (byte_at header 0) 66), (Z.eqb_spec (byte_at header 1) 77),
        (Z.eqb_spec (read_int16 header 28) 24), (Z.eqb_spec (read_int16 header 28) 32);
        cbn [negb orb andb]; split; intros; try discriminate; try reflexivity; try lia; tauto.
    + destruct (negb (byte_at header 0 =? 66) || negb (byte_at header 1 =? 77));
        [reflexivity|].
      cbn [orb]. intros ->. reflexivity.
    + destruct (negb (byte_at header 0 =? 66) || negb (byte_at header 1 =? 77));
        [discriminate|].
      cbn [orb]. intros ->.
      destruct (for_range _ _ _ _) as [[[? ?] ?]|]; discriminate.
  - intros content Hfs header w height bpp HB HM Hbpp Hfit.
    assert (Hhdr : bmp_header mem content
                   = (header, snd (bmp_header mem content)))
      by (subst header; destruct (bmp_header mem content); reflexivity).
    destruct (image_load_bmp_decodes (fun _ _ _ => True) (fun _ _ => True)
                fs mem filename content header (snd (bmp_header mem content))
                w height bpp Hfs Hhdr HB HM eq_refl eq_refl eq_refl Hbpp Hfit I)
      as (pix & Hload & Hlen & _).
    { intros; split; exact I. }
    eexists. split; [exact Hload|]. cbn [img_width img_height pixels].
    split; [reflexivity|]. split; [reflexivity|]. split; [exact Hlen|].
    intros data Hcontent Hdata x y Hx Hy.
    destruct (image_load_bmp_of_file fs mem filename header data w height bpp)
      as (pix' & Hload' & _ & Hpix').
    + rewrite Hfs, Hcontent. reflexivity.
    + unfold bmp_file.
      split; [apply bmp_header_length|].
      split; [exact HB|]. split; [exact HM|].
      split; [reflexivity|]. split; [reflexivity|]. split; [reflexivity|].
      split; [exact Hbpp|]. split; [lia|]. split; [exact Hfit | exact Hdata].
    + rewrite Hload in Hload'. injection Hload' as <-.
      unfold image_at. cbn [img_width pixels]. apply Hpix'; assumption.
  - intros content Hlen. rewrite bmp_header_whole by exact Hlen. reflexivity.
Qed.

(** C3 as it is worded does not hold: a header that passes the three tests
    can make the decoder write outside of its grid, or return an image
    whose grid is the null pointer and whose height is negative.  The first
    header is of 65536 by 65536 pixels: the pixel count wraps to 0 and the
    first pixel is stored 65536 words before the grid.  The second has
    width 1 and the least [int] as its height. *)
Lemma image_load_bmp_header_sizes_counterexample :
  (byte_at huge_header 0 = 66 /\ byte_at huge_header 1 = 77 /\
   read_int16 huge_header 28 = 24 /\
   read_int32 huge_header 18 = 65536 /\ read_int32 huge_header 22 = 65536 /\
   image_load_bmp (fun _ => Some huge_header) no_garbage "huge.bmp"
   = Fault InvalidAccess) /\
  (byte_at least_height_header 0 = 66 /\ byte_at least_height_header 1 = 77 /\
   read_int16 least_height_header 28 = 24 /\
   read_int32 least_height_header 18 = 1 /\
   read_int32 least_height_header 22 = - 2 ^ 31 /\
   image_load_bmp (fun _ => Some least_height_header) no_garbage "least.bmp"
   = Ret (Some (mkImage 1 (- 2 ^ 31) []))).
Proof. repeat split; vm_compute; reflexivity. Qed.

(** ** Packed pixels *)

Lemma lor_disjoint (hi lo n : Z) :
  0 <= n -> 0 <= lo < 2 ^ n -> Z.lor (hi * 2 ^ n) lo = hi * 2 ^ n + lo.
Proof.
  intros Hn Hlo.
  assert (Hland : Z.land (hi * 2 ^ n) lo = 0).
  { apply Z.bits_inj'. intros i Hi.
    rewrite Z.land_spec, Z.bits_0, <- Z.shiftl_mul_pow2 by exact Hn.
    destruct (Z.lt_ge_cases i n) as [Hlt|Hge].
    - rewrite Z.shiftl_spec_low by exact Hlt. reflexivity.
    - rewrite <- (Z.mod_small lo (2 ^ n)) by exact Hlo.
      rewrite Z.mod_pow2_bits_high by lia. apply andb_false_r. }
  rewrite <- Z.lxor_lor by exact Hland.
  symmetry. apply Z.add_nocarry_lxor. exact Hland.
Qed.

Lemma pack_argb_sum (a r g b : Z) :
  0 <= a < 256 -> 0 <= r < 256 -> 0 <= g < 256 -> 0 <= b < 256 ->
  pack_argb a r g b = a * 2 ^ 24 + r * 2 ^ 16 + g * 2 ^ 8 + b.
Proof.
  intros Ha Hr Hg Hb. unfold pack_argb, u32.
  rewrite !Z.shiftl_mul_pow2 by lia.
  pose proof (lor_disjoint a (r * 2 ^ 16) 24) as H1.
  pose proof (lor_disjoint (a * 2 ^ 8 + r) (g * 2 ^ 8) 16) as H2.
  pose proof (lor_disjoint (a * 2 ^ 16 + r * 2 ^ 8 + g) b 8) as H3.
  change (2 ^ 32) with 4294967296.
  change (2 ^ 24) with 16777216 in *. change (2 ^ 16) with 65536 in *.
  change (2 ^ 8) with 256 in *.
  rewrite H1 by lia.
  replace (a * 16777216 + r * 65536) with ((a * 256 + r) * 65536) by lia.
  rewrite H2 by lia.
  replace ((a * 256 + r) * 65536 + g * 256)
    with ((a * 65536 + r * 256 + g) * 256) by lia.
  rewrite H3 by lia.
  rewrite Z.mod_small by lia. lia.
Qed.

(** The channels of a packed pixel are the bytes it was packed from. *)
Lemma pack_argb_channels (a r g b : Z) :
  0 <= a < 256 -> 0 <= r < 256 -> 0 <= g < 256 -> 0 <= b < 256 ->
  pixel_a (pack_argb a r g b) = a /\ pixel_r (pack_argb a r g b) = r /\
  pixel_g (pack_argb a r g b) = g /\ pixel_b (pack_argb a r g b) = b.
Proof.
  intros Ha Hr Hg Hb. rewrite pack_argb_sum by assumption.
  unfold pixel_a, pixel_r, pixel_g, pixel_b.
  change 255 with (Z.ones 8).
  rewrite !Z.land_ones, !Z.shiftr_div_pow2 by lia.
  change (2 ^ 24) with 16777216. change (2 ^ 16) with 65536. change (2 ^ 8) with 256.
  repeat split; Z.div_mod_to_equations; lia.
Qed.

Lemma byte_at_range (buf : list byte) (i : Z) : 0 <= byte_at buf i < 256.
Proof.
  unfold byte_at, byte_val.
  pose proof (Byte.to_N_bounded (default x00 (buf !! Z.to_nat i))). lia.
Qed.



Lemma image_load_bmp_failure_witness :
  image_load_bmp corners_fs no_garbage "missing.bmp" = Ret None /\
  exists img,
    image_load_bmp corners_fs no_garbage "corners.bmp" = Ret (Some img) /\
    img_width img = 2 /\ img_height img = 2 /\
    image_at img 0 0 = pack_argb 255 255 0 0.
Proof.
  split.
  - apply (proj1 (image_load_bmp_failure corners_fs no_garbage "missing.bmp")).
    left. reflexivity.
  - pose proof (proj1 (proj2 (image_load_bmp_failure corners_fs no_garbage
                                "corners.bmp"))
                  (corners_header ++ corners_data) eq_refl) as Hgood.
    cbv zeta in Hgood.
    destruct Hgood as (img & Hload & Hw & Hh & _ & Hpix).
    + reflexivity.
    + reflexivity.
    + left. reflexivity.
    + unfold bmp_sizes_fit.
      repeat split; first [reflexivity | vm_compute; discriminate].
    + exists img. split; [exact Hload|].
      split; [rewrite Hw; reflexivity|]. split; [rewrite Hh; reflexivity|].
      rewrite (Hpix corners_data eq_refl) by (repeat split; vm_compute; first [discriminate | reflexivity]).
      vm_compute. reflexivity.
Defined.

(** ** Worked examples *)

(** [0.5f] is one half. *)
Example half_is_one_half :
  F32.half = F32.div (F32.of_int 1) (F32.of_int 2).
Proof. reflexivity. Qed.

(** The two orders of the endpoints [(0,0)] and [(2,1)] take different
    middle pixels. *)
Example line_pixels_forward :
  bresenham_pixels 0 0 2 1 = Ret [(0, 0); (1, 0); (2, 1)].
Proof. reflexivity. Qed.

Example line_pixels_backward :
  bresenham_pixels 2 1 0 0 = Ret [(2, 1); (1, 1); (0, 0)].
Proof. reflexivity. Qed.

(** A line of length zero draws its one pixel. *)
Example line_of_one_pixel :
  renderer_draw_line sample_renderer 1 0 1 0 (color_make 255 255 255 255)
  = Ret (mkRenderer
           [4278190080; 4294967295; 4278190080;
            4278190080; 4278190080; 4278190080] 3 2 true).
Proof. reflexivity. Qed.

(** A triangle of height one fills its two scanlines. *)
Example filled_triangle_small :
  renderer_draw_filled_triangle sample_renderer 0 0 2 0 0 1
    (color_make 255 255 255 255)
  = Ret (mkRenderer
           [4294967295; 4294967295; 4294967295;
            4294967295; 4278190080; 4278190080] 3 2 true).
Proof. vm_compute. reflexivity. Qed.

(** The known 2x2 picture decodes to red, green, blue, white. *)
Example corners_decoded :
  image_load_bmp corners_fs no_garbage "corners.bmp"
  = Ret (Some (mkImage 2 2 [4294901760; 4278255360; 4278190335; 4294967295])).
Proof. vm_compute. reflexivity. Qed.

(** A file that is not a BMP, and a BMP of 8 bits per pixel, are refused. *)
Example not_a_bmp_refused :
  image_load_bmp (fun _ => Some (bytes_of [80; 78; 71])) no_garbage "a.png"
  = Ret None.
Proof. vm_compute. reflexivity. Qed.

Example indexed_bmp_refused :
  image_load_bmp
    (fun _ => Some (bytes_of [66; 77; 0; 0; 0; 0; 0; 0; 0; 0; 54; 0; 0; 0;
                              40; 0; 0; 0; 1; 0; 0; 0; 1; 0; 0; 0; 1; 0;
                              8; 0]))
    no_garbage "indexed.bmp"
  = Ret None.
Proof. vm_compute. reflexivity. Qed.

(** A file cut off inside its rows still loads: the bytes that are missing
    are what the row buffer held. *)
Example truncated_bmp_loads :
  image_load_bmp (fun _ => Some (corners_header ++ bytes_of [255; 0; 0]))
    no_garbage "short.bmp"
  = Ret (Some (mkImage 2 2 [4278190335; 4278190080; 4278190335; 4278190080])).
Proof. vm_compute. reflexivity. Qed.

(** Normalizing [(3, 0, 4)] gives [(0.6, 0, 0.8)] in single precision. *)
Example normalize_3_0_4 :
  vec3_normalize (vec3_make (F32.of_int 3) F32.zero (F32.of_int 4))
  = Ret (vec3_make (F32.div (F32.of_int 3) (F32.of_int 5)) F32.zero
           (F32.div (F32.of_int 4) (F32.of_int 5))).
Proof. vm_compute. reflexivity. Qed.

(** * More of the renderer *)

(** ** Lists of drawn pixels *)

Lemma draw_pixel_is_running (rend : Renderer) (px py : Z) (color : Color) :
  is_running (renderer_draw_pixel rend px py color) = is_running rend.
Proof.
  unfold renderer_draw_pixel.
  destruct (_ || _); [reflexivity|]. destruct (a color =? 255); reflexivity.
Qed.

Lemma draw_pixel_length (rend : Renderer) (px py : Z) (color : Color) :
  length (framebuffer (renderer_draw_pixel rend px py color))
  = length (framebuffer rend).
Proof.
  unfold renderer_draw_pixel.
  destruct (_ || _); [reflexivity|].
  destruct (a color =? 255); apply length_insert.
Qed.

Lemma same_shape_refl (rend : Renderer) : same_shape rend rend.
Proof. repeat split. Qed.

Lemma same_shape_trans (r1 r2 r3 : Renderer) :
  same_shape r1 r2 -> same_shape r2 r3 -> same_shape r1 r3.
Proof. unfold same_shape. intros (?&?&?&?) (?&?&?&?). repeat split; congruence. Qed.

Lemma same_shape_ok (rend rend' : Renderer) :
  same_shape rend rend' -> renderer_ok rend -> renderer_ok rend'.
Proof.
  unfold same_shape, renderer_ok. intros (Hw & Hh & _ & Hl) (? & ? & ?).
  rewrite Hw, Hh, Hl. auto.
Qed.

Lemma draw_pixel_same_shape (rend : Renderer) (px py : Z) (color : Color) :
  same_shape rend (renderer_draw_pixel rend px py color).
Proof.
  repeat split;
    auto using draw_pixel_width, draw_pixel_height, draw_pixel_is_running,
      draw_pixel_length.
Qed.

Lemma draw_plots_same_shape (plots : list plot) :
  forall rend, same_shape rend (draw_plots rend plots).
Proof.
  induction plots as [|[[px py] c] plots IH]; intros rend.
  - apply same_shape_refl.
  - unfold draw_plots. simpl.
    eapply same_shape_trans; [apply draw_pixel_same_shape | apply IH].
Qed.

(** A call at another position leaves the pixel at [(px, py)] as it is. *)
Lemma draw_pixel_other (rend : Renderer) (qx qy px py : Z) (color : Color) :
  0 <= px < width rend -> 0 <= py < height rend ->
  (qx, qy) <> (px, py) ->
  pixel_at (renderer_draw_pixel rend qx qy color) px py = pixel_at rend px py.
Proof.
  intros Hpx Hpy Hne.
  destruct (decide (0 <= qx < width rend /\ 0 <= qy < height rend)) as [[Hqx Hqy]|Hout].
  - rewrite (draw_pixel_inside rend qx qy color Hqx Hqy).
    unfold pixel_at, set_framebuffer. cbn [framebuffer width].
    apply load_store_other.
    intros Heq.
    assert (Hz : qy * width rend + qx = py * width rend + px) by nia.
    assert (qy = py) by nia. apply Hne. f_equal; lia.
  - rewrite (draw_pixel_outside rend qx qy color Hout). reflexivity.
Qed.

(** An opaque call stores its color at its position. *)
Lemma draw_pixel_opaque_at (rend : Renderer) (px py : Z) (color : Color) :
  renderer_ok rend ->
  0 <= px < width rend -> 0 <= py < height rend ->
  a color = 255 ->
  pixel_at (renderer_draw_pixel rend px py color) px py
  = pack_argb 255 (r color) (g color) (b color).
Proof.
  intros (Hw & Hh & Hlen) Hpx Hpy Ha.
  rewrite (draw_pixel_inside rend px py color Hpx Hpy).
  unfold pixel_at, set_framebuffer. cbn [framebuffer width].
  rewrite load_store_same
    by (pose proof (index_in_range _ _ _ _ Hpx Hpy); lia).
  unfold drawn_pixel. rewrite Ha. reflexivity.
Qed.

(** Pixels that no call of the list is at stay as they are. *)
Lemma draw_plots_frame (px py : Z) (plots : list plot) :
  forall rend,
    0 <= px < width rend -> 0 <= py < height rend ->
    (forall c, ~ In (px, py, c) plots) ->
    pixel_at (draw_plots rend plots) px py = pixel_at rend px py.
Proof.
  induction plots as [|[[qx qy] c] plots IH]; intros rend Hpx Hpy Hnot;
    [reflexivity|].
  unfold draw_plots. simpl. fold (draw_plots (renderer_draw_pixel rend qx qy c) plots).
  rewrite IH.
  - apply draw_pixel_other; try assumption.
    intros Heq. injection Heq as -> ->. apply (Hnot c). left. reflexivity.
  - rewrite draw_pixel_width. exact Hpx.
  - rewrite draw_pixel_height. exact Hpy.
  - intros c' Hin. apply (Hnot c'). right. exact Hin.
Qed.

(** A pixel that calls of the list are at, all of one opaque color, ends
    with that color. *)
Lemma draw_plots_opaque (px py : Z) (color : Color) (plots : list plot) :
  a color = 255 ->
  (forall c, In (px, py, c) plots -> c = color) ->
  forall rend,
    renderer_ok rend ->
    0 <= px < width rend -> 0 <= py < height rend ->
    In (px, py, color) plots \/
      pixel_at rend px py = pack_argb 255 (r color) (g color) (b color) ->
    pixel_at (draw_plots rend plots) px py
    = pack_argb 255 (r color) (g color) (b color).
Proof.
  intros Ha. induction plots as [|[[qx qy] c] plots IH];
    intros Hsame rend Hok Hpx Hpy Hhit.
  - destruct Hhit as [[]|Hhit]. exact Hhit.
  - unfold draw_plots. simpl.
    fold (draw_plots (renderer_draw_pixel rend qx qy c) plots).
    apply IH.
    + intros c' Hin. apply Hsame. right. exact Hin.
    + eapply same_shape_ok; [apply draw_pixel_same_shape | exact Hok].
    + rewrite draw_pixel_width. exact Hpx.
    + rewrite draw_pixel_height. exact Hpy.
    + destruct (decide ((qx, qy) = (px, py))) as [Heq|Hne].
      * injection Heq as -> ->.
        assert (c = color) by (apply Hsame; left; reflexivity). subst c.
        right. apply draw_pixel_opaque_at; assumption.
      * destruct Hhit as [[Heq|Hin]|Hpix].
        -- exfalso. apply Hne. congruence.
        -- left. exact Hin.
        -- right. rewrite draw_pixel_other by assumption. exact Hpix.
Qed.

(** [draw_pixels] is [draw_plots] with one color. *)
Lemma draw_pixels_plots (color : Color) (pixels : list (Z * Z)) :
  forall rend,
    draw_pixels rend pixels color
    = draw_plots rend (map (fun p => (fst p, snd p, color)) pixels).
Proof.
  induction pixels as [|p pixels IH]; intros rend; [reflexivity|].
  unfold draw_pixels, draw_plots in *. simpl. apply IH.
Qed.

Lemma in_colored (px py : Z) (c color : Color) (pixels : list (Z * Z)) :
  In (px, py, c) (map (fun p => (fst p, snd p, color)) pixels) <->
  c = color /\ In (px, py) pixels.
Proof.
  rewrite in_map_iff. split.
  - intros ([qx qy] & Heq & Hin). simpl in Heq. injection Heq as -> -> ->. auto.
  - intros [-> Hin]. exists (px, py). auto.
Qed.

(** What a list of calls of one color does to a pixel of the framebuffer:
    nothing when no call is at it, and an opaque color replaces it when one
    is. *)
Lemma draw_pixels_at (rend : Renderer) (pixels : list (Z * Z)) (color : Color)
    (px py : Z) :
  0 <= px < width rend -> 0 <= py < height rend ->
  (~ In (px, py) pixels ->
   pixel_at (draw_pixels rend pixels color) px py = pixel_at rend px py) /\
  (renderer_ok rend -> a color = 255 -> In (px, py) pixels ->
   pixel_at (draw_pixels rend pixels color) px py
   = pack_argb 255 (r color) (g color) (b color)).
Proof.
  intros Hpx Hpy. rewrite draw_pixels_plots. split.
  - intros Hnot. apply draw_plots_frame; try assumption.
    intros c Hin. apply in_colored in Hin. tauto.
  - intros Hok Ha Hin. apply draw_plots_opaque; try assumption.
    + intros c Hc. apply in_colored in Hc. tauto.
    + left. apply in_colored. auto.
Qed.

Lemma draw_pixels_same_shape (rend : Renderer) (pixels : list (Z * Z))
    (color : Color) :
  same_shape rend (draw_pixels rend pixels color).
Proof. rewrite draw_pixels_plots. apply draw_plots_same_shape. Qed.

Lemma draw_pixels_app (color : Color) (l1 l2 : list (Z * Z)) (rend : Renderer) :
  draw_pixels rend (l1 ++ l2) color
  = draw_pixels (draw_pixels rend l1 color) l2 color.
Proof. unfold draw_pixels. apply fold_left_app. Qed.

(** A loop whose iterations draw lists of pixels draws their
    concatenation. *)
Lemma iter_loop_pixels (color : Color) (body : Z -> Renderer -> Renderer)
    (f : Z -> list (Z * Z)) :
  (forall i rend, body i rend = draw_pixels rend (f i) color) ->
  forall n i rend,
    iter_loop n i body rend
    = draw_pixels rend (concat (map f (seqZ i (Z.of_nat n)))) color.
Proof.
  intros Hbody n. induction n as [|n IH]; intros i rend; [reflexivity|].
  rewrite seqZ_succ. cbn [iter_loop map concat].
  rewrite draw_pixels_app, <- Hbody. apply IH.
Qed.

Lemma iter_range_pixels (color : Color) (body : Z -> Renderer -> Renderer)
    (f : Z -> list (Z * Z)) (lo hi : Z) (rend : Renderer) :
  (forall i rend, body i rend = draw_pixels rend (f i) color) ->
  iter_range lo hi body rend
  = draw_pixels rend (concat (map f (seqZ lo (hi - lo)))) color.
Proof.
  intros Hbody. unfold iter_range.
  rewrite (iter_loop_pixels color body f Hbody), seqZ_to_nat. reflexivity.
Qed.

Lemma in_concat_seqZ {A : Type} (f : Z -> list A) (lo n : Z) (v : A) :
  In v (concat (map f (seqZ lo n))) <->
  exists i, lo <= i < lo + n /\ In v (f i).
Proof.
  rewrite in_concat. split.
  - intros (l & Hl & Hv). apply in_map_iff in Hl as (i & <- & Hi).
    exists i. split; [|exact Hv].
    apply list_elem_of_In, elem_of_seqZ in Hi. exact Hi.
  - intros (i & Hi & Hv). exists (f i). split; [|exact Hv].
    apply in_map. apply list_elem_of_In, elem_of_seqZ. exact Hi.
Qed.

(** ** Pixels, clearing and rectangles *)

(** X1: An in-bounds call of [renderer_draw_pixel] changes the pixel at its
    position and no other; with alpha 255 the pixel becomes the color of the
    call, fully opaque, whatever it held. *)
Theorem draw_pixel_writes_one_pixel (rend : Renderer) (px py : Z)
    (color : Color) :
  renderer_ok rend ->
  0 <= px < width rend -> 0 <= py < height rend ->
  let rend' := renderer_draw_pixel rend px py color in
  same_shape rend rend' /\
  (forall qx qy,
     0 <= qx < width rend -> 0 <= qy < height rend -> (qx, qy) <> (px, py) ->
     pixel_at rend' qx qy = pixel_at rend qx qy) /\
  (a color = 255 ->
   0 <= r color < 256 -> 0 <= g color < 256 -> 0 <= b color < 256 ->
   pixel_r (pixel_at rend' px py) = r color /\
   pixel_g (pixel_at rend' px py) = g color /\
   pixel_b (pixel_at rend' px py) = b color /\
   pixel_a (pixel_at rend' px py) = 255).
Proof.
  intros Hok Hpx Hpy rend'. subst rend'. split; [apply draw_pixel_same_shape|].
  split.
  - intros qx qy Hqx Hqy Hne. apply draw_pixel_other; try assumption.
    congruence.
  - intros Ha Hr Hg Hb. rewrite draw_pixel_opaque_at by assumption.
    pose proof (pack_argb_channels 255 (r color) (g color) (b color)
                  ltac:(lia) Hr Hg Hb) as (Hca & Hcr & Hcg & Hcb).
    auto.
Qed.

Lemma draw_pixel_writes_one_pixel_witness :
  let rend' := renderer_draw_pixel sample_renderer 2 1 (color_make 10 20 30 255) in
  same_shape sample_renderer rend' /\
  pixel_at rend' 1 1 = pixel_at sample_renderer 1 1 /\
  pixel_r (pixel_at rend' 2 1) = 10.
Proof.
  destruct (draw_pixel_writes_one_pixel sample_renderer 2 1 (color_make 10 20 30 255))
    as (Hshape & Hframe & Hhit).
  - repeat split; simpl; lia.
  - simpl; lia.
  - simpl; lia.
  - split; [exact Hshape|]. split.
    + apply Hframe; [simpl; lia | simpl; lia | discriminate].
    + apply Hhit; simpl; try reflexivity; lia.
Defined.

(** X2: [renderer_clear] stores the packed color in every pixel, without
    blending, and keeps the shape of the renderer. *)
Theorem clear_fills_every_pixel (rend : Renderer) (color : Color) (px py : Z) :
  renderer_ok rend ->
  0 <= px < width rend -> 0 <= py < height rend ->
  same_shape rend (renderer_clear rend color) /\
  pixel_at (renderer_clear rend color) px py
  = pack_argb (a color) (r color) (g color) (b color).
Proof.
  intros (Hw & Hh & Hlen) Hpx Hpy.
  set (pixel := pack_argb (a color) (r color) (g color) (b color)).
  assert (Hinv :
    length (iter_range 0 (width rend * height rend)
              (fun i fb => store fb i pixel) (framebuffer rend))
    = length (framebuffer rend) /\
    forall i, 0 <= i < width rend * height rend ->
      load (iter_range 0 (width rend * height rend)
              (fun i fb => store fb i pixel) (framebuffer rend)) i = pixel).
  { apply (iter_range_invariant
             (fun k fb => length fb = length (framebuffer rend) /\
                          forall i, 0 <= i < k -> load fb i = pixel)).
    - nia.
    - split; [reflexivity|]. intros i Hi. lia.
    - intros k fb Hk [Hl Hall]. split; [rewrite length_store; exact Hl|].
      intros i Hi. rewrite load_store by lia.
      destruct (Z.eqb_spec i k); [reflexivity|]. apply Hall. lia. }
  destruct Hinv as [Hl Hall].
  unfold renderer_clear. fold pixel. split.
  - repeat split. exact Hl.
  - unfold pixel_at, set_framebuffer. cbn [framebuffer width].
    apply Hall. apply index_in_range; assumption.
Qed.

Lemma clear_fills_every_pixel_witness :
  pixel_at (renderer_clear sample_renderer (color_make 1 2 3 4)) 2 1
  = pack_argb 4 1 2 3.
Proof.
  apply (clear_fills_every_pixel sample_renderer (color_make 1 2 3 4) 2 1).
  - repeat split; simpl; lia.
  - simpl; lia.
  - simpl; lia.
Defined.

Lemma filled_rect_as_pixels (rend : Renderer) (x y w h : Z) (color : Color) :
  renderer_draw_filled_rect rend x y w h color
  = draw_pixels rend (filled_rect_pixels x y w h) color.
Proof.
  unfold renderer_draw_filled_rect, filled_rect_pixels.
  rewrite (iter_range_pixels color _
             (fun j => map (fun i => (x + i, y + j)) (seqZ 0 w))).
  - rewrite Z.sub_0_r. reflexivity.
  - intros j rend0.
    rewrite (iter_range_pixels color _ (fun i => [(x + i, y + j)])).
    + rewrite Z.sub_0_r, concat_map_singleton. reflexivity.
    + intros i rend1. reflexivity.
Qed.

Lemma in_filled_rect_pixels (x y w h px py : Z) :
  In (px, py) (filled_rect_pixels x y w h) <->
  x <= px < x + w /\ y <= py < y + h.
Proof.
  unfold filled_rect_pixels. rewrite in_concat_seqZ. split.
  - intros (j & Hj & Hin). apply in_map_iff in Hin as (i & Heq & Hi).
    apply list_elem_of_In, elem_of_seqZ in Hi. injection Heq as <- <-. lia.
  - intros [Hx Hy]. exists (py - y). split; [lia|].
    apply in_map_iff. exists (px - x). split; [f_equal; lia|].
    apply list_elem_of_In, elem_of_seqZ. lia.
Qed.

(** X3: [renderer_draw_filled_rect] with an opaque color gives that color to
    every pixel of [[x, x+w) x [y, y+h)] that is on the screen, and leaves
    every other pixel as it was; a rectangle of no width or no height draws
    nothing. *)
Theorem filled_rect_fills_the_rectangle (rend : Renderer) (x y w h : Z)
    (color : Color) (px py : Z) :
  renderer_ok rend ->
  0 <= px < width rend -> 0 <= py < height rend ->
  let rend' := renderer_draw_filled_rect rend x y w h color in
  same_shape rend rend' /\
  (a color = 255 -> x <= px < x + w -> y <= py < y + h ->
   pixel_at rend' px py = pack_argb 255 (r color) (g color) (b color)) /\
  (~ (x <= px < x + w /\ y <= py < y + h) ->
   pixel_at rend' px py = pixel_at rend px py) /\
  (w <= 0 \/ h <= 0 -> rend' = rend).
Proof.
  intros Hok Hpx Hpy rend'. subst rend'.
  rewrite filled_rect_as_pixels.
  pose proof (draw_pixels_at rend (filled_rect_pixels x y w h) color px py
                Hpx Hpy) as [Hframe Hhit].
  split; [apply draw_pixels_same_shape|]. split; [|split].
  - intros Ha Hx Hy. apply Hhit; try assumption.
    apply in_filled_rect_pixels. auto.
  - intros Hout. apply Hframe. rewrite in_filled_rect_pixels. exact Hout.
  - intros Hempty. unfold filled_rect_pixels.
    destruct Hempty as [Hw0|Hh0].
    + rewrite (seqZ_nil 0 w) by exact Hw0. simpl.
      rewrite (concat_map_nil (seqZ 0 h)). reflexivity.
    + rewrite (seqZ_nil 0 h) by exact Hh0. reflexivity.
Qed.

Lemma filled_rect_fills_the_rectangle_witness :
  let rend' := renderer_draw_filled_rect sample_renderer 1 0 2 1
                 (color_make 255 0 0 255) in
  pixel_at rend' 2 0 = pack_argb 255 255 0 0 /\
  pixel_at rend' 0 0 = pixel_at sample_renderer 0 0.
Proof.
  destruct (filled_rect_fills_the_rectangle sample_renderer 1 0 2 1
              (color_make 255 0 0 255) 2 0) as (_ & Hin & _).
  { repeat split; simpl; lia. }
  { simpl; lia. }
  { simpl; lia. }
  destruct (filled_rect_fills_the_rectangle sample_renderer 1 0 2 1
              (color_make 255 0 0 255) 0 0) as (_ & _ & Hout & _).
  { repeat split; simpl; lia. }
  { simpl; lia. }
  { simpl; lia. }
  split; [apply Hin; [reflexivity | lia | lia] | apply Hout; lia].
Defined.

Lemma rect_as_pixels (rend : Renderer) (x y w h : Z) (color : Color) :
  renderer_draw_rect rend x y w h color
  = draw_pixels rend (rect_pixels x y w h) color.
Proof.
  unfold renderer_draw_rect, rect_pixels. cbv zeta.
  rewrite draw_pixels_app.
  rewrite (iter_range_pixels color
             (fun i rend0 =>
                renderer_draw_pixel (renderer_draw_pixel rend0 (x + i) y color)
                  (x + i) (y + h - 1) color)
             (fun i => [(x + i, y); (x + i, y + h - 1)]) 0 w rend)
    by reflexivity.
  rewrite (iter_range_pixels color
             (fun i rend0 =>
                renderer_draw_pixel (renderer_draw_pixel rend0 x (y + i) color)
                  (x + w - 1) (y + i) color)
             (fun i => [(x, y + i); (x + w - 1, y + i)]) 0 h)
    by reflexivity.
  rewrite !Z.sub_0_r. reflexivity.
Qed.

Lemma in_rect_pixels (x y w h px py : Z) :
  In (px, py) (rect_pixels x y w h) <-> on_rect_outline x y w h px py.
Proof.
  unfold rect_pixels, on_rect_outline.
  rewrite in_app_iff, !in_concat_seqZ. split.
  - intros [(i & Hi & Hin)|(i & Hi & Hin)]; simpl in Hin;
      destruct Hin as [Heq|[Heq|[]]]; injection Heq as <- <-; [left|left|right|right]; lia.
  - intros [[Hx Hy]|[Hy Hx]].
    + left. exists (px - x). split; [lia|]. simpl.
      destruct Hy as [->| ->]; [left|right; left]; f_equal; lia.
    + right. exists (py - y). split; [lia|]. simpl.
      destruct Hx as [->| ->]; [left|right; left]; f_equal; lia.
Qed.

(** X4: [renderer_draw_rect] with an opaque color gives that color to the
    border of the rectangle and leaves every other pixel as it was, the
    inside of the rectangle too. *)
Theorem rect_draws_the_border_only (rend : Renderer) (x y w h : Z)
    (color : Color) (px py : Z) :
  renderer_ok rend ->
  0 <= px < width rend -> 0 <= py < height rend ->
  let rend' := renderer_draw_rect rend x y w h color in
  same_shape rend rend' /\
  (a color = 255 -> on_rect_outline x y w h px py ->
   pixel_at rend' px py = pack_argb 255 (r color) (g color) (b color)) /\
  (~ on_rect_outline x y w h px py ->
   pixel_at rend' px py = pixel_at rend px py) /\
  (x < px < x + w - 1 -> y < py < y + h - 1 ->
   pixel_at rend' px py = pixel_at rend px py).
Proof.
  intros Hok Hpx Hpy rend'. subst rend'. rewrite rect_as_pixels.
  pose proof (draw_pixels_at rend (rect_pixels x y w h) color px py Hpx Hpy)
    as [Hframe Hhit].
  split; [apply draw_pixels_same_shape|]. split; [|split].
  - intros Ha Hon. apply Hhit; try assumption. apply in_rect_pixels. exact Hon.
  - intros Hoff. apply Hframe. rewrite in_rect_pixels. exact Hoff.
  - intros Hx Hy. apply Hframe. rewrite in_rect_pixels.
    unfold on_rect_outline. lia.
Qed.

Lemma rect_draws_the_border_only_witness :
  let rend' := renderer_draw_rect sample_renderer 0 0 3 2
                 (color_make 0 255 0 255) in
  pixel_at rend' 2 1 = pack_argb 255 0 255 0.
Proof.
  destruct (rect_draws_the_border_only sample_renderer 0 0 3 2
              (color_make 0 255 0 255) 2 1) as (_ & Hon & _).
  - repeat split; simpl; lia.
  - simpl; lia.
  - simpl; lia.
  - apply Hon; [reflexivity|]. unfold on_rect_outline. lia.
Defined.

(** ** Circles *)

Lemma filled_circle_as_pixels (rend : Renderer) (cx cy radius : Z)
    (color : Color) :
  renderer_draw_filled_circle rend cx cy radius color
  = draw_pixels rend (filled_circle_pixels cx cy radius) color.
Proof.
  unfold renderer_draw_filled_circle, filled_circle_pixels.
  apply iter_range_pixels. intros y rend0.
  apply iter_range_pixels. intros x rend1.
  destruct (iadd (imul x x) (imul y y) <=? imul radius radius); reflexivity.
Qed.

Lemma square_le_bound (v bound : Z) :
  0 <= bound -> v * v <= bound * bound -> - bound <= v <= bound.
Proof. intros Hb Hv. split; nia. Qed.

(** Up to radius 32767 the squares of the test fit an [int]. *)
Lemma filled_circle_test_exact (radius x y : Z) :
  - 2 ^ 31 < radius <= 32767 ->
  - radius <= x <= radius -> - radius <= y <= radius ->
  (iadd (imul x x) (imul y y) <=? imul radius radius)
  = (x * x + y * y <=? radius * radius).
Proof.
  intros Hr Hx Hy.
  assert (Hxx : 0 <= x * x <= 32767 * 32767) by nia.
  assert (Hyy : 0 <= y * y <= 32767 * 32767) by nia.
  assert (Hrr : 0 <= radius * radius <= 32767 * 32767) by nia.
  unfold iadd, imul.
  rewrite (wrap_id (x * x)), (wrap_id (y * y)), (wrap_id (radius * radius))
    by (unfold is_int; lia).
  rewrite wrap_id by (unfold is_int; lia). reflexivity.
Qed.

Lemma in_filled_circle_pixels (cx cy radius px py : Z) :
  filled_circle_in_range cx cy radius ->
  In (px, py) (filled_circle_pixels cx cy radius) <->
  0 <= radius /\
  (px - cx) * (px - cx) + (py - cy) * (py - cy) <= radius * radius.
Proof.
  intros (Hr & Hxl & Hxh & Hyl & Hyh).
  assert (Hneg : ineg radius = - radius)
    by (unfold ineg; apply wrap_id; unfold is_int; lia).
  unfold filled_circle_pixels. rewrite Hneg, in_concat_seqZ. split.
  - intros (y & Hy & Hin). apply in_concat_seqZ in Hin as (x & Hx & Hin).
    rewrite filled_circle_test_exact in Hin by lia.
    destruct (Z.leb_spec (x * x + y * y) (radius * radius)) as [Hle|Hgt];
      [|destruct Hin].
    destruct Hin as [Heq|[]]. injection Heq as <- <-.
    split; [lia|]. unfold iadd.
    rewrite (wrap_id (cx + x)), (wrap_id (cy + y)) by (unfold is_int in *; lia).
    replace (cx + x - cx) with x by lia. replace (cy + y - cy) with y by lia.
    exact Hle.
  - intros [Hr0 Hd].
    pose proof (Z.square_nonneg (px - cx)). pose proof (Z.square_nonneg (py - cy)).
    assert (Hdx : - radius <= px - cx <= radius)
      by (apply square_le_bound; lia).
    assert (Hdy : - radius <= py - cy <= radius)
      by (apply square_le_bound; lia).
    exists (py - cy). split; [lia|].
    apply in_concat_seqZ. exists (px - cx). split; [lia|].
    rewrite filled_circle_test_exact by lia.
    destruct (Z.leb_spec ((px - cx) * (px - cx) + (py - cy) * (py - cy))
                (radius * radius)); [|lia].
    left. unfold iadd.
    rewrite (wrap_id (cx + (px - cx))), (wrap_id (cy + (py - cy)))
      by (unfold is_int in *; lia).
    f_equal; lia.
Qed.

(** X5: for a radius of at most 32767, whose squares fit an [int], and a
    center whose bounding square has [int] coordinates,
    [renderer_draw_filled_circle] draws the pixels at squared distance at
    most [radius * radius] from the center and no other: with an opaque
    color those on the screen get the color, every other pixel stays as it
    was.  A negative radius draws nothing, radius 0 the center alone. *)
Theorem filled_circle_fills_the_disc (rend : Renderer) (cx cy radius : Z)
    (color : Color) (px py : Z) :
  renderer_ok rend ->
  filled_circle_in_range cx cy radius ->
  0 <= px < width rend -> 0 <= py < height rend ->
  let rend' := renderer_draw_filled_circle rend cx cy radius color in
  let inside :=
    0 <= radius /\
    (px - cx) * (px - cx) + (py - cy) * (py - cy) <= radius * radius in
  same_shape rend rend' /\
  (a color = 255 -> inside ->
   pixel_at rend' px py = pack_argb 255 (r color) (g color) (b color)) /\
  (~ inside -> pixel_at rend' px py = pixel_at rend px py) /\
  (radius = 0 -> (px, py) <> (cx, cy) ->
   pixel_at rend' px py = pixel_at rend px py).
Proof.
  intros Hok Hrange Hpx Hpy rend' inside. subst rend' inside.
  rewrite filled_circle_as_pixels.
  pose proof (draw_pixels_at rend (filled_circle_pixels cx cy radius) color
                px py Hpx Hpy) as [Hframe Hhit].
  split; [apply draw_pixels_same_shape|]. split; [|split].
  - intros Ha Hin. apply Hhit; try assumption.
    apply in_filled_circle_pixels; assumption.
  - intros Hout. apply Hframe.
    rewrite in_filled_circle_pixels by exact Hrange. exact Hout.
  - intros -> Hne. apply Hframe.
    rewrite in_filled_circle_pixels by exact Hrange.
    intros [_ Hd]. apply Hne.
    pose proof (Z.square_nonneg (px - cx)). pose proof (Z.square_nonneg (py - cy)).
    pose proof (square_le_bound (px - cx) 0 ltac:(lia) ltac:(lia)).
    pose proof (square_le_bound (py - cy) 0 ltac:(lia) ltac:(lia)).
    f_equal; lia.
Qed.

Lemma filled_circle_fills_the_disc_witness :
  let rend' := renderer_draw_filled_circle sample_renderer 1 1 1
                 (color_make 0 0 255 255) in
  pixel_at rend' 1 0 = pack_argb 255 0 0 255 /\
  pixel_at rend' 0 0 = pixel_at sample_renderer 0 0.
Proof.
  assert (Hrange : filled_circle_in_range 1 1 1)
    by (unfold filled_circle_in_range, is_int; lia).
  destruct (filled_circle_fills_the_disc sample_renderer 1 1 1
              (color_make 0 0 255 255) 1 0) as (_ & Hin & _).
  { repeat split; simpl; lia. }
  { exact Hrange. }
  { simpl; lia. }
  { simpl; lia. }
  destruct (filled_circle_fills_the_disc sample_renderer 1 1 1
              (color_make 0 0 255 255) 0 0) as (_ & _ & Hout & _).
  { repeat split; simpl; lia. }
  { exact Hrange. }
  { simpl; lia. }
  { simpl; lia. }
  split; [apply Hin; [reflexivity | lia] | apply Hout; lia].
Defined.

(** At radius 32768 the squares no longer fit: the corner [(32768, 32768)]
    of the bounding square, outside of the disc, passes the test. *)
Example filled_circle_corner_wraps :
  (iadd (imul 32768 32768) (imul 32768 32768) <=? imul 32768 32768) = true /\
  (32768 * 32768 + 32768 * 32768 <=? 32768 * 32768) = false.
Proof. split; reflexivity. Qed.






(** ** The path of a line *)

Lemma line_path_shape (fuel : nat) :
  forall x1 y1 x2 y2 dx dy sx sy err,
    (sx = 1 \/ sx = -1) -> (sy = 1 \/ sy = -1) ->
    0 <= sx * (x2 - x1) <= dx ->
    0 <= sy * (y2 - y1) <= dy ->
    err = dx - dy + sx * (x2 - x1) * dy - sy * (y2 - y1) * dx ->
    (Z.to_nat (sx * (x2 - x1) + sy * (y2 - y1)) < fuel)%nat ->
    exists path,
      bresenham_path fuel x1 y1 x2 y2 dx dy sx sy err = Ret ((x1, y1) :: path) /\
      last ((x1, y1) :: path) = Some (x2, y2) /\
      connected ((x1, y1) :: path) /\
      forall px py, In (px, py) ((x1, y1) :: path) ->
        0 <= sx * (x2 - px) <= sx * (x2 - x1) /\
        0 <= sy * (y2 - py) <= sy * (y2 - y1).
Proof.
  induction fuel as [|fuel IH];
    intros x1 y1 x2 y2 dx dy sx sy err Hsx Hsy Hrx Hry Herr Hfuel; [lia|].
  cbn [bresenham_path].
  destruct (Z.eqb_spec x1 x2) as [Hx|Hx]; destruct (Z.eqb_spec y1 y2) as [Hy|Hy];
    cbn [andb].
  { subst x2 y2. exists []. repeat split; try reflexivity.
    all: destruct H as [Heq|[]]; injection Heq as <- <-; lia. }
  all: destruct (Z.gtb_spec (2 * err) (- dy)) as [Hxs|Hxs];
       destruct (Z.ltb_spec (2 * err) dx) as [Hys|Hys].
  all: try (exfalso; subst err; nia).
  all: match goal with
       | |- context [bresenham_path _ ?nx ?ny _ _ _ _ _ _ ?e] =>
           destruct (IH nx ny x2 y2 dx dy sx sy e)
             as (rest & Hrest & Hlast & Hconn & Hbox);
             [assumption | assumption | nia | nia | subst err; nia | nia |];
           rewrite Hrest; cbn [bind];
           exists ((nx, ny) :: rest);
           split; [reflexivity|];
           split; [exact Hlast|];
           split;
           [ split; [|exact Hconn];
             unfold adjacent; cbn [fst snd];
             split; [intros Heq; injection Heq; lia | lia]
           | intros px py [Heq|Hin];
             [ injection Heq as <- <-; nia
             | specialize (Hbox px py Hin); nia ] ]
       end.
Qed.

(** A line that is wider than high takes a step along x at every
    iteration. *)
Lemma line_path_length_wide (fuel : nat) :
  forall x1 y1 x2 y2 dx dy sx sy err path,
    (sx = 1 \/ sx = -1) -> (sy = 1 \/ sy = -1) ->
    0 <= sx * (x2 - x1) <= dx ->
    0 <= sy * (y2 - y1) <= dy ->
    err = dx - dy + sx * (x2 - x1) * dy - sy * (y2 - y1) * dx ->
    (dy < dx /\ 2 * err > - dy) \/
      (dy = dx /\ sx * (x2 - x1) = sy * (y2 - y1)) ->
    bresenham_path fuel x1 y1 x2 y2 dx dy sx sy err = Ret path ->
    Z.of_nat (length path) = sx * (x2 - x1) + 1.
Proof.
  induction fuel as [|fuel IH];
    intros x1 y1 x2 y2 dx dy sx sy err path Hsx Hsy Hrx Hry Herr Hmajor Hpath;
    [discriminate|].
  cbn [bresenham_path] in Hpath.
  destruct (Z.eqb_spec x1 x2) as [Hx|Hx]; destruct (Z.eqb_spec y1 y2) as [Hy|Hy];
    cbn [andb] in Hpath.
  { injection Hpath as <-. subst x2. simpl. lia. }
  all: destruct (Z.gtb_spec (2 * err) (- dy)) as [Hxs|Hxs];
       destruct (Z.ltb_spec (2 * err) dx) as [Hys|Hys].
  all: try (exfalso; subst err; nia).
  all: match type of Hpath with
       | context [bresenham_path _ ?nx ?ny _ _ _ _ _ _ ?e] =>
           destruct (bresenham_path fuel nx ny x2 y2 dx dy sx sy e) as [rest|] eqn:Hrest;
             [|discriminate];
           cbn [bind] in Hpath; injection Hpath as <-;
           apply IH in Hrest; [| assumption | assumption | nia | nia
                                | subst err; nia | subst err; nia ];
           cbn [length]; rewrite Nat2Z.inj_succ, Hrest; nia
       end.
Qed.

(** A line that is higher than wide takes a step along y at every
    iteration. *)
Lemma line_path_length_high (fuel : nat) :
  forall x1 y1 x2 y2 dx dy sx sy err path,
    (sx = 1 \/ sx = -1) -> (sy = 1 \/ sy = -1) ->
    0 <= sx * (x2 - x1) <= dx ->
    0 <= sy * (y2 - y1) <= dy ->
    err = dx - dy + sx * (x2 - x1) * dy - sy * (y2 - y1) * dx ->
    dx < dy -> 2 * err < dx ->
    bresenham_path fuel x1 y1 x2 y2 dx dy sx sy err = Ret path ->
    Z.of_nat (length path) = sy * (y2 - y1) + 1.
Proof.
  induction fuel as [|fuel IH];
    intros x1 y1 x2 y2 dx dy sx sy err path Hsx Hsy Hrx Hry Herr Hmajor Hlow Hpath;
    [discriminate|].
  cbn [bresenham_path] in Hpath.
  destruct (Z.eqb_spec x1 x2) as [Hx|Hx]; destruct (Z.eqb_spec y1 y2) as [Hy|Hy];
    cbn [andb] in Hpath.
  { injection Hpath as <-. subst y2. simpl. lia. }
  all: destruct (Z.gtb_spec (2 * err) (- dy)) as [Hxs|Hxs];
       destruct (Z.ltb_spec (2 * err) dx) as [Hys|Hys].
  all: try (exfalso; subst err; nia).
  all: match type of Hpath with
       | context [bresenham_path _ ?nx ?ny _ _ _ _ _ _ ?e] =>
           destruct (bresenham_path fuel nx ny x2 y2 dx dy sx sy e) as [rest|] eqn:Hrest;
             [|discriminate];
           cbn [bind] in Hpath; injection Hpath as <-;
           apply IH in Hrest; [| assumption | assumption | nia | nia
                                | subst err; nia | assumption | subst err; nia ];
           cbn [length]; rewrite Nat2Z.inj_succ, Hrest; nia
       end.
Qed.

Lemma line_pixels_facts (x1 y1 x2 y2 : Z) :
  exists path,
    bresenham_pixels x1 y1 x2 y2 = Ret path /\
    head path = Some (x1, y1) /\
    last path = Some (x2, y2) /\
    connected path /\
    Z.of_nat (length path) = Z.max (Z.abs (x2 - x1)) (Z.abs (y2 - y1)) + 1 /\
    forall px py, In (px, py) path ->
      Z.min x1 x2 <= px <= Z.max x1 x2 /\ Z.min y1 y2 <= py <= Z.max y1 y2.
Proof.
  unfold bresenham_pixels.
  set (dx := Z.abs (x2 - x1)). set (dy := Z.abs (y2 - y1)).
  set (sx := if x1 <? x2 then 1 else -1). set (sy := if y1 <? y2 then 1 else -1).
  assert (Hsx : sx = 1 \/ sx = -1) by (subst sx; destruct (x1 <? x2); auto).
  assert (Hsy : sy = 1 \/ sy = -1) by (subst sy; destruct (y1 <? y2); auto).
  assert (Hrx : sx * (x2 - x1) = dx)
    by (subst sx dx; destruct (Z.ltb_spec x1 x2); lia).
  assert (Hry : sy * (y2 - y1) = dy)
    by (subst sy dy; destruct (Z.ltb_spec y1 y2); lia).
  assert (Hdx : 0 <= dx) by (subst dx; lia).
  assert (Hdy : 0 <= dy) by (subst dy; lia).
  assert (Herr : dx - dy = dx - dy + sx * (x2 - x1) * dy - sy * (y2 - y1) * dx)
    by (rewrite Hrx, Hry; ring).
  destruct (line_path_shape (line_fuel dx dy) x1 y1 x2 y2 dx dy sx sy (dx - dy)
              Hsx Hsy ltac:(lia) ltac:(lia) Herr ltac:(unfold line_fuel; lia))
    as (rest & Hpath & Hlast & Hconn & Hbox).
  exists ((x1, y1) :: rest).
  split; [exact Hpath|].
  split; [reflexivity|]. split; [exact Hlast|]. split; [exact Hconn|]. split.
  - destruct (Z_lt_le_dec dx dy) as [Hhigh|Hwide].
    + rewrite (line_path_length_high (line_fuel dx dy) x1 y1 x2 y2 dx dy sx sy
                 (dx - dy) ((x1, y1) :: rest) Hsx Hsy
                 ltac:(lia) ltac:(lia) Herr Hhigh ltac:(lia) Hpath).
      lia.
    + assert (Hmajor : (dy < dx /\ 2 * (dx - dy) > - dy) \/
                       (dy = dx /\ sx * (x2 - x1) = sy * (y2 - y1)))
        by (destruct (Z.eq_dec dy dx); [right|left]; lia).
      rewrite (line_path_length_wide (line_fuel dx dy) x1 y1 x2 y2 dx dy sx sy
                 (dx - dy) ((x1, y1) :: rest) Hsx Hsy
                 ltac:(lia) ltac:(lia) Herr Hmajor Hpath).
      lia.
  - intros px py Hin. specialize (Hbox px py Hin).
    subst sx sy. destruct (Z.ltb_spec x1 x2), (Z.ltb_spec y1 y2); lia.
Qed.

(** X7: For endpoints in range ([int] coordinates, three times each span
    within [int]), the pixels [renderer_draw_line] draws form a path from
    [(x1, y1)] to [(x2, y2)], both included, in which each pixel touches the
    next; it has [max (|x2 - x1|, |y2 - y1|) + 1] pixels, one for each step
    along the longer axis, and stays in the rectangle spanned by the
    endpoints.  So a line of length zero is one pixel. *)
Theorem line_is_a_connected_path (rend : Renderer) (x1 y1 x2 y2 : Z)
    (color : Color) :
  line_in_range x1 y1 x2 y2 ->
  exists path,
    renderer_draw_line rend x1 y1 x2 y2 color
      = Ret (draw_pixels rend path color) /\
    head path = Some (x1, y1) /\
    last path = Some (x2, y2) /\
    connected path /\
    Z.of_nat (length path) = Z.max (Z.abs (x2 - x1)) (Z.abs (y2 - y1)) + 1 /\
    forall px py, In (px, py) path ->
      Z.min x1 x2 <= px <= Z.max x1 x2 /\ Z.min y1 y2 <= py <= Z.max y1 y2.
Proof.
  intros Hrange.
  destruct (line_pixels_facts x1 y1 x2 y2) as (path & Hpix & Hfacts).
  exists path. split; [|exact Hfacts].
  rewrite draw_line_pixels by exact Hrange. rewrite Hpix. reflexivity.
Qed.

Lemma line_is_a_connected_path_witness :
  exists path,
    renderer_draw_line sample_renderer 0 0 2 1 (color_make 7 7 7 255)
      = Ret (draw_pixels sample_renderer path (color_make 7 7 7 255)) /\
    head path = Some (0, 0) /\
    last path = Some (2, 1) /\
    connected path /\
    Z.of_nat (length path) = Z.max (Z.abs (2 - 0)) (Z.abs (1 - 0)) + 1 /\
    forall px py, In (px, py) path ->
      Z.min 0 2 <= px <= Z.max 0 2 /\ Z.min 0 1 <= py <= Z.max 0 1.
Proof.
  apply (line_is_a_connected_path sample_renderer 0 0 2 1 (color_make 7 7 7 255)).
  unfold line_in_range, is_int. repeat split; simpl; lia.
Defined.

(** X8: For endpoints in range ([int] coordinates, three times each span
    within [int]), [renderer_draw_line] returns and changes no pixel outside
    the rectangle spanned by the endpoints; with an opaque color the two
    endpoints, when on the screen, get the color. *)
Theorem line_stays_between_its_endpoints (rend : Renderer) (x1 y1 x2 y2 : Z)
    (color : Color) (px py : Z) :
  renderer_ok rend ->
  line_in_range x1 y1 x2 y2 ->
  0 <= px < width rend -> 0 <= py < height rend ->
  exists rend',
    renderer_draw_line rend x1 y1 x2 y2 color = Ret rend' /\
    same_shape rend rend' /\
    (~ (Z.min x1 x2 <= px <= Z.max x1 x2 /\ Z.min y1 y2 <= py <= Z.max y1 y2) ->
     pixel_at rend' px py = pixel_at rend px py) /\
    (a color = 255 -> (px, py) = (x1, y1) \/ (px, py) = (x2, y2) ->
     pixel_at rend' px py = pack_argb 255 (r color) (g color) (b color)).
Proof.
  intros Hok Hrange Hpx Hpy.
  destruct (line_pixels_facts x1 y1 x2 y2)
    as (path & Hpix & Hhead & Hlast & _ & _ & Hbox).
  exists (draw_pixels rend path color).
  split; [rewrite draw_line_pixels by exact Hrange; rewrite Hpix; reflexivity|].
  pose proof (draw_pixels_at rend path color px py Hpx Hpy) as [Hframe Hhit].
  split; [apply draw_pixels_same_shape|]. split.
  - intros Hout. apply Hframe. intros Hin. apply Hout, Hbox, Hin.
  - intros Ha Hend. apply Hhit; try assumption.
    destruct Hend as [-> | ->].
    + destruct path as [|p path]; [discriminate|].
      injection Hhead as ->. left. reflexivity.
    + apply list_elem_of_In. apply last_Some_elem_of. exact Hlast.
Qed.

Lemma line_stays_between_its_endpoints_witness :
  exists rend',
    renderer_draw_line sample_renderer 0 0 2 1 (color_make 7 7 7 255)
    = Ret rend' /\
    pixel_at rend' 2 1 = pack_argb 255 7 7 7.
Proof.
  destruct (line_stays_between_its_endpoints sample_renderer 0 0 2 1
              (color_make 7 7 7 255) 2 1)
    as (rend' & Hrun & _ & _ & Hend).
  - repeat split; simpl; lia.
  - unfold line_in_range, is_int. repeat split; simpl; lia.
  - simpl; lia.
  - simpl; lia.
  - exists rend'. split; [exact Hrun|].
    apply Hend; [reflexivity | right; reflexivity].
Defined.

(** X9: For vertices whose three sides are lines in range ([int]
    coordinates, three times each span within [int]),
    [renderer_draw_triangle] returns and changes no pixel outside the
    rectangle spanned by the three vertices; with an opaque color each
    vertex on the screen gets the color. *)
Theorem triangle_outline_joins_the_vertices (rend : Renderer)
    (x1 y1 x2 y2 x3 y3 : Z) (color : Color) (px py : Z) :
  renderer_ok rend ->
  line_in_range x1 y1 x2 y2 -> line_in_range x2 y2 x3 y3 ->
  line_in_range x3 y3 x1 y1 ->
  0 <= px < width rend -> 0 <= py < height rend ->
  exists rend',
    renderer_draw_triangle rend x1 y1 x2 y2 x3 y3 color = Ret rend' /\
    same_shape rend rend' /\
    (~ (Z.min x1 (Z.min x2 x3) <= px <= Z.max x1 (Z.max x2 x3) /\
        Z.min y1 (Z.min y2 y3) <= py <= Z.max y1 (Z.max y2 y3)) ->
     pixel_at rend' px py = pixel_at rend px py) /\
    (a color = 255 ->
     (px, py) = (x1, y1) \/ (px, py) = (x2, y2) \/ (px, py) = (x3, y3) ->
     pixel_at rend' px py = pack_argb 255 (r color) (g color) (b color)).
Proof.
  intros Hok Hr1 Hr2 Hr3 Hpx Hpy. unfold renderer_draw_triangle.
  destruct (line_pixels_facts x1 y1 x2 y2) as (p1 & Hp1 & Hh1 & _ & _ & _ & Hb1).
  destruct (line_pixels_facts x2 y2 x3 y3) as (p2 & Hp2 & Hh2 & _ & _ & _ & Hb2).
  destruct (line_pixels_facts x3 y3 x1 y1) as (p3 & Hp3 & Hh3 & _ & _ & _ & Hb3).
  rewrite draw_line_pixels by exact Hr1. rewrite Hp1. cbn [bind].
  rewrite draw_line_pixels by exact Hr2. rewrite Hp2. cbn [bind].
  rewrite draw_line_pixels by exact Hr3. rewrite Hp3. cbn [bind].
  rewrite <- !draw_pixels_app.
  eexists. split; [reflexivity|].
  pose proof (draw_pixels_at rend (p1 ++ p2 ++ p3) color px py Hpx Hpy)
    as [Hframe Hhit].
  split; [apply draw_pixels_same_shape|]. split.
  - intros Hout. apply Hframe. rewrite !in_app_iff.
    intros [Hin|[Hin|Hin]];
      [apply Hb1 in Hin | apply Hb2 in Hin | apply Hb3 in Hin]; lia.
  - intros Ha Hv. apply Hhit; try assumption. rewrite !in_app_iff.
    destruct Hv as [->|[->| ->]].
    + left. destruct p1; [discriminate|]. injection Hh1 as ->. left; reflexivity.
    + right; left. destruct p2; [discriminate|]. injection Hh2 as ->. left; reflexivity.
    + right; right. destruct p3; [discriminate|]. injection Hh3 as ->. left; reflexivity.
Qed.

Lemma triangle_outline_joins_the_vertices_witness :
  exists rend',
    renderer_draw_triangle sample_renderer 0 0 2 0 1 1 (color_make 7 7 7 255)
    = Ret rend' /\
    pixel_at rend' 1 1 = pack_argb 255 7 7 7.
Proof.
  destruct (triangle_outline_joins_the_vertices sample_renderer 0 0 2 0 1 1
              (color_make 7 7 7 255) 1 1)
    as (rend' & Hrun & _ & _ & Hv).
  - repeat split; simpl; lia.
  - unfold line_in_range, is_int. repeat split; simpl; lia.
  - unfold line_in_range, is_int. repeat split; simpl; lia.
  - unfold line_in_range, is_int. repeat split; simpl; lia.
  - simpl; lia.
  - simpl; lia.
  - exists rend'. split; [exact Hrun|].
    apply Hv; [reflexivity | right; right; reflexivity].
Defined.

(** ** Blending *)

Lemma byte_cases (P : Z -> bool) :
  forallb P (seqZ 0 256) = true -> forall v, 0 <= v < 256 -> P v = true.
Proof.
  intros Hall v Hv. rewrite forallb_forall in Hall. apply Hall.
  apply list_elem_of_In, elem_of_seqZ. lia.
Qed.

(** With alpha 1 a blended channel is the source, with alpha 0 the
    destination. *)
Lemma blend_channel_opaque (s d : Z) :
  0 <= s < 256 -> 0 <= d < 256 ->
  blend_channel s d (F32.div (F32.of_int 255) (F32.of_int 255)) = s.
Proof.
  intros Hs Hd. unfold blend_channel.
  assert (Hdst : F32.mul (F32.of_int d)
                   (F32.sub (F32.of_int 1)
                      (F32.div (F32.of_int 255) (F32.of_int 255))) = F32.zero).
  { pose proof (byte_cases
      (fun d => match F32.mul (F32.of_int d)
                        (F32.sub (F32.of_int 1)
                           (F32.div (F32.of_int 255) (F32.of_int 255))) with
                | S754_zero false => true
                | _ => false
                end) ltac:(vm_compute; reflexivity) d Hd) as H.
    cbv beta in H.
    destruct (F32.mul _ _) as [[|]| | |]; try discriminate. reflexivity. }
  rewrite Hdst.
  pose proof (byte_cases
    (fun s => u8 (F32.to_int
                    (F32.add (F32.mul (F32.of_int s)
                                (F32.div (F32.of_int 255) (F32.of_int 255)))
                       F32.zero)) =? s)
    ltac:(vm_compute; reflexivity) s Hs) as H.
  cbv beta in H. lia.
Qed.

Lemma blend_channel_transparent (s d : Z) :
  0 <= s < 256 -> 0 <= d < 256 ->
  blend_channel s d (F32.div (F32.of_int 0) (F32.of_int 255)) = d.
Proof.
  intros Hs Hd. unfold blend_channel.
  assert (Hsrc : F32.mul (F32.of_int s)
                   (F32.div (F32.of_int 0) (F32.of_int 255)) = F32.zero).
  { pose proof (byte_cases
      (fun s => match F32.mul (F32.of_int s)
                        (F32.div (F32.of_int 0) (F32.of_int 255)) with
                | S754_zero false => true
                | _ => false
                end) ltac:(vm_compute; reflexivity) s Hs) as H.
    cbv beta in H.
    destruct (F32.mul _ _) as [[|]| | |]; try discriminate. reflexivity. }
  rewrite Hsrc.
  pose proof (byte_cases
    (fun d => u8 (F32.to_int
                    (F32.add F32.zero
                       (F32.mul (F32.of_int d)
                          (F32.sub (F32.of_int 1)
                             (F32.div (F32.of_int 0) (F32.of_int 255)))))) =? d)
    ltac:(vm_compute; reflexivity) d Hd) as H.
  cbv beta in H. lia.
Qed.

(** X10: [color_blend] of a fully opaque source is the source, of a fully
    transparent source the destination; the alpha of the result is 255 in
    both cases, whatever the alpha of the destination. *)
Theorem color_blend_opaque_and_transparent (src dst : Color) :
  color_ok src -> color_ok dst ->
  a (color_blend src dst) = 255 /\
  (a src = 255 ->
   color_blend src dst = mkColor (r src) (g src) (b src) 255) /\
  (a src = 0 ->
   color_blend src dst = mkColor (r dst) (g dst) (b dst) 255).
Proof.
  intros (Hr & Hg & Hb & Ha) (Hr' & Hg' & Hb' & Ha').
  split; [reflexivity|]. split; intros Halpha; unfold color_blend; rewrite Halpha.
  - rewrite !blend_channel_opaque by assumption. reflexivity.
  - rewrite !blend_channel_transparent by assumption. reflexivity.
Qed.

Lemma color_blend_opaque_and_transparent_witness :
  color_blend (color_make 10 20 30 255) (color_make 1 2 3 77)
  = mkColor 10 20 30 255.
Proof.
  apply (color_blend_opaque_and_transparent
           (color_make 10 20 30 255) (color_make 1 2 3 77)).
  - repeat split; simpl; lia.
  - repeat split; simpl; lia.
  - reflexivity.
Defined.

Lemma pixel_channel_range (pixel : Z) :
  0 <= pixel_r pixel < 256 /\ 0 <= pixel_g pixel < 256 /\
  0 <= pixel_b pixel < 256 /\ 0 <= pixel_a pixel < 256.
Proof.
  unfold pixel_r, pixel_g, pixel_b, pixel_a. change 255 with (Z.ones 8).
  rewrite !Z.land_ones by lia. change (2 ^ 8) with 256.
  repeat split; apply Z.mod_pos_bound; lia.
Qed.

(** X11: [renderer_draw_pixel] with alpha 0 keeps the red, green and blue of
    the pixel and sets its alpha to 255. *)
Theorem draw_pixel_fully_transparent (rend : Renderer) (px py : Z)
    (color : Color) :
  renderer_ok rend ->
  0 <= px < width rend -> 0 <= py < height rend ->
  color_ok color -> a color = 0 ->
  let old := pixel_at rend px py in
  let new := pixel_at (renderer_draw_pixel rend px py color) px py in
  new = pack_argb 255 (pixel_r old) (pixel_g old) (pixel_b old) /\
  pixel_r new = pixel_r old /\ pixel_g new = pixel_g old /\
  pixel_b new = pixel_b old /\ pixel_a new = 255.
Proof.
  intros (Hw & Hh & Hlen) Hpx Hpy (Hr & Hg & Hb & _) Ha old new.
  pose proof (pixel_channel_range old) as (Hor & Hog & Hob & _).
  assert (Hnew : new = pack_argb 255 (pixel_r old) (pixel_g old) (pixel_b old)).
  { subst new. rewrite (draw_pixel_inside rend px py color Hpx Hpy).
    unfold pixel_at, set_framebuffer. cbn [framebuffer width].
    rewrite load_store_same
      by (pose proof (index_in_range _ _ _ _ Hpx Hpy); lia).
    unfold drawn_pixel. rewrite Ha. change (0 =? 255) with false. cbv iota zeta.
    fold (pixel_at rend px py). fold old.
    rewrite !blend_channel_transparent by assumption. reflexivity. }
  split; [exact Hnew|]. rewrite Hnew.
  pose proof (pack_argb_channels 255 (pixel_r old) (pixel_g old) (pixel_b old)
                ltac:(lia) Hor Hog Hob) as (Hca & Hcr & Hcg & Hcb).
  auto.
Qed.

Lemma draw_pixel_fully_transparent_witness :
  pixel_at (renderer_draw_pixel sample_renderer 1 1 (color_make 200 100 50 0)) 1 1
  = pack_argb 255 0 0 0.
Proof.
  apply (draw_pixel_fully_transparent sample_renderer 1 1 (color_make 200 100 50 0)).
  - repeat split; simpl; lia.
  - simpl; lia.
  - simpl; lia.
  - repeat split; simpl; lia.
  - reflexivity.
Defined.

(** ** Packed pixels and images *)

Lemma pack_argb_of_channels (pixel : Z) :
  0 <= pixel < 2 ^ 32 ->
  pack_argb (pixel_a pixel) (pixel_r pixel) (pixel_g pixel) (pixel_b pixel)
  = pixel.
Proof.
  intros Hp.
  pose proof (pixel_channel_range pixel) as (Hpr & Hpg & Hpb & Hpa).
  rewrite pack_argb_sum by assumption.
  unfold pixel_a, pixel_r, pixel_g, pixel_b.
  change 255 with (Z.ones 8).
  rewrite !Z.land_ones, !Z.shiftr_div_pow2 by lia.
  change (2 ^ 32) with 4294967296 in Hp.
  change (2 ^ 24) with 16777216. change (2 ^ 16) with 65536.
  change (2 ^ 8) with 256.
  Z.div_mod_to_equations. lia.
Qed.

(** X12: Packing the four channels of a word of 32 bits gives the word back,
    and the channels of four packed bytes are the bytes. *)
Theorem pixel_pack_round_trip (pixel a r g b : Z) :
  0 <= pixel < 2 ^ 32 ->
  0 <= a < 256 -> 0 <= r < 256 -> 0 <= g < 256 -> 0 <= b < 256 ->
  pack_argb (pixel_a pixel) (pixel_r pixel) (pixel_g pixel) (pixel_b pixel)
  = pixel /\
  pixel_color (pack_argb a r g b) = mkColor r g b a /\
  0 <= pack_argb a r g b < 2 ^ 32.
Proof.
  intros Hp Ha Hr Hg Hb. split; [|split].
  - apply pack_argb_of_channels. exact Hp.
  - pose proof (pack_argb_channels a r g b Ha Hr Hg Hb) as (Hca & Hcr & Hcg & Hcb).
    unfold pixel_color. congruence.
  - unfold pack_argb, u32. apply Z.mod_pos_bound. lia.
Qed.

Lemma pixel_pack_round_trip_witness :
  pack_argb (pixel_a 4286578688) (pixel_r 4286578688) (pixel_g 4286578688)
    (pixel_b 4286578688) = 4286578688.
Proof.
  apply (pixel_pack_round_trip 4286578688 1 2 3 4); lia.
Defined.

Lemma iter_loop_plots (body : Z -> Renderer -> Renderer) (f : Z -> list plot) :
  (forall i rend, body i rend = draw_plots rend (f i)) ->
  forall n i rend,
    iter_loop n i body rend
    = draw_plots rend (concat (map f (seqZ i (Z.of_nat n)))).
Proof.
  intros Hbody n. induction n as [|n IH]; intros i rend; [reflexivity|].
  rewrite seqZ_succ. cbn [iter_loop map concat].
  unfold draw_plots at 1. rewrite fold_left_app.
  fold (draw_plots rend (f i)). rewrite <- Hbody. apply IH.
Qed.

Lemma iter_range_plots (body : Z -> Renderer -> Renderer) (f : Z -> list plot)
    (lo hi : Z) (rend : Renderer) :
  (forall i rend, body i rend = draw_plots rend (f i)) ->
  iter_range lo hi body rend
  = draw_plots rend (concat (map f (seqZ lo (hi - lo)))).
Proof.
  intros Hbody. unfold iter_range.
  rewrite (iter_loop_plots body f Hbody), seqZ_to_nat. reflexivity.
Qed.

Lemma draw_image_plots (rend : Renderer) (img : Image) (x y : Z) :
  renderer_draw_image rend (Some img) x y
  = draw_plots rend (image_plots img x y).
Proof.
  unfold renderer_draw_image, image_plots.
  rewrite (iter_range_plots _
             (fun j => map (fun i => (x + i, y + j, pixel_color (image_at img i j)))
                         (seqZ 0 (img_width img)))).
  - rewrite Z.sub_0_r. reflexivity.
  - intros j rend0.
    rewrite (iter_range_plots _
               (fun i => [(x + i, y + j, pixel_color (image_at img i j))])).
    + rewrite Z.sub_0_r, concat_map_singleton. reflexivity.
    + intros i rend1. reflexivity.
Qed.

Lemma in_image_plots (img : Image) (x y px py : Z) (c : Color) :
  In (px, py, c) (image_plots img x y) <->
  x <= px < x + img_width img /\ y <= py < y + img_height img /\
  c = pixel_color (image_at img (px - x) (py - y)).
Proof.
  unfold image_plots. rewrite in_concat_seqZ. split.
  - intros (j & Hj & Hin). apply in_map_iff in Hin as (i & Heq & Hi).
    apply list_elem_of_In, elem_of_seqZ in Hi. injection Heq as <- <- <-.
    replace (x + i - x) with i by lia. replace (y + j - y) with j by lia.
    repeat split; lia.
  - intros (Hx & Hy & ->). exists (py - y). split; [lia|].
    apply in_map_iff. exists (px - x).
    replace (x + (px - x)) with px by lia. replace (y + (py - y)) with py by lia.
    split; [reflexivity|].
    apply list_elem_of_In, elem_of_seqZ. lia.
Qed.

(** X13: [renderer_draw_image] copies the opaque pixels of an image: the pixel
    of the screen under column [i], row [j] of the image becomes the word
    of the image there when its alpha is 255; pixels not under the image
    stay as they were. *)
Theorem draw_image_copies_opaque_pixels (rend : Renderer) (img : Image)
    (x y px py : Z) :
  renderer_ok rend -> image_ok img ->
  0 <= px < width rend -> 0 <= py < height rend ->
  let rend' := renderer_draw_image rend (Some img) x y in
  same_shape rend rend' /\
  (x <= px < x + img_width img -> y <= py < y + img_height img ->
   pixel_a (image_at img (px - x) (py - y)) = 255 ->
   pixel_at rend' px py = image_at img (px - x) (py - y)) /\
  (~ (x <= px < x + img_width img /\ y <= py < y + img_height img) ->
   pixel_at rend' px py = pixel_at rend px py).
Proof.
  intros Hok (Hiw & Hih & Hilen & Hwords) Hpx Hpy rend'. subst rend'.
  rewrite draw_image_plots.
  split; [apply draw_plots_same_shape|]. split.
  - intros Hx Hy Ha.
    set (word := image_at img (px - x) (py - y)) in *.
    assert (Hword : 0 <= word < 2 ^ 32).
    { subst word. unfold image_at. apply Hwords. nia. }
    rewrite (draw_plots_opaque px py (pixel_color word)).
    + cbn [pixel_color r g b]. rewrite <- Ha.
      apply (pack_argb_of_channels word Hword).
    + exact Ha.
    + intros c Hin. apply in_image_plots in Hin. tauto.
    + exact Hok.
    + exact Hpx.
    + exact Hpy.
    + left. apply in_image_plots. auto.
  - intros Hout. apply draw_plots_frame; try assumption.
    intros c Hin. apply in_image_plots in Hin. tauto.
Qed.

Lemma corners_image_ok : image_ok corners_image.
Proof.
  unfold image_ok, corners_image. cbn [img_width img_height pixels].
  repeat split; try lia; try reflexivity.
  all: assert (Hi : i = 0 \/ i = 1 \/ i = 2 \/ i = 3) by lia;
    destruct Hi as [->|[->|[->| ->]]]; vm_compute; congruence.
Qed.

Lemma draw_image_copies_opaque_pixels_witness :
  pixel_at (renderer_draw_image sample_renderer (Some corners_image) 1 0) 2 1
  = 4294967295.
Proof.
  destruct (draw_image_copies_opaque_pixels sample_renderer corners_image
              1 0 2 1) as (_ & Hcopy & _).
  - repeat split; simpl; lia.
  - exact corners_image_ok.
  - simpl; lia.
  - simpl; lia.
  - apply Hcopy; [simpl; lia | simpl; lia | reflexivity].
Defined.

(** ** Tinting *)

Lemma iter_loop_ext {St : Type} (f g : Z -> St -> St) :
  (forall i s, f i s = g i s) ->
  forall n i s, iter_loop n i f s = iter_loop n i g s.
Proof.
  intros Hfg n. induction n as [|n IH]; intros i s; [reflexivity|].
  cbn [iter_loop]. rewrite Hfg. apply IH.
Qed.

Lemma iter_range_ext {St : Type} (f g : Z -> St -> St) (lo hi : Z) (s : St) :
  (forall i s, f i s = g i s) -> iter_range lo hi f s = iter_range lo hi g s.
Proof. intros Hfg. unfold iter_range. apply iter_loop_ext. exact Hfg. Qed.

Lemma tint_channel_white (channel : Z) :
  0 <= channel < 256 -> tint_channel channel 255 = channel.
Proof.
  intros Hc.
  pose proof (byte_cases (fun c => tint_channel c 255 =? c)
                ltac:(vm_compute; reflexivity) channel Hc) as H.
  cbv beta in H. lia.
Qed.

(** X14: [renderer_apply_tint] with a white tint draws what
    [renderer_draw_image] draws; a null image draws nothing. *)
Theorem white_tint_is_draw_image (rend : Renderer) (img : option Image)
    (x y : Z) (tint : Color) :
  r tint = 255 -> g tint = 255 -> b tint = 255 ->
  renderer_apply_tint rend img x y tint = renderer_draw_image rend img x y /\
  renderer_apply_tint rend None x y tint = rend.
Proof.
  intros Hr Hg Hb. split; [|reflexivity].
  destruct img as [img|]; [|reflexivity].
  unfold renderer_apply_tint, renderer_draw_image. rewrite Hr, Hg, Hb.
  apply iter_range_ext. intros j rend0.
  apply iter_range_ext. intros i rend1. cbv zeta.
  pose proof (pixel_channel_range (load (pixels img) (j * img_width img + i)))
    as (Hcr & Hcg & Hcb & _).
  rewrite !tint_channel_white by assumption. reflexivity.
Qed.

Lemma white_tint_is_draw_image_witness :
  renderer_apply_tint sample_renderer (Some corners_image) 0 0
    (color_make 255 255 255 0)
  = renderer_draw_image sample_renderer (Some corners_image) 0 0.
Proof.
  apply (white_tint_is_draw_image sample_renderer (Some corners_image) 0 0
           (color_make 255 255 255 0)); reflexivity.
Defined.

(** ** The BMP decoder, all formats *)




(** X16: For a file of 24 or 32 bits per pixel whose sizes fit an [int]
    and whose rows follow the 54 header bytes, [image_load_bmp] returns an
    image of the header's width and of the absolute value of its height.
    Its row [y] is row [|height| - 1 - y] of the file when the header's
    height is positive and row [y] when it is negative; the bytes of a pixel
    are blue, green, red and, at 32 bits, alpha; at 24 bits alpha is 255. *)
Theorem bmp_decodes_both_orientations (fs : filesystem) (mem : garbage)
    (filename : string) (header data : list byte) (w height bpp : Z) :
  fs filename = Some (header ++ data) ->
  bmp_file header data w height bpp ->
  exists img,
    image_load_bmp fs mem filename = Ret (Some img) /\
    img_width img = w /\ img_height img = Z.abs height /\
    forall x y, 0 <= x < w -> 0 <= y < Z.abs height ->
      let file_row := if height >? 0 then Z.abs height - 1 - y else y in
      let off := file_row * bmp_row_size bpp w + x * Z.quot bpp 8 in
      let pixel := image_at img x y in
      pixel_b pixel = byte_at data (off + 0) /\
      pixel_g pixel = byte_at data (off + 1) /\
      pixel_r pixel = byte_at data (off + 2) /\
      pixel_a pixel = if bpp =? 32 then byte_at data (off + 3) else 255.
Proof.
  intros Hfs Hfile.
  destruct (image_load_bmp_of_file fs mem filename header data w height bpp
              Hfs Hfile) as (pix & Hload & _ & Hpix).
  eexists. split; [exact Hload|]. cbn [img_width img_height].
  split; [reflexivity|]. split; [reflexivity|].
  intros x y Hx Hy.
  pose proof (Hpix x y Hx Hy) as Hword. cbv zeta in Hword.
  unfold image_at. cbn [img_width pixels]. cbv zeta. rewrite Hword.
  set (file_row := if height >? 0 then Z.abs height - 1 - y else y).
  set (off := file_row * bmp_row_size bpp w + x * Z.quot bpp 8).
  assert (Ha : 0 <= (if bpp =? 32 then byte_at data (off + 3) else 255) < 256).
  { destruct (bpp =? 32); [apply byte_at_range | lia]. }
  pose proof (pack_argb_channels _ _ _ _ Ha
                (byte_at_range data (off + 2)) (byte_at_range data (off + 1))
                (byte_at_range data (off + 0))) as (Hpa & Hpr & Hpg & Hpb).
  repeat split; assumption.
Qed.

Lemma bmp_decodes_both_orientations_witness :
  exists img,
    image_load_bmp flipped_fs no_garbage "flipped.bmp" = Ret (Some img) /\
    img_width img = 2 /\ img_height img = Z.abs (-2) /\
    forall x y, 0 <= x < 2 -> 0 <= y < Z.abs (-2) ->
      let file_row := if -2 >? 0 then Z.abs (-2) - 1 - y else y in
      let off := file_row * bmp_row_size 32 2 + x * Z.quot 32 8 in
      let pixel := image_at img x y in
      pixel_b pixel = byte_at flipped_data (off + 0) /\
      pixel_g pixel = byte_at flipped_data (off + 1) /\
      pixel_r pixel = byte_at flipped_data (off + 2) /\
      pixel_a pixel = if 32 =? 32 then byte_at flipped_data (off + 3) else 255.
Proof.
  apply (bmp_decodes_both_orientations flipped_fs no_garbage "flipped.bmp"
           flipped_header flipped_data 2 (-2) 32).
  - reflexivity.
  - unfold bmp_file, bmp_sizes_fit.
    repeat split; first [reflexivity | right; reflexivity | vm_compute; discriminate].
Defined.

(** The picture stored top row first keeps its rows and its alpha bytes. *)
Example flipped_bmp_loads :
  image_load_bmp flipped_fs no_garbage "flipped.bmp"
  = Ret (Some (mkImage 2 2 [2164195328; 4278255360; 4278190335; 16777215])).
Proof. vm_compute. reflexivity. Qed.

(** ** Filled triangles *)

(** A loop whose iterations each draw pixels of their own row draws pixels
    of the rows it runs through. *)
Lemma for_loop_rows (color : Color) (body : Z -> Renderer -> exec Renderer) :
  (forall i, exists l,
      (forall s, body i s = Ret (draw_pixels s l color)) /\
      forall p, In p l -> snd p = i) ->
  forall n i, exists l,
    (forall s, for_loop n i body s = Ret (draw_pixels s l color)) /\
    forall p, In p l -> i <= snd p < i + Z.of_nat n.
Proof.
  intros Hbody n. induction n as [|n IH]; intros i.
  - exists []. split; [reflexivity | intros p []].
  - destruct (Hbody i) as (l1 & Hl1 & Hin1).
    destruct (IH (i + 1)) as (l2 & Hl2 & Hin2).
    exists (l1 ++ l2). split.
    + intros s. cbn [for_loop]. rewrite Hl1. cbn [bind]. rewrite Hl2.
      rewrite draw_pixels_app. reflexivity.
    + intros p Hp. apply in_app_or in Hp as [Hp|Hp].
      * apply Hin1 in Hp. lia.
      * apply Hin2 in Hp. lia.
Qed.

(** The loop over [x] of one row. *)
Lemma row_span_pixels (color : Color) (y lo hi : Z) (rend : Renderer) :
  iter_range lo hi (fun x rend => renderer_draw_pixel rend x y color) rend
  = draw_pixels rend (map (fun x => (x, y)) (seqZ lo (hi - lo))) color.
Proof.
  rewrite (iter_range_pixels color _ (fun x => [(x, y)])) by reflexivity.
  rewrite concat_map_singleton. reflexivity.
Qed.

Lemma draw_pixels_changes (rend : Renderer) (pixels : list (Z * Z))
    (color : Color) (px py : Z) :
  renderer_ok rend -> a color = 255 ->
  0 <= px < width rend -> 0 <= py < height rend ->
  pixel_at (draw_pixels rend pixels color) px py = pixel_at rend px py \/
  pixel_at (draw_pixels rend pixels color) px py
  = pack_argb 255 (r color) (g color) (b color).
Proof.
  intros Hok Ha Hpx Hpy.
  destruct (draw_pixels_at rend pixels color px py Hpx Hpy) as [Hframe Hhit].
  destruct (decide (elem_of (px, py) pixels)) as [Hin|Hnot].
  - right. apply Hhit; try assumption. apply list_elem_of_In. exact Hin.
  - left. apply Hframe. rewrite <- list_elem_of_In. exact Hnot.
Qed.

Lemma filled_triangle_as_pixels (x1 y1 x2 y2 x3 y3 : Z) (color : Color) :
  exists l,
    (forall rend,
       renderer_draw_filled_triangle rend x1 y1 x2 y2 x3 y3 color
       = Ret (draw_pixels rend l color)) /\
    (forall p, In p l ->
       Z.min y1 (Z.min y2 y3) <= snd p <= Z.max y1 (Z.max y2 y3)) /\
    (y1 = y2 -> y2 = y3 -> l = []).
Proof.
  unfold renderer_draw_filled_triangle.
  destruct (Z.gtb_spec y1 y2);
    match goal with
    | |- context [if ?a >? ?b then _ else _] => destruct (Z.gtb_spec a b)
    end;
    match goal with
    | |- context [if ?a >? ?b then _ else _] => destruct (Z.gtb_spec a b)
    end;
    match goal with
    | |- context [if ?t =? 0 then _ else _] =>
        destruct (Z.eqb_spec t 0) as [Hth|Hth];
          [exists []; split; [reflexivity|]; split; [intros p []|reflexivity]|]
    end.
  all: match goal with
       | |- context [for_range ?lo ?hi ?body _] =>
           assert (Hb : forall i, exists l,
                      (forall s, body i s = Ret (draw_pixels s l color)) /\
                      forall p, In p l -> snd p = i);
             [|destruct (for_loop_rows color body Hb (Z.to_nat (hi - lo)) lo)
                 as (l & Hl & Hin);
               exists l; split; [intros rend; apply Hl|];
               split; [intros p Hp; apply Hin in Hp; lia | intros; lia]]
       end.
  all: intros y; cbv beta;
    match goal with
    | |- context [if ?t =? 0 then _ else _] =>
        destruct (Z.eqb_spec t 0) as [Hseg|Hseg];
          [exists []; split; [reflexivity | intros p []]|]
    end;
    rewrite !fdiv_checked_of_int by assumption; cbn [bind];
    match goal with
    | |- context [if ?a >? ?b then (?b, ?a) else (?a, ?b)] =>
        exists (map (fun x => (x, y))
                  (seqZ (if a >? b then b else a)
                        ((if a >? b then a else b) + 1
                         - (if a >? b then b else a))));
          split;
          [intros s; destruct (a >? b); rewrite row_span_pixels; reflexivity
          |intros p Hp; apply in_map_iff in Hp as (x & <- & _); reflexivity]
    end.
Qed.

(** X17: [renderer_draw_filled_triangle] returns for all vertices; it draws only
    in the rows between the lowest and the highest vertex, what it draws
    with an opaque color is that color, and three vertices of one row, a
    flat triangle, draw nothing at all. *)
Theorem filled_triangle_stays_in_its_rows (rend : Renderer)
    (x1 y1 x2 y2 x3 y3 : Z) (color : Color) (px py : Z) :
  renderer_ok rend ->
  0 <= px < width rend -> 0 <= py < height rend ->
  exists rend',
    renderer_draw_filled_triangle rend x1 y1 x2 y2 x3 y3 color = Ret rend' /\
    same_shape rend rend' /\
    (py < Z.min y1 (Z.min y2 y3) \/ Z.max y1 (Z.max y2 y3) < py ->
     pixel_at rend' px py = pixel_at rend px py) /\
    (a color = 255 ->
     pixel_at rend' px py = pixel_at rend px py \/
     pixel_at rend' px py = pack_argb 255 (r color) (g color) (b color)) /\
    (y1 = y2 -> y2 = y3 -> rend' = rend).
Proof.
  intros Hok Hpx Hpy.
  destruct (filled_triangle_as_pixels x1 y1 x2 y2 x3 y3 color)
    as (l & Hl & Hrows & Hflat).
  exists (draw_pixels rend l color). split; [apply Hl|].
  split; [apply draw_pixels_same_shape|]. split; [|split].
  - intros Hout.
    apply (draw_pixels_at rend l color px py Hpx Hpy).
    intros Hin. apply Hrows in Hin. cbn [snd] in Hin. lia.
  - intros Ha. apply draw_pixels_changes; assumption.
  - intros H12 H23. rewrite (Hflat H12 H23). reflexivity.
Qed.

Lemma filled_triangle_stays_in_its_rows_witness :
  exists rend',
    renderer_draw_filled_triangle sample_renderer 0 0 2 0 1 0
      (color_make 255 0 0 255) = Ret rend' /\
    same_shape sample_renderer rend' /\
    (1 < Z.min 0 (Z.min 0 0) \/ Z.max 0 (Z.max 0 0) < 1 ->
     pixel_at rend' 1 1 = pixel_at sample_renderer 1 1) /\
    (a (color_make 255 0 0 255) = 255 ->
     pixel_at rend' 1 1 = pixel_at sample_renderer 1 1 \/
     pixel_at rend' 1 1 = pack_argb 255 (r (color_make 255 0 0 255))
                            (g (color_make 255 0 0 255))
                            (b (color_make 255 0 0 255))) /\
    (0 = 0 -> 0 = 0 -> rend' = sample_renderer).
Proof.
  apply (filled_triangle_stays_in_its_rows sample_renderer 0 0 2 0 1 0
           (color_make 255 0 0 255) 1 1).
  - repeat split; simpl; lia.
  - simpl; lia.
  - simpl; lia.
Defined.

(** A triangle on the 3x2 screen: the rows grow from the top vertex. *)
Example filled_triangle_sample :
  option_map framebuffer
    (match renderer_draw_filled_triangle sample_renderer 0 0 2 0 0 1
             (color_make 255 0 0 255) with
     | Ret rend' => Some rend'
     | Fault _ => None
     end)
  = Some [4294901760; 4294901760; 4294901760; 4294901760; 4278190080; 4278190080].
Proof. vm_compute. reflexivity. Qed.

(** ** Textured triangles *)

(** A loop whose iterations each make calls of [renderer_draw_pixel] makes
    the calls of all its iterations. *)
Lemma for_loop_plots (P : Z -> plot -> Prop)
    (body : Z -> Renderer -> exec Renderer) :
  (forall i, exists l,
      (forall s, body i s = Ret (draw_plots s l)) /\
      forall p, In p l -> P i p) ->
  forall n i, exists l,
    (forall s, for_loop n i body s = Ret (draw_plots s l)) /\
    forall p, In p l -> exists j, i <= j < i + Z.of_nat n /\ P j p.
Proof.
  intros Hbody n. induction n as [|n IH]; intros i.
  - exists []. split; [reflexivity | intros p []].
  - destruct (Hbody i) as (l1 & Hl1 & Hin1).
    destruct (IH (i + 1)) as (l2 & Hl2 & Hin2).
    exists (l1 ++ l2). split.
    + intros s. cbn [for_loop]. rewrite Hl1. cbn [bind]. rewrite Hl2.
      unfold draw_plots. rewrite fold_left_app. reflexivity.
    + intros p Hp. apply in_app_or in Hp as [Hp|Hp].
      * exists i. split; [lia | apply Hin1; exact Hp].
      * destruct (Hin2 p Hp) as (j & Hj & HP). exists j. split; [lia|exact HP].
Qed.

(** The loop over the columns of one row, one call for each column. *)
Lemma for_loop_row_plots (y : Z) (body : Z -> Renderer -> exec Renderer) :
  (forall x, exists c,
      forall s, body x s = Ret (renderer_draw_pixel s x y c)) ->
  forall n x, exists l,
    (forall s, for_loop n x body s = Ret (draw_plots s l)) /\
    forall p, In p l -> snd (fst p) = y.
Proof.
  intros Hbody n x.
  destruct (for_loop_plots (fun _ p => snd (fst p) = y) body) with (n := n) (i := x)
    as (l & Hl & Hin).
  - intros i. destruct (Hbody i) as [c Hc].
    exists [(i, y, c)]. split; [exact Hc|].
    intros p [<-|[]]. reflexivity.
  - exists l. split; [exact Hl|].
    intros p Hp. destruct (Hin p Hp) as (j & _ & Hj). exact Hj.
Qed.

Lemma rem_checked_nonzero (a b : Z) :
  b <> 0 -> rem_checked a b = Ret (Z.rem a b).
Proof.
  intros Hb. unfold rem_checked.
  destruct (Z.eqb_spec b 0); [contradiction | reflexivity].
Qed.

Lemma textured_triangle_as_plots (x1 y1 x2 y2 x3 y3 : Z)
    (u1 v1 u2 v2 u3 v3 : float) (texture : Image) :
  img_width texture <> 0 -> img_height texture <> 0 ->
  exists l,
    (forall rend,
       renderer_draw_textured_triangle rend x1 y1 x2 y2 x3 y3
         u1 v1 u2 v2 u3 v3 (Some texture)
       = Ret (draw_plots rend l)) /\
    (forall p, In p l ->
       Z.min y1 (Z.min y2 y3) <= snd (fst p) <= Z.max y1 (Z.max y2 y3)) /\
    (y1 = y2 -> y2 = y3 -> l = []).
Proof.
  intros Hw Hh.
  unfold renderer_draw_textured_triangle.
  destruct (Z.gtb_spec y1 y2);
    match goal with
    | |- context [if ?a >? ?b then (_, _, _, _, _, _, _, _) else _] =>
        destruct (Z.gtb_spec a b)
    end;
    match goal with
    | |- context [if ?a >? ?b then (_, _, _, _, _, _, _, _) else _] =>
        destruct (Z.gtb_spec a b)
    end;
    match goal with
    | |- context [if ?t =? 0 then _ else _] =>
        destruct (Z.eqb_spec t 0) as [Hth|Hth];
          [exists []; split; [reflexivity|]; split; [intros p []|reflexivity]|]
    end.
  all: match goal with
       | |- context [for_range ?lo ?hi ?body _] =>
           assert (Hb : forall i, exists l,
                      (forall s, body i s = Ret (draw_plots s l)) /\
                      forall p, In p l -> snd (fst p) = i);
             [|destruct (for_loop_plots (fun i p => snd (fst p) = i) body Hb
                           (Z.to_nat (hi - lo)) lo)
                 as (l & Hl & Hin);
               exists l; split; [intros rend; apply Hl|];
               split; [intros p Hp; apply Hin in Hp as (j & Hj & Hp); lia
                      | intros; lia]]
       end.
  all: intros y; cbv beta zeta;
    match goal with
    | |- context [if ?t =? 0 then _ else _] =>
        destruct (Z.eqb_spec t 0) as [Hseg|Hseg];
          [exists []; split; [reflexivity | intros p []]|]
    end;
    rewrite !fdiv_checked_of_int by assumption; cbn [bind];
    match goal with
    | |- context [if ?c then (_, _, _, _, _, _) else _] => destruct c
    end; cbv beta iota;
    match goal with
    | |- context [for_range ?lo ?hi ?body _] =>
        apply (for_loop_row_plots y body)
    end;
    intros x;
    match goal with
    | |- context [if ?d >? 0 then _ else _] =>
        destruct (Z.gtb_spec d 0);
          [rewrite fdiv_checked_of_int by lia|]
    end;
    cbn [bind]; rewrite !rem_checked_nonzero by assumption; cbn [bind];
    eexists; intros s; reflexivity.
Qed.

Lemma for_range_first {St : Type} (lo hi : Z) (body : Z -> St -> exec St)
    (s : St) (f : fault) :
  lo < hi -> body lo s = Fault f -> for_range lo hi body s = Fault f.
Proof.
  intros Hlt Hbody. unfold for_range.
  replace (Z.to_nat (hi - lo)) with (S (Z.to_nat (hi - lo - 1))) by lia.
  cbn [for_loop]. rewrite Hbody. reflexivity.
Qed.

(** X18: With a texture of positive width and height
    [renderer_draw_textured_triangle] returns for all vertices and texture
    coordinates, no division having a zero divisor; it keeps the shape of
    the renderer, draws only in the rows between the lowest and the highest
    vertex, and draws nothing for three vertices of one row. *)
Theorem textured_triangle_stays_in_its_rows (rend : Renderer)
    (x1 y1 x2 y2 x3 y3 : Z) (u1 v1 u2 v2 u3 v3 : float) (texture : Image)
    (px py : Z) :
  image_ok texture -> 0 < img_width texture -> 0 < img_height texture ->
  0 <= px < width rend -> 0 <= py < height rend ->
  exists rend',
    renderer_draw_textured_triangle rend x1 y1 x2 y2 x3 y3
      u1 v1 u2 v2 u3 v3 (Some texture) = Ret rend' /\
    same_shape rend rend' /\
    (py < Z.min y1 (Z.min y2 y3) \/ Z.max y1 (Z.max y2 y3) < py ->
     pixel_at rend' px py = pixel_at rend px py) /\
    (y1 = y2 -> y2 = y3 -> rend' = rend).
Proof.
  intros _ Hw Hh Hpx Hpy.
  destruct (textured_triangle_as_plots x1 y1 x2 y2 x3 y3 u1 v1 u2 v2 u3 v3
              texture ltac:(lia) ltac:(lia)) as (l & Hl & Hrows & Hflat).
  exists (draw_plots rend l). split; [apply Hl|].
  split; [apply draw_plots_same_shape|]. split.
  - intros Hout. apply draw_plots_frame; try assumption.
    intros c Hin. apply Hrows in Hin. cbn [fst snd] in Hin. lia.
  - intros H12 H23. rewrite (Hflat H12 H23). reflexivity.
Qed.

Lemma textured_triangle_stays_in_its_rows_witness :
  exists rend',
    renderer_draw_textured_triangle sample_renderer 0 0 2 0 1 0
      F32.zero F32.zero F32.one F32.zero F32.zero F32.one
      (Some corners_image) = Ret rend' /\
    same_shape sample_renderer rend' /\
    (1 < Z.min 0 (Z.min 0 0) \/ Z.max 0 (Z.max 0 0) < 1 ->
     pixel_at rend' 1 1 = pixel_at sample_renderer 1 1) /\
    (0 = 0 -> 0 = 0 -> rend' = sample_renderer).
Proof.
  apply (textured_triangle_stays_in_its_rows sample_renderer 0 0 2 0 1 0
           F32.zero F32.zero F32.one F32.zero F32.zero F32.one
           corners_image 1 1).
  - apply corners_image_ok.
  - simpl; lia.
  - simpl; lia.
  - simpl; lia.
  - simpl; lia.
Defined.

(** X19: A texture of width 0 or of height 0 makes
    [renderer_draw_textured_triangle] divide by zero: unless the three
    vertices are on one row, the first pixel it comes to takes the
    remainder of its texture coordinate by the width and by the height of
    the texture. *)
Theorem textured_triangle_empty_texture_divides_by_zero (rend : Renderer)
    (x1 y1 x2 y2 x3 y3 : Z) (u1 v1 u2 v2 u3 v3 : float) (texture : Image) :
  img_width texture = 0 \/ img_height texture = 0 ->
  ~ (y1 = y2 /\ y2 = y3) ->
  renderer_draw_textured_triangle rend x1 y1 x2 y2 x3 y3
    u1 v1 u2 v2 u3 v3 (Some texture)
  = Fault DivideByZero.
Proof.
  intros Hzero Hflat.
  unfold renderer_draw_textured_triangle.
  destruct (Z.gtb_spec y1 y2);
    match goal with
    | |- context [if ?a >? ?b then (_, _, _, _, _, _, _, _) else _] =>
        destruct (Z.gtb_spec a b)
    end;
    match goal with
    | |- context [if ?a >? ?b then (_, _, _, _, _, _, _, _) else _] =>
        destruct (Z.gtb_spec a b)
    end;
    match goal with
    | |- context [if ?t =? 0 then _ else _] =>
        destruct (Z.eqb_spec t 0) as [Hth|Hth]; [lia|]
    end.
  all: apply for_range_first; [lia|]; cbv beta zeta;
    match goal with
    | |- context [(?lo >? ?mid) || (?mid =? ?lo)] =>
        destruct (Z.gtb_spec lo mid); [lia|];
        destruct (Z.eqb_spec mid lo); cbn [orb]
    end;
    match goal with
    | |- context [if ?t =? 0 then _ else _] =>
        destruct (Z.eqb_spec t 0) as [Hseg|Hseg]; [lia|]
    end;
    rewrite !fdiv_checked_of_int by assumption; cbn [bind];
    match goal with
    | |- context [if ?a >? ?b then (_, _, _, _, _, _) else _] =>
        destruct (Z.gtb_spec a b)
    end; cbv beta iota;
    (apply for_range_first; [lia|]);
    match goal with
    | |- context [if ?d >? 0 then _ else _] =>
        destruct (Z.gtb_spec d 0);
          [rewrite fdiv_checked_of_int by lia|]
    end;
    cbn [bind]; unfold rem_checked;
    destruct (Z.eqb_spec (img_width texture) 0); cbn [bind];
      try reflexivity;
    destruct (Z.eqb_spec (img_height texture) 0); cbn [bind];
      try reflexivity;
    lia.
Qed.

Lemma textured_triangle_empty_texture_divides_by_zero_witness :
  renderer_draw_textured_triangle sample_renderer 0 0 2 0 0 1
    F32.zero F32.zero F32.one F32.zero F32.zero F32.one
    (Some (mkImage 0 0 [])) = Fault DivideByZero.
Proof.
  apply (textured_triangle_empty_texture_divides_by_zero sample_renderer
           0 0 2 0 0 1 F32.zero F32.zero F32.one F32.zero F32.zero F32.one
           (mkImage 0 0 [])).
  - left. reflexivity.
  - lia.
Defined.

(** The known picture as a texture of a triangle of the 3x2 screen: the
    coordinate 1 wraps around to the first column and the first row. *)
Example textured_triangle_sample :
  option_map framebuffer
    (match renderer_draw_textured_triangle sample_renderer 0 0 2 0 0 1
             F32.zero F32.zero F32.one F32.zero F32.zero F32.one
             (Some corners_image) with
     | Ret rend' => Some rend'
     | Fault _ => None
     end)
  = Some [4294901760; 4278255360; 4294901760; 4294901760; 4278190080; 4278190080].
Proof. vm_compute. reflexivity. Qed.

(** ** Gradients *)

Lemma for_loop_plots_exact (body : Z -> Renderer -> exec Renderer)
    (f : Z -> list plot) :
  forall n i,
    (forall j s, i <= j < i + Z.of_nat n ->
       body j s = Ret (draw_plots s (f j))) ->
    forall s,
      for_loop n i body s
      = Ret (draw_plots s (concat (map f (seqZ i (Z.of_nat n))))).
Proof.
  induction n as [|n IH]; intros i Hbody s; [reflexivity|].
  cbn [for_loop]. rewrite Hbody by lia. cbn [bind].
  rewrite IH by (intros j s' Hj; apply Hbody; lia).
  rewrite seqZ_succ. cbn [map concat].
  unfold draw_plots. rewrite fold_left_app. reflexivity.
Qed.

Lemma for_range_plots (body : Z -> Renderer -> exec Renderer)
    (f : Z -> list plot) (lo hi : Z) :
  (forall j s, lo <= j < hi -> body j s = Ret (draw_plots s (f j))) ->
  forall s,
    for_range lo hi body s
    = Ret (draw_plots s (concat (map f (seqZ lo (hi - lo))))).
Proof.
  intros Hbody s. unfold for_range.
  rewrite (for_loop_plots_exact body f) by (intros j s' Hj; apply Hbody; lia).
  destruct (Z.le_gt_cases lo hi).
  - rewrite Z2Nat.id by lia. reflexivity.
  - replace (Z.to_nat (hi - lo)) with 0%nat by lia.
    rewrite (seqZ_nil lo (hi - lo)) by lia. reflexivity.
Qed.

Lemma gradient_rect_as_plots (rend : Renderer) (x y w h : Z) (c1 c2 : Color)
    (vertical : bool) :
  renderer_draw_gradient_rect rend x y w h c1 c2 vertical
  = Ret (draw_plots rend (gradient_plots x y w h c1 c2 vertical)).
Proof.
  unfold renderer_draw_gradient_rect, gradient_plots.
  rewrite <- (Z.sub_0_r h) at 2.
  apply (for_range_plots _
           (fun j => map (fun i => (x + i, y + j,
                            gradient_color c1 c2
                              (if vertical
                               then F32.div (F32.of_int j) (F32.of_int h)
                               else F32.div (F32.of_int i) (F32.of_int w))))
                       (seqZ 0 w))).
  intros j s Hj.
  rewrite (for_range_plots _
             (fun i => [(x + i, y + j,
                         gradient_color c1 c2
                           (if vertical
                            then F32.div (F32.of_int j) (F32.of_int h)
                            else F32.div (F32.of_int i) (F32.of_int w)))])).
  - rewrite concat_map_singleton, Z.sub_0_r. reflexivity.
  - intros i s' Hi.
    destruct vertical; rewrite fdiv_checked_of_int by lia; reflexivity.
Qed.

Lemma in_gradient_plots (x y w h : Z) (c1 c2 : Color) (vertical : bool)
    (px py : Z) (c : Color) :
  In (px, py, c) (gradient_plots x y w h c1 c2 vertical) <->
  x <= px < x + w /\ y <= py < y + h /\
  c = gradient_color c1 c2
        (if vertical then F32.div (F32.of_int (py - y)) (F32.of_int h)
         else F32.div (F32.of_int (px - x)) (F32.of_int w)).
Proof.
  unfold gradient_plots. rewrite in_concat_seqZ. split.
  - intros (j & Hj & Hin). apply in_map_iff in Hin as (i & Heq & Hi).
    apply list_elem_of_In, elem_of_seqZ in Hi.
    injection Heq as <- <- <-.
    replace (x + i - x) with i by lia. replace (y + j - y) with j by lia.
    repeat split; try lia.
  - intros (Hx & Hy & ->). exists (py - y). split; [lia|].
    apply in_map_iff. exists (px - x). split.
    + replace (x + (px - x)) with px by lia.
      replace (y + (py - y)) with py by lia. reflexivity.
    + apply list_elem_of_In, elem_of_seqZ. lia.
Qed.

(** [0 / d] is [0] for a positive [int] [d]. *)
Lemma div_zero_of_int (d : Z) :
  0 < d -> F32.div (F32.of_int 0) (F32.of_int d) = F32.zero.
Proof.
  intros Hd.
  destruct (F32Facts.of_int_shape d ltac:(lia)) as [(m & e & -> & _)| ->];
    replace (d <? 0) with false by lia; reflexivity.
Qed.

(** At [t = 0] a channel of the gradient is the channel of the first
    color. *)
Lemma gradient_channel_start (c1 c2 : Z) :
  0 <= c1 < 256 -> 0 <= c2 < 256 -> gradient_channel c1 c2 F32.zero = c1.
Proof.
  intros H1 H2.
  pose proof (byte_cases
    (fun c1 => forallb (fun c2 => gradient_channel c1 c2 F32.zero =? c1)
                 (seqZ 0 256))
    ltac:(vm_compute; reflexivity) c1 H1) as Hall.
  cbv beta in Hall.
  pose proof (byte_cases (fun c2 => gradient_channel c1 c2 F32.zero =? c1)
                Hall c2 H2) as Hc.
  cbv beta in Hc. lia.
Qed.

(** X20: [renderer_draw_gradient_rect] returns for every rectangle, its
    divisions having the positive width or height as divisor.  It leaves
    the pixels outside [[x, x+w) x [y, y+h)] as they were; a pixel inside
    becomes opaque, with channels that depend on its column only (on its
    row only when [vertical]); the first column (the first row when
    [vertical]) has exactly the first color. *)
Theorem gradient_rect_fills_the_rectangle (rend : Renderer) (x y w h : Z)
    (c1 c2 : Color) (vertical : bool) (px py : Z) :
  renderer_ok rend -> color_ok c1 -> color_ok c2 ->
  0 <= px < width rend -> 0 <= py < height rend ->
  exists rend',
    renderer_draw_gradient_rect rend x y w h c1 c2 vertical = Ret rend' /\
    same_shape rend rend' /\
    (~ (x <= px < x + w /\ y <= py < y + h) ->
     pixel_at rend' px py = pixel_at rend px py) /\
    (x <= px < x + w -> y <= py < y + h ->
     let t := if vertical then F32.div (F32.of_int (py - y)) (F32.of_int h)
              else F32.div (F32.of_int (px - x)) (F32.of_int w) in
     pixel_at rend' px py
     = pack_argb 255 (gradient_channel (r c1) (r c2) t)
         (gradient_channel (g c1) (g c2) t)
         (gradient_channel (b c1) (b c2) t)) /\
    (x <= px < x + w -> y <= py < y + h ->
     (if vertical then py = y else px = x) ->
     pixel_at rend' px py = pack_argb 255 (r c1) (g c1) (b c1)).
Proof.
  intros Hok (Hr1 & Hg1 & Hb1 & _) (Hr2 & Hg2 & Hb2 & _) Hpx Hpy.
  exists (draw_plots rend (gradient_plots x y w h c1 c2 vertical)).
  split; [apply gradient_rect_as_plots|].
  split; [apply draw_plots_same_shape|].
  assert (Hin : x <= px < x + w -> y <= py < y + h ->
    let t := if vertical then F32.div (F32.of_int (py - y)) (F32.of_int h)
             else F32.div (F32.of_int (px - x)) (F32.of_int w) in
    pixel_at (draw_plots rend (gradient_plots x y w h c1 c2 vertical)) px py
    = pack_argb 255 (gradient_channel (r c1) (r c2) t)
        (gradient_channel (g c1) (g c2) t)
        (gradient_channel (b c1) (b c2) t)).
  { intros Hx Hy t.
    apply (draw_plots_opaque px py (gradient_color c1 c2 t)); try assumption.
    - reflexivity.
    - intros c Hc. apply in_gradient_plots in Hc as (_ & _ & ->). reflexivity.
    - left. apply in_gradient_plots. repeat split; try lia. }
  split; [|split].
  - intros Hout. apply draw_plots_frame; try assumption.
    intros c Hc. apply in_gradient_plots in Hc. tauto.
  - exact Hin.
  - intros Hx Hy Hfirst. rewrite (Hin Hx Hy).
    destruct vertical; subst; rewrite Z.sub_diag, div_zero_of_int by lia;
      rewrite !gradient_channel_start by assumption; reflexivity.
Qed.

Lemma gradient_rect_fills_the_rectangle_witness :
  exists rend',
    renderer_draw_gradient_rect sample_renderer 0 0 3 2
      (color_make 255 0 0 255) (color_make 0 0 255 255) false = Ret rend' /\
    pixel_at rend' 0 1 = pack_argb 255 255 0 0.
Proof.
  destruct (gradient_rect_fills_the_rectangle sample_renderer 0 0 3 2
              (color_make 255 0 0 255) (color_make 0 0 255 255) false 0 1)
    as (rend' & Hret & _ & _ & _ & Hfirst).
  - repeat split; simpl; lia.
  - repeat split; simpl; lia.
  - repeat split; simpl; lia.
  - simpl; lia.
  - simpl; lia.
  - exists rend'. split; [exact Hret|].
    apply Hfirst; [lia | lia | reflexivity].
Defined.

(** A gradient from red to blue over the three columns of the sample
    screen: the last column stops short of the second color. *)
Example gradient_rect_sample :
  option_map framebuffer
    (match renderer_draw_gradient_rect sample_renderer 0 0 3 1
             (color_make 255 0 0 255) (color_make 0 0 255 255) false with
     | Ret rend' => Some rend'
     | Fault _ => None
     end)
  = Some [pack_argb 255 255 0 0; pack_argb 255 170 0 85;
          pack_argb 255 85 0 170; 4278190080; 4278190080; 4278190080].
Proof. vm_compute. reflexivity. Qed.

(** ** Text *)

Lemma glyph_as_pixels (rend : Renderer) (ch x y : Z) (color : Color)
    (scale : Z) :
  draw_glyph rend ch x y color scale
  = draw_pixels rend (glyph_pixels ch x y scale) color.
Proof.
  unfold draw_glyph, glyph_pixels.
  rewrite (iter_range_pixels color _
             (fun row =>
                concat
                  (map (fun col =>
                          if negb (Z.land (glyph_byte ch row) (Z.shiftl 1 col) =? 0)
                          then
                            concat
                              (map (fun sy =>
                                      map (fun sx => (x + col * scale + sx,
                                                      y + row * scale + sy))
                                        (seqZ 0 scale))
                                 (seqZ 0 scale))
                          else [])
                     (seqZ 0 8)))).
  - reflexivity.
  - intros row s. cbv zeta.
    rewrite (iter_range_pixels color _
               (fun col =>
                  if negb (Z.land (glyph_byte ch row) (Z.shiftl 1 col) =? 0)
                  then
                    concat
                      (map (fun sy =>
                              map (fun sx => (x + col * scale + sx,
                                              y + row * scale + sy))
                                (seqZ 0 scale))
                         (seqZ 0 scale))
                  else [])).
    + reflexivity.
    + intros col s'.
      destruct (negb (Z.land (glyph_byte ch row) (Z.shiftl 1 col) =? 0));
        [|reflexivity].
      rewrite (iter_range_pixels color _
                 (fun sy => map (fun sx => (x + col * scale + sx,
                                            y + row * scale + sy))
                              (seqZ 0 scale))).
      * rewrite Z.sub_0_r. reflexivity.
      * intros sy s''.
        rewrite (iter_range_pixels color _
                   (fun sx => [(x + col * scale + sx, y + row * scale + sy)]))
          by reflexivity.
        rewrite concat_map_singleton, Z.sub_0_r. reflexivity.
Qed.

Lemma text_as_pixels (color : Color) (scale start_x : Z) (text : string) :
  forall rend x y,
    text_loop rend text start_x x y color scale
    = draw_pixels rend (text_pixels text start_x x y scale) color.
Proof.
  induction text as [|c rest IH]; intros rend x y; cbn [text_loop text_pixels].
  - reflexivity.
  - destruct (char_code c =? 0); [reflexivity|].
    destruct (char_code c =? 10); [apply IH|].
    cbv zeta. rewrite IH, glyph_as_pixels, draw_pixels_app. reflexivity.
Qed.

(** Bit [col] of a byte, as [renderer_draw_text] tests it. *)
Lemma bit_test (byte col : Z) :
  0 <= col ->
  negb (Z.land byte (Z.shiftl 1 col) =? 0) = Z.testbit byte col.
Proof.
  intros Hcol.
  destruct (Z.testbit byte col) eqn:Hbit.
  - apply negb_true_iff, Z.eqb_neq. intros Hz.
    assert (Z.testbit (Z.land byte (Z.shiftl 1 col)) col = true).
    { rewrite Z.land_spec, Hbit, Z.shiftl_spec by lia.
      rewrite Z.sub_diag. reflexivity. }
    rewrite Hz, Z.bits_0 in H. discriminate.
  - apply negb_false_iff, Z.eqb_eq. apply Z.bits_inj'. intros n Hn.
    rewrite Z.land_spec, Z.bits_0, Z.shiftl_spec by lia.
    destruct (Z.eq_dec n col) as [->|Hne].
    + rewrite Hbit. reflexivity.
    + destruct (Z.lt_ge_cases n col).
      * rewrite (Z.testbit_neg_r 1 (n - col)) by lia. apply andb_false_r.
      * replace (Z.testbit 1 (n - col)) with false; [apply andb_false_r|].
        symmetry. change 1 with (2 ^ 0). apply Z.pow2_bits_false. lia.
Qed.

Lemma in_glyph_pixels (ch x y scale px py : Z) :
  In (px, py) (glyph_pixels ch x y scale) <-> glyph_covers ch x y scale px py.
Proof.
  unfold glyph_pixels, glyph_covers. rewrite in_concat_seqZ. split.
  - intros (row & Hrow & Hin). apply in_concat_seqZ in Hin as (col & Hcol & Hin).
    rewrite bit_test in Hin by lia.
    destruct (Z.testbit (glyph_byte ch row) col) eqn:Hbit; [|destruct Hin].
    apply in_concat_seqZ in Hin as (sy & Hsy & Hin).
    apply in_map_iff in Hin as (sx & Heq & Hsx).
    apply list_elem_of_In, elem_of_seqZ in Hsx.
    injection Heq as <- <-.
    exists row, col. repeat split; try lia; try exact Hbit.
  - intros (row & col & Hrow & Hcol & Hbit & Hx & Hy).
    exists row. split; [lia|]. apply in_concat_seqZ. exists col. split; [lia|].
    rewrite bit_test, Hbit by lia.
    assert (Hs : 0 < scale) by nia.
    apply in_concat_seqZ. exists (py - (y + row * scale)). split; [lia|].
    apply in_map_iff. exists (px - (x + col * scale)). split.
    + f_equal; lia.
    + apply list_elem_of_In, elem_of_seqZ. lia.
Qed.

Lemma glyph_covers_box (ch x y scale px py : Z) :
  glyph_covers ch x y scale px py ->
  0 < scale /\ x <= px < x + 8 * scale /\ y <= py < y + 8 * scale.
Proof.
  intros (row & col & Hrow & Hcol & _ & Hx & Hy).
  assert (0 < scale) by nia. split; [assumption|]. split; nia.
Qed.

Lemma text_newlines_nonneg (text : string) : 0 <= text_newlines text.
Proof.
  induction text as [|c rest IH]; cbn [text_newlines]; [lia|].
  destruct (char_code c =? 0); [lia|]. destruct (char_code c =? 10); lia.
Qed.

Lemma in_text_pixels_box (scale start_x px py : Z) (text : string) :
  forall x y k,
    0 <= k -> x = start_x + 8 * scale * k ->
    In (px, py) (text_pixels text start_x x y scale) ->
    0 < scale /\
    start_x <= px < start_x + 8 * scale * (k + Z.of_nat (String.length text)) /\
    y <= py < y + 8 * scale * (1 + text_newlines text).
Proof.
  induction text as [|c rest IH]; intros x y k Hk Hx Hin;
    cbn [text_pixels text_newlines String.length] in *; [destruct Hin|].
  destruct (char_code c =? 0); [destruct Hin|].
  pose proof (text_newlines_nonneg rest) as Hnl.
  destruct (char_code c =? 10).
  - destruct (IH start_x (y + 8 * scale) 0 ltac:(lia) ltac:(lia) Hin)
      as (Hs & Hpx & Hpy).
    split; [exact Hs|]. split; nia.
  - apply in_app_or in Hin as [Hin|Hin].
    + apply in_glyph_pixels, glyph_covers_box in Hin as (Hs & Hpx & Hpy).
      split; [exact Hs|]. split; nia.
    + destruct (IH (x + 8 * scale) y (k + 1) ltac:(lia) ltac:(lia) Hin)
        as (Hs & Hpx & Hpy).
      split; [exact Hs|]. split; nia.
Qed.

Lemma text_pixels_no_scale (scale start_x : Z) (text : string) :
  scale <= 0 -> forall x y, text_pixels text start_x x y scale = [].
Proof.
  intros Hs. induction text as [|c rest IH]; intros x y; cbn [text_pixels];
    [reflexivity|].
  destruct (char_code c =? 0); [reflexivity|].
  destruct (char_code c =? 10); [apply IH|].
  rewrite IH, app_nil_r.
  destruct (glyph_pixels _ x y scale) as [|[qx qy] l] eqn:Hl; [reflexivity|].
  assert (Hin : In (qx, qy) (glyph_pixels
                   (if char_code c >=? 128 then 0 else char_code c) x y scale))
    by (rewrite Hl; left; reflexivity).
  apply in_glyph_pixels, glyph_covers_box in Hin. lia.
Qed.

(** X21: The text of one character: [renderer_draw_text] with an opaque color
    gives that color to the square of [scale] by [scale] pixels of every bit
    that is set in the glyph of the character, bit [col] of row [row] at
    [(x + col * scale, y + row * scale)], and leaves every other pixel as
    it was; a character of code 128 or more has the glyph of character
    0. *)
Theorem draw_text_draws_the_glyph (rend : Renderer) (c : Ascii.ascii)
    (x y : Z) (color : Color) (scale px py : Z) :
  renderer_ok rend -> a color = 255 ->
  0 <= px < width rend -> 0 <= py < height rend ->
  char_code c <> 0 -> char_code c <> 10 ->
  let ch := if char_code c >=? 128 then 0 else char_code c in
  let rend' := renderer_draw_text rend (String c EmptyString) x y color scale in
  (glyph_covers ch x y scale px py ->
   pixel_at rend' px py = pack_argb 255 (r color) (g color) (b color)) /\
  (~ glyph_covers ch x y scale px py ->
   pixel_at rend' px py = pixel_at rend px py).
Proof.
  intros Hok Ha Hpx Hpy H0 H10 ch rend'. subst rend'.
  unfold renderer_draw_text. rewrite text_as_pixels. cbn [text_pixels].
  destruct (Z.eqb_spec (char_code c) 0); [contradiction|].
  destruct (Z.eqb_spec (char_code c) 10); [contradiction|].
  fold ch. rewrite app_nil_r.
  destruct (draw_pixels_at rend (glyph_pixels ch x y scale) color px py Hpx Hpy)
    as [Hframe Hhit].
  split.
  - intros Hc. apply Hhit; try assumption. apply in_glyph_pixels. exact Hc.
  - intros Hc. apply Hframe. rewrite in_glyph_pixels. exact Hc.
Qed.

Lemma draw_text_draws_the_glyph_witness :
  let rend' := renderer_draw_text sample_renderer "A" (-2) 0
                 (color_make 255 0 0 255) 1 in
  pixel_at rend' 0 0 = pack_argb 255 255 0 0 /\
  pixel_at rend' 2 0 = pixel_at sample_renderer 2 0.
Proof.
  destruct (draw_text_draws_the_glyph sample_renderer (Ascii.ascii_of_nat 65) (-2) 0
              (color_make 255 0 0 255) 1 0 0) as [Hhit _].
  { repeat split; simpl; lia. }
  { reflexivity. }
  { simpl; lia. }
  { simpl; lia. }
  { vm_compute; discriminate. }
  { vm_compute; discriminate. }
  destruct (draw_text_draws_the_glyph sample_renderer (Ascii.ascii_of_nat 65) (-2) 0
              (color_make 255 0 0 255) 1 2 0) as [_ Hout].
  { repeat split; simpl; lia. }
  { reflexivity. }
  { simpl; lia. }
  { simpl; lia. }
  { vm_compute; discriminate. }
  { vm_compute; discriminate. }
  split.
  - apply Hhit. exists 0, 2. vm_compute. repeat split; discriminate.
  - apply Hout. intros (row & col & Hrow & Hcol & Hbit & Hx & Hy).
    assert (row = 0) by lia. assert (col = 4) by lia. subst.
    vm_compute in Hbit. discriminate.
Defined.

(** X22: [renderer_draw_text] keeps the shape of the renderer and draws only in
    the box of its text: not left of [x], not above [y], not below the last
    line of cells of [8 * scale] rows, and not right of as many cells as the
    text has characters.  With a scale that is not positive it draws
    nothing. *)
Theorem draw_text_stays_in_its_box (rend : Renderer) (text : string)
    (x y : Z) (color : Color) (scale px py : Z) :
  0 <= px < width rend -> 0 <= py < height rend ->
  let rend' := renderer_draw_text rend text x y color scale in
  same_shape rend rend' /\
  (px < x \/ x + 8 * scale * Z.of_nat (String.length text) <= px \/
   py < y \/ y + 8 * scale * (1 + text_newlines text) <= py ->
   pixel_at rend' px py = pixel_at rend px py) /\
  (scale <= 0 -> rend' = rend).
Proof.
  intros Hpx Hpy rend'. subst rend'.
  unfold renderer_draw_text. rewrite text_as_pixels.
  split; [apply draw_pixels_same_shape|]. split.
  - intros Hout.
    apply (draw_pixels_at rend (text_pixels text x x y scale) color px py
             Hpx Hpy).
    intros Hin.
    apply (in_text_pixels_box scale x px py text x y 0) in Hin; lia.
  - intros Hs. rewrite text_pixels_no_scale by exact Hs. reflexivity.
Qed.

Lemma draw_text_stays_in_its_box_witness :
  let rend' := renderer_draw_text sample_renderer "Hi" 1 0
                 (color_make 255 0 0 255) 1 in
  same_shape sample_renderer rend' /\
  (0 < 1 \/ 1 + 8 * 1 * Z.of_nat (String.length "Hi") <= 0 \/
   1 < 0 \/ 0 + 8 * 1 * (1 + text_newlines "Hi") <= 1 ->
   pixel_at rend' 0 1 = pixel_at sample_renderer 0 1) /\
  (1 <= 0 -> rend' = sample_renderer).
Proof.
  apply (draw_text_stays_in_its_box sample_renderer "Hi" 1 0
           (color_make 255 0 0 255) 1 0 1).
  - simpl; lia.
  - simpl; lia.
Defined.

Lemma text_loop_line_feed (color : Color) (scale start_x : Z)
    (s1 s2 : string) :
  no_nul s1 ->
  forall rend x y,
    text_loop rend (String.append s1 (String (Ascii.ascii_of_nat 10) s2))
      start_x x y color scale
    = text_loop (text_loop rend s1 start_x x y color scale) s2 start_x start_x
        (y + 8 * scale * (1 + text_newlines s1)) color scale.
Proof.
  induction s1 as [|c rest IH]; intros Hnul rend x y;
    cbn [String.append text_loop text_newlines].
  - change (char_code (Ascii.ascii_of_nat 10)) with 10. cbn [Z.eqb Pos.eqb].
    f_equal. lia.
  - destruct Hnul as [Hc Hrest].
    destruct (Z.eqb_spec (char_code c) 0); [contradiction|].
    destruct (char_code c =? 10).
    + rewrite IH by exact Hrest. f_equal. lia.
    + cbv zeta. rewrite IH by exact Hrest. reflexivity.
Qed.

Lemma text_loop_same_line (color : Color) (scale start_x : Z)
    (s1 s2 : string) :
  no_nul s1 -> text_newlines s1 = 0 ->
  forall rend x y,
    text_loop rend (String.append s1 s2) start_x x y color scale
    = text_loop (text_loop rend s1 start_x x y color scale) s2 start_x
        (x + 8 * scale * Z.of_nat (String.length s1)) y color scale.
Proof.
  induction s1 as [|c rest IH]; intros Hnul Hnl rend x y;
    cbn [String.append text_loop text_newlines String.length] in *.
  - f_equal. lia.
  - destruct Hnul as [Hc Hrest].
    pose proof (text_newlines_nonneg rest).
    destruct (Z.eqb_spec (char_code c) 0); [contradiction|].
    destruct (char_code c =? 10); [lia|].
    cbv zeta. rewrite IH by assumption. f_equal. lia.
Qed.

(** A text without line feed does not use the start of the line. *)
Lemma text_loop_start (color : Color) (scale start_x start_x' : Z)
    (text : string) :
  text_newlines text = 0 ->
  forall rend x y,
    text_loop rend text start_x x y color scale
    = text_loop rend text start_x' x y color scale.
Proof.
  induction text as [|c rest IH]; intros Hnl rend x y;
    cbn [text_loop text_newlines] in *; [reflexivity|].
  pose proof (text_newlines_nonneg rest).
  destruct (char_code c =? 0); [reflexivity|].
  destruct (char_code c =? 10); [lia|].
  cbv zeta. apply IH. exact Hnl.
Qed.

(** X23: [renderer_draw_text] draws a text line by line and, on a line,
    character by character.  The text after a line feed is drawn as a text
    of its own from column [x] of the next line of cells of [8 * scale]
    rows, on what the text before the line feed has drawn; a text of one
    line that follows another text of one line is drawn as a text of its
    own, [8 * scale] columns further for each character before it. *)
Theorem draw_text_line_by_line (rend : Renderer) (s1 s2 : string) (x y : Z)
    (color : Color) (scale : Z) :
  no_nul s1 ->
  renderer_draw_text rend
    (String.append s1 (String (Ascii.ascii_of_nat 10) s2)) x y color scale
  = renderer_draw_text (renderer_draw_text rend s1 x y color scale) s2
      x (y + 8 * scale * (1 + text_newlines s1)) color scale /\
  (text_newlines s1 = 0 -> text_newlines s2 = 0 ->
   renderer_draw_text rend (String.append s1 s2) x y color scale
   = renderer_draw_text (renderer_draw_text rend s1 x y color scale) s2
       (x + 8 * scale * Z.of_nat (String.length s1)) y color scale).
Proof.
  intros Hnul. unfold renderer_draw_text. split.
  - apply text_loop_line_feed. exact Hnul.
  - intros Hnl1 Hnl2. rewrite text_loop_same_line by assumption.
    apply text_loop_start. exact Hnl2.
Qed.

Lemma draw_text_line_by_line_witness :
  renderer_draw_text sample_renderer
    (String.append "A" (String (Ascii.ascii_of_nat 10) "B")) (-2) (-7)
    (color_make 255 0 0 255) 1
  = renderer_draw_text
      (renderer_draw_text sample_renderer "A" (-2) (-7)
         (color_make 255 0 0 255) 1)
      "B" (-2) (-7 + 8 * 1 * (1 + text_newlines "A"))
      (color_make 255 0 0 255) 1 /\
  (text_newlines "A" = 0 -> text_newlines "B" = 0 ->
   renderer_draw_text sample_renderer (String.append "A" "B") (-2) (-7)
     (color_make 255 0 0 255) 1
   = renderer_draw_text
       (renderer_draw_text sample_renderer "A" (-2) (-7)
          (color_make 255 0 0 255) 1)
       "B" (-2 + 8 * 1 * Z.of_nat (String.length "A")) (-7)
       (color_make 255 0 0 255) 1).
Proof.
  apply (draw_text_line_by_line sample_renderer "A" "B" (-2) (-7)
           (color_make 255 0 0 255) 1).
  vm_compute. split; [discriminate | exact I].
Defined.

(** The letter A at scale 1 with its top left corner left of the 3x2
    screen: the columns 2 to 4 of its first two rows. *)
Example draw_text_sample :
  framebuffer (renderer_draw_text sample_renderer "A" (-2) 0
                 (color_make 255 0 0 255) 1)
  = [4294901760; 4294901760; 4278190080;
     4294901760; 4294901760; 4294901760].
Proof. vm_compute. reflexivity. Qed.

(** ** Scaled images *)

(** A float of 24 digits times or by [1.0f] is itself. *)
Lemma round_one_digit (s : bool) (M : positive) (e : Z) :
  digits2_pos M = 24%positive -> -148 <= e <= 104 ->
  binary_round_aux F32.prec F32.emax s (Zpos M~0) (e - 1) loc_Exact
  = S754_finite s M e.
Proof.
  intros Hd He. unfold binary_round_aux.
  assert (Hshr : shr_fexp F32.prec F32.emax (Z.pos M~0) (e - 1) loc_Exact
                 = (Build_shr_record (Z.pos M) false false, e - 1 + 1)).
  { unfold shr_fexp, fexp, emin. cbn [Zdigits2 digits2_pos]. rewrite Hd.
    unfold F32.prec, F32.emax.
    match goal with
    | |- shr _ _ ?n = _ => replace n with 1 by lia
    end.
    reflexivity. }
  rewrite Hshr. cbn [shr_m loc_of_shr_record round_nearest_even].
  assert (Hshr2 : shr_fexp F32.prec F32.emax (Z.pos M) (e - 1 + 1) loc_Exact
                  = (Build_shr_record (Z.pos M) false false, e - 1 + 1)).
  { unfold shr_fexp, shr, fexp, emin. simpl Zdigits2. rewrite Hd.
    unfold F32.prec, F32.emax.
    match goal with
    | |- match ?n with _ => _ end = _ => replace n with 0 by lia
    end.
    reflexivity. }
  rewrite Hshr2. cbn [shr_m].
  replace (e - 1 + 1 <=? F32.emax - F32.prec) with true
    by (unfold F32.prec, F32.emax; lia).
  f_equal. lia.
Qed.

Lemma mul_one_exact (s : bool) (M : positive) (e : Z) :
  digits2_pos M = 24%positive -> -126 <= e <= 104 ->
  F32.mul (S754_finite s M e) F32.one = S754_finite s M e.
Proof.
  intros Hd He.
  change F32.one with (S754_finite false 8388608 (-23)).
  unfold F32.mul, SFmul. rewrite Pos.mul_comm, xorb_false_r.
  change (8388608 * M)%positive
    with (M~0~0~0~0~0~0~0~0~0~0~0~0~0~0~0~0~0~0~0~0~0~0~0)%positive.
  unfold binary_round_aux.
  assert (Hshr : shr_fexp F32.prec F32.emax
                   (Z.pos M~0~0~0~0~0~0~0~0~0~0~0~0~0~0~0~0~0~0~0~0~0~0~0)
                   (e + -23) loc_Exact
                 = (Build_shr_record (Z.pos M) false false, e + -23 + 23)).
  { unfold shr_fexp, fexp, emin. cbn [Zdigits2 digits2_pos]. rewrite Hd.
    unfold F32.prec, F32.emax.
    match goal with
    | |- shr _ _ ?n = _ => replace n with 23 by lia
    end.
    reflexivity. }
  rewrite Hshr. cbn [shr_m loc_of_shr_record round_nearest_even].
  assert (Hshr2 : shr_fexp F32.prec F32.emax (Z.pos M) (e + -23 + 23) loc_Exact
                  = (Build_shr_record (Z.pos M) false false, e + -23 + 23)).
  { unfold shr_fexp, shr, fexp, emin. simpl Zdigits2. rewrite Hd.
    unfold F32.prec, F32.emax.
    match goal with
    | |- match ?n with _ => _ end = _ => replace n with 0 by lia
    end.
    reflexivity. }
  rewrite Hshr2. cbn [shr_m].
  replace (e + -23 + 23 <=? F32.emax - F32.prec) with true
    by (unfold F32.prec, F32.emax; lia).
  f_equal. lia.
Qed.

Lemma div_one_exact (s : bool) (M : positive) (e : Z) :
  digits2_pos M = 24%positive -> -126 <= e <= 104 ->
  F32.div (S754_finite s M e) F32.one = S754_finite s M e.
Proof.
  intros Hd He.
  change F32.one with (S754_finite false 8388608 (-23)).
  unfold F32.div, SFdiv, SFdiv_core_binary.
  change (Zdigits2 (Z.pos 8388608)) with 24.
  change (Zdigits2 (Z.pos M)) with (Z.pos (digits2_pos M)). rewrite Hd.
  unfold fexp, emin, F32.prec, F32.emax.
  replace (Z.min (Z.max (24 + e - (24 + -23) - 24) (3 - 128 - 24)) (e - -23))
    with (e - 1) by lia.
  replace (e - -23 - (e - 1)) with 24 by lia.
  change (Z.shiftl (Z.pos M) 24)
    with (Z.pos M~0~0~0~0~0~0~0~0~0~0~0~0~0~0~0~0~0~0~0~0~0~0~0~0).
  assert (Hdiv : Z.div_eucl
                   (Z.pos M~0~0~0~0~0~0~0~0~0~0~0~0~0~0~0~0~0~0~0~0~0~0~0~0)
                   8388608 = (Z.pos M~0, 0)).
  { pose proof (Z.div_eucl_eq
                  (Z.pos M~0~0~0~0~0~0~0~0~0~0~0~0~0~0~0~0~0~0~0~0~0~0~0~0)
                  8388608 ltac:(lia)) as Heq.
    pose proof (Z.mod_pos_bound
                  (Z.pos M~0~0~0~0~0~0~0~0~0~0~0~0~0~0~0~0~0~0~0~0~0~0~0~0)
                  8388608 ltac:(lia)) as Hmod.
    unfold Z.modulo in Hmod.
    destruct (Z.div_eucl _ 8388608) as [q r0]. f_equal; lia. }
  rewrite Hdiv. rewrite xorb_false_r.
  change (new_location 8388608 0) with loc_Exact.
  apply round_one_digit; [exact Hd | lia].
Qed.

Lemma of_int_times_one (w : Z) :
  0 <= w < 2 ^ 24 -> F32.mul (F32.of_int w) F32.one = F32.of_int w.
Proof.
  intros Hw. destruct (Z.eq_dec w 0) as [->|Hw0]; [reflexivity|].
  destruct (of_int_exact w ltac:(lia)) as (M & e & -> & Hd & He & _).
  apply mul_one_exact; [exact Hd | lia].
Qed.

Lemma of_int_by_one (w : Z) :
  0 <= w < 2 ^ 24 -> F32.div (F32.of_int w) F32.one = F32.of_int w.
Proof.
  intros Hw. destruct (Z.eq_dec w 0) as [->|Hw0]; [reflexivity|].
  destruct (of_int_exact w ltac:(lia)) as (M & e & -> & Hd & He & _).
  apply div_one_exact; [exact Hd | lia].
Qed.

(** An [int] below [2^24] converted to float and back is itself. *)
Lemma to_int_of_int (w : Z) :
  0 <= w < 2 ^ 24 -> F32.to_int (F32.of_int w) = w.
Proof.
  intros Hw. destruct (Z.eq_dec w 0) as [->|Hw0]; [reflexivity|].
  destruct (of_int_exact w ltac:(lia)) as (M & e & -> & Hd & He & HM).
  unfold F32.to_int.
  assert (Hmag : Z.shiftl (Z.pos M) e = w).
  { replace e with (- (- e)) at 1 by lia.
    rewrite Z.shiftl_opp_r, Z.shiftr_div_pow2 by lia.
    rewrite HM. apply Z.div_mul. apply Z.pow_nonzero; lia. }
  rewrite Hmag. unfold F32.INT_MIN, F32.INT_MAX.
  replace ((w <? - 2 ^ 31) || (2 ^ 31 - 1 <? w)) with false; [reflexivity|].
  symmetry. apply orb_false_iff. split; apply Z.ltb_ge; lia.
Qed.

Lemma to_int_mul_zero_scale (f scale : float) :
  F32.eqb scale F32.zero = true -> F32.to_int (F32.mul f scale) <= 0.
Proof.
  intros Hz.
  destruct scale as [sz|sz| |sz mz ez];
    try discriminate Hz; try (destruct sz; discriminate Hz).
  destruct f; cbn; unfold F32.INT_MIN; lia.
Qed.

Lemma for_range_empty {St : Type} (lo hi : Z) (body : Z -> St -> exec St)
    (s : St) :
  hi <= lo -> for_range lo hi body s = Ret s.
Proof.
  intros Hle. unfold for_range.
  replace (Z.to_nat (hi - lo)) with 0%nat by lia. reflexivity.
Qed.

Lemma draw_image_ex_total (rend : Renderer) (img : option Image) (x y : Z)
    (scale : float) (alpha : Z) :
  exists rend', renderer_draw_image_ex rend img x y scale alpha = Ret rend'.
Proof.
  destruct img as [img|]; [|eexists; reflexivity].
  unfold renderer_draw_image_ex.
  destruct (F32.eqb scale F32.zero) eqn:Hz.
  - rewrite for_range_empty; [eexists; reflexivity|].
    apply to_int_mul_zero_scale. exact Hz.
  - unfold for_range. apply for_loop_total. intros j s.
    apply for_loop_total. intros i s'.
    unfold fdiv_checked. rewrite Hz. cbn [bind].
    match goal with
    | |- context [if ?c then _ else _] => destruct c
    end; eexists; reflexivity.
Qed.

Lemma draw_image_ex_unscaled (rend : Renderer) (img : Image) (x y : Z) :
  0 <= img_width img < 2 ^ 24 -> 0 <= img_height img < 2 ^ 24 ->
  renderer_draw_image_ex rend (Some img) x y F32.one 255
  = Ret (renderer_draw_image rend (Some img) x y).
Proof.
  intros Hw Hh. rewrite draw_image_plots.
  unfold renderer_draw_image_ex, image_plots.
  rewrite !of_int_times_one, !to_int_of_int by assumption.
  rewrite <- (Z.sub_0_r (img_height img)) at 2.
  apply (for_range_plots _
           (fun j => map (fun i => (x + i, y + j,
                                     pixel_color (image_at img i j)))
                       (seqZ 0 (img_width img)))).
  intros j s Hj.
  rewrite (for_range_plots _
             (fun i => [(x + i, y + j, pixel_color (image_at img i j))])).
  - rewrite concat_map_singleton, Z.sub_0_r. reflexivity.
  - intros i s' Hi. unfold fdiv_checked.
    change (F32.eqb F32.one F32.zero) with false. cbn [bind].
    rewrite !of_int_by_one, !to_int_of_int by lia.
    replace ((i >=? img_width img) || (j >=? img_height img)) with false
      by (symmetry; apply orb_false_iff; split; lia).
    cbv zeta. unfold image_at, pixel_color.
    pose proof (pixel_channel_range (load (pixels img) (j * img_width img + i)))
      as (_ & _ & _ & Hpa).
    rewrite tint_channel_white by exact Hpa. reflexivity.
Qed.

(** X24: [renderer_draw_image_ex] returns for every scale and alpha: a zero
    scale gives the image no width and no height, so that no index is
    divided by it.  A null image draws nothing; and at scale 1 and alpha 255
    an image of less than [2^24] columns and rows is drawn exactly as
    [renderer_draw_image] draws it. *)
Theorem draw_image_ex_unscaled_is_draw_image (rend : Renderer)
    (img : option Image) (x y : Z) (scale : float) (alpha : Z) :
  (exists rend', renderer_draw_image_ex rend img x y scale alpha = Ret rend') /\
  renderer_draw_image_ex rend None x y scale alpha = Ret rend /\
  (forall im, img = Some im ->
     0 <= img_width im < 2 ^ 24 -> 0 <= img_height im < 2 ^ 24 ->
     renderer_draw_image_ex rend img x y F32.one 255
     = Ret (renderer_draw_image rend img x y)).
Proof.
  split; [apply draw_image_ex_total|]. split; [reflexivity|].
  intros im -> Hw Hh. apply draw_image_ex_unscaled; assumption.
Qed.

Lemma draw_image_ex_unscaled_is_draw_image_witness :
  renderer_draw_image_ex sample_renderer (Some corners_image) 1 0 F32.one 255
  = Ret (renderer_draw_image sample_renderer (Some corners_image) 1 0).
Proof.
  destruct (draw_image_ex_unscaled_is_draw_image sample_renderer
              (Some corners_image) 1 0 F32.one 255) as (_ & _ & Hsame).
  apply (Hsame corners_image); [reflexivity | simpl; lia | simpl; lia].
Defined.

(** The known picture at twice its size on the 3x2 screen, and at half its
    size. *)
Example draw_image_ex_sample :
  option_map framebuffer
    (match renderer_draw_image_ex sample_renderer (Some corners_image) 0 0
             (F32.of_int 2) 255 with
     | Ret rend' => Some rend'
     | Fault _ => None
     end)
  = Some [4294901760; 4294901760; 4278255360;
          4294901760; 4294901760; 4278255360] /\
  option_map framebuffer
    (match renderer_draw_image_ex sample_renderer (Some corners_image) 0 0
             F32.half 255 with
     | Ret rend' => Some rend'
     | Fault _ => None
     end)
  = Some [4294901760; 4278190080; 4278190080;
          4278190080; 4278190080; 4278190080].
Proof. split; vm_compute; reflexivity. Qed.

(** ** More on vectors and matrices *)

Lemma add_comm (a b : float) : F32.add a b = F32.add b a.
Proof.
  unfold F32.add, SFadd.
  destruct a as [sa|sa| |sa ma ea], b as [sb|sb| |sb mb eb];
    try reflexivity; try (destruct sa, sb; reflexivity).
  rewrite (Z.min_comm ea eb), Z.add_comm. reflexivity.
Qed.

Lemma mul_comm (a b : float) : F32.mul a b = F32.mul b a.
Proof.
  unfold F32.mul, SFmul.
  destruct a as [sa|sa| |sa ma ea], b as [sb|sb| |sb mb eb];
    try reflexivity; try (rewrite xorb_comm; reflexivity).
  rewrite xorb_comm, Pos.mul_comm, Z.add_comm. reflexivity.
Qed.

(** X25: In single precision too [vec3_add] and [vec3_dot] do not depend on the
    order of their arguments, when no component of the arguments is a NaN:
    the two orders give the same numbers, the same infinities, or a NaN at
    the same places. *)
Theorem vec3_add_dot_symmetric (a b : Vec3) :
  vec3_no_nan a -> vec3_no_nan b ->
  vec3_add a b = vec3_add b a /\ vec3_dot a b = vec3_dot b a.
Proof.
  intros _ _. unfold vec3_add, vec3_dot. split.
  - rewrite (add_comm (x a)), (add_comm (y a)), (add_comm (z a)). reflexivity.
  - rewrite (mul_comm (x a)), (mul_comm (y a)), (mul_comm (z a)). reflexivity.
Qed.

Lemma vec3_add_dot_symmetric_witness :
  let a := vec3_make (F32.of_int 1) (F32.of_int 2) (F32.of_int 3) in
  let b := vec3_make F32.half F32.zero (F32.of_int (-4)) in
  vec3_add a b = vec3_add b a /\ vec3_dot a b = vec3_dot b a.
Proof.
  apply vec3_add_dot_symmetric; repeat split; vm_compute; reflexivity.
Defined.

Lemma sub_self (a : float) : is_finite a = true -> F32.sub a a = F32.zero.
Proof.
  intros Ha. unfold F32.sub, SFsub.
  destruct a as [sa|sa| |sa ma ea]; try discriminate Ha.
  - destruct sa; reflexivity.
  - rewrite Z.sub_diag. reflexivity.
Qed.

Lemma is_zero_mul (a b : float) :
  is_zero a = true -> is_finite b = true -> is_zero (F32.mul a b) = true.
Proof.
  destruct a as [sa|sa| |sa ma ea]; try discriminate.
  destruct b as [sb|sb| |sb mb eb]; try discriminate; reflexivity.
Qed.

Lemma is_zero_sub (a b : float) :
  is_zero a = true -> is_zero b = true -> is_zero (F32.sub a b) = true.
Proof.
  destruct a as [sa|sa| |sa ma ea]; try discriminate.
  destruct b as [sb|sb| |sb mb eb]; try discriminate.
  destruct sa, sb; reflexivity.
Qed.

Lemma is_zero_add (a b : float) :
  is_zero a = true -> is_zero b = true -> is_zero (F32.add a b) = true.
Proof.
  destruct a as [sa|sa| |sa ma ea]; try discriminate.
  destruct b as [sb|sb| |sb mb eb]; try discriminate.
  destruct sa, sb; reflexivity.
Qed.

Lemma is_zero_opp (a : float) : is_zero a = true -> is_zero (F32.opp a) = true.
Proof. destruct a; try discriminate; reflexivity. Qed.

Lemma is_zero_eqb (a : float) : is_zero a = true -> F32.eqb a F32.zero = true.
Proof. destruct a as [[|]| | |]; try discriminate; reflexivity. Qed.

Lemma vec3_normalize_total (v : Vec3) : exists n, vec3_normalize v = Ret n.
Proof.
  unfold vec3_normalize. change (F32.of_int 0) with F32.zero.
  destruct (F32.eqb _ F32.zero) eqn:Hlen; [eauto|].
  unfold fdiv_checked. rewrite Hlen. simpl. eauto.
Qed.

Lemma vec3_normalize_zeros (v : Vec3) :
  is_zero (x v) = true -> is_zero (y v) = true -> is_zero (z v) = true ->
  vec3_normalize v = Ret (vec3_make F32.zero F32.zero F32.zero).
Proof.
  destruct v as [[sx|?| |? ? ?] [sy|?| |? ? ?] [sz|?| |? ? ?]];
    cbn [x y z]; try discriminate.
  intros _ _ _. destruct sx, sy, sz; reflexivity.
Qed.

Lemma is_zero_finite (a : float) : is_zero a = true -> is_finite a = true.
Proof. destruct a; try discriminate; reflexivity. Qed.

Lemma vec3_cross_zero_l (a b : Vec3) :
  is_zero (x a) = true -> is_zero (y a) = true -> is_zero (z a) = true ->
  vec3_finite b ->
  is_zero (x (vec3_cross a b)) = true /\ is_zero (y (vec3_cross a b)) = true /\
  is_zero (z (vec3_cross a b)) = true.
Proof.
  intros Hx Hy Hz (Hbx & Hby & Hbz). unfold vec3_cross, vec3_make. cbn [x y z].
  repeat split; apply is_zero_sub; apply is_zero_mul; assumption.
Qed.

Lemma vec3_dot_zero_l (a b : Vec3) :
  is_zero (x a) = true -> is_zero (y a) = true -> is_zero (z a) = true ->
  vec3_finite b -> is_zero (vec3_dot a b) = true.
Proof.
  intros Hx Hy Hz (Hbx & Hby & Hbz). unfold vec3_dot.
  repeat apply is_zero_add; apply is_zero_mul; assumption.
Qed.

(** X26: [mat4_look_at] returns for all its arguments, without a division by
    zero.  For a camera that looks at its own position, with coordinates
    that are numbers, the three axes of the view have length 0 and are left
    that way: every entry of the matrix is a zero but the last one, which is
    1. *)
Theorem look_at_own_position (eye target up : Vec3) :
  (exists mat, mat4_look_at eye target up = Ret mat) /\
  (vec3_finite eye -> vec3_finite up ->
   exists mat,
     mat4_look_at eye eye up = Ret mat /\
     m mat 3 3 = F32.one /\
     forall i j, (i < 4)%nat -> (j < 4)%nat -> (i, j) <> (3%nat, 3%nat) ->
       F32.eqb (m mat i j) F32.zero = true).
Proof.
  split.
  - unfold mat4_look_at.
    destruct (vec3_normalize_total (vec3_sub target eye)) as [f ->].
    cbn [bind].
    destruct (vec3_normalize_total (vec3_cross f up)) as [s ->].
    cbn [bind]. eexists; reflexivity.
  - intros (Hex & Hey & Hez) Hup. unfold mat4_look_at.
    assert (Hf : vec3_sub eye eye = vec3_make F32.zero F32.zero F32.zero)
      by (unfold vec3_sub; rewrite !sub_self by assumption; reflexivity).
    rewrite Hf.
    change (vec3_normalize (vec3_make F32.zero F32.zero F32.zero))
      with (Ret (vec3_make F32.zero F32.zero F32.zero)).
    cbn [bind].
    set (f := vec3_make F32.zero F32.zero F32.zero).
    destruct (vec3_cross_zero_l f up eq_refl eq_refl eq_refl Hup)
      as (Hcx & Hcy & Hcz).
    rewrite (vec3_normalize_zeros _ Hcx Hcy Hcz). cbn [bind]. fold f.
    eexists. split; [reflexivity|]. split; [reflexivity|].
    assert (Hdot : is_zero (vec3_dot f (mkVec3 (x eye) (y eye) (z eye))) = true)
      by (apply vec3_dot_zero_l; repeat split; assumption).
    destruct eye as [ex ey ez]. cbn [x y z] in *.
    intros i j Hi Hj Hne. apply is_zero_eqb.
    destruct i as [|[|[|[|i]]]]; try lia;
      destruct j as [|[|[|[|j]]]]; try lia;
      try (exfalso; apply Hne; reflexivity);
      cbn [m mat4_set Nat.eqb andb];
      try reflexivity;
      try (apply is_zero_opp; exact Hdot); try exact Hdot.
Qed.

Lemma look_at_own_position_witness :
  exists mat,
    mat4_look_at (vec3_make (F32.of_int 1) (F32.of_int 2) (F32.of_int 3))
      (vec3_make (F32.of_int 1) (F32.of_int 2) (F32.of_int 3))
      (vec3_make F32.zero F32.one F32.zero) = Ret mat /\
    m mat 3 3 = F32.one /\
    forall i j, (i < 4)%nat -> (j < 4)%nat -> (i, j) <> (3%nat, 3%nat) ->
      F32.eqb (m mat i j) F32.zero = true.
Proof.
  apply (look_at_own_position
           (vec3_make (F32.of_int 1) (F32.of_int 2) (F32.of_int 3))
           (vec3_make (F32.of_int 1) (F32.of_int 2) (F32.of_int 3))
           (vec3_make F32.zero F32.one F32.zero)).
  - repeat split; vm_compute; reflexivity.
  - repeat split; vm_compute; reflexivity.
Defined.

